(** * Transport-network resilience engine: graphAlgorithms.js

    A shallow embedding of [src/utils/graphAlgorithms.js] and the
    properties of its specification.

    Modelling conventions.
    - JavaScript numbers are the type [num]: a finite double is idealised
      as an exact rational (neither rounding nor overflow is modelled),
      [Infinity], [-Infinity] and [NaN] are separate constructors.  The dataset
      fields (distances, times, fares, coordinates) are finite, hence [Q].
    - A graphology graph ([new Graph({multi: false, type: 'undirected'})])
      is a record with its nodes by key and its edges in insertion order;
      the library itself is not part of the repository, its operations are
      modelled after their documented behaviour (an operation that throws
      returns [None]).
    - Graph objects live in a store and are handled through references
      where the code copies and mutates them ([applyFailure]).
    - The values of [Math.random()] are a parameter of the function that
      draws them ([generateODSample]), and a loop that may go on for
      ever returns its state when the given values are used up. *)

From Stdlib Require Import QArith Qround Lqa Ascii String.
From stdpp Require Import gmap strings list.

Local Open Scope string_scope.
Local Open Scope list_scope.

(** ** JavaScript numbers *)

Module Num.

Inductive num : Type :=
| Fin (q : Q)
| PInf
| NInf
| NaN.

Definition zero : num := Fin 0.

Definition ofNat (n : nat) : num := Fin (inject_Z (Z.of_nat n)).

(** [a + b] *)
Definition add (a b : num) : num :=
  match a, b with
  | Fin x, Fin y => Fin (x + y)
  | NaN, _ | _, NaN => NaN
  | PInf, NInf | NInf, PInf => NaN
  | PInf, _ | _, PInf => PInf
  | NInf, _ | _, NInf => NInf
  end.

(** [a - b] *)
Definition sub (a b : num) : num :=
  match a, b with
  | Fin x, Fin y => Fin (x - y)
  | NaN, _ | _, NaN => NaN
  | PInf, PInf | NInf, NInf => NaN
  | PInf, _ | _, NInf => PInf
  | NInf, _ | _, PInf => NInf
  end.

(** [a / n] for a count [n > 0] *)
Definition divCount (a : num) (n : nat) : num :=
  match a with
  | Fin x => Fin (x / inject_Z (Z.of_nat n))
  | other => other
  end.

Definition Qltb (x y : Q) : bool := negb (Qle_bool y x).

(** [a < b]; every comparison with [NaN] is false *)
Definition ltb (a b : num) : bool :=
  match a, b with
  | Fin x, Fin y => Qltb x y
  | NaN, _ | _, NaN => false
  | _, NInf => false
  | PInf, _ => false
  | NInf, _ => true
  | _, PInf => true
  end.

(** [a > b] *)
Definition gtb (a b : num) : bool := ltb b a.

(** [a <= b] *)
Definition leb (a b : num) : bool :=
  match a, b with
  | Fin x, Fin y => Qle_bool x y
  | NaN, _ | _, NaN => false
  | NInf, _ => true
  | _, PInf => true
  | _, _ => false
  end.

(** [a === Infinity] *)
Definition isInfinity (a : num) : bool :=
  match a with PInf => true | _ => false end.

End Num.
Import Num.

(** ** Strings *)

(** [a || b] on strings: the empty string is falsy. *)
Definition strOr (a b : string) : string :=
  match a with EmptyString => b | _ => a end.

(** [a || b] where [a] may be absent. *)
Definition optStrOr (a : option string) (b : string) : string :=
  match a with Some s => strOr s b | None => b end.

(** [s.endsWith(suffix)] *)
Definition endsWith (s suffix : string) : bool :=
  let n := String.length s in
  let k := String.length suffix in
  (k <=? n)%nat && String.eqb (String.substring (n - k) k s) suffix.

(** [s.split(sep)] for a one-character separator: always at least one
    token; an empty token between two adjacent separators. *)
Fixpoint split (sep : ascii) (s : string) : list string :=
  match s with
  | EmptyString => [EmptyString]
  | String c rest =>
      if Ascii.eqb c sep then EmptyString :: split sep rest
      else match split sep rest with
           | [] => [String c EmptyString]
           | tok :: toks => String c tok :: toks
           end
  end.

(** ** Dataset records *)

(** A row of the node table. *)
Record Node : Type := mkNode {
  node_id : string;
  lat : Q;
  lon : Q;
  layer : string;
  name : option string;
  region : option string;
  type : option string
}.

(** A row of the edge table. *)
Record EdgeRow : Type := mkEdgeRow {
  from_id : string;
  to_id : string;
  row_mode : option string;
  edge_type : option string;
  distance_km : Q;
  time_min : Q;
  cost_rs : option Q;
  row_intra_or_inter : option string
}.

(** ** The graph object *)

(** Attributes stored on an edge of the graph.  [buildGraph] sets all of
    them; the edges inserted by [greedyRecommendation] carry no
    [baseTime], [baseCost], [originalCost] and [isInterModal]. *)
Record EdgeAttrs : Type := mkEdgeAttrs {
  weight : Q;
  transportMode : string;
  mode : string;
  distance : Q;
  time : Q;
  cost : Q;
  baseTime : option Q;
  baseCost : option Q;
  originalCost : option Q;
  isInterModal : option bool;
  intra_or_inter : option string;
  reason : option string
}.

Record GEdge : Type := mkGEdge {
  e_source : string;
  e_target : string;
  e_attrs : EdgeAttrs
}.

(** Nodes are kept by key, as in graphology's [Map]; edges in insertion
    order.  The only loop over the nodes, in [applyFailure], collects the
    nodes to drop, and the order in which it meets them plays no role. *)
Record Graph : Type := mkGraph {
  g_nodes : gmap string Node;
  g_edges : list GEdge
}.

Definition emptyGraph : Graph := mkGraph ∅ [].

(** The edge joins [a] and [b], in either direction. *)
Definition connects (a b : string) (e : GEdge) : bool :=
  (String.eqb (e_source e) a && String.eqb (e_target e) b)
  || (String.eqb (e_source e) b && String.eqb (e_target e) a).

Definition touches (n : string) (e : GEdge) : bool :=
  String.eqb (e_source e) n || String.eqb (e_target e) n.

Definition hasNode (g : Graph) (n : string) : bool :=
  match g_nodes g !! n with Some _ => true | None => false end.

Definition hasEdge (g : Graph) (a b : string) : bool :=
  existsb (connects a b) (g_edges g).

(** [getNodeAttributes(n)]; throws when the node is missing. *)
Definition getNodeAttributes (g : Graph) (n : string) : option Node :=
  g_nodes g !! n.

(** [getEdgeAttributes(a, b)]; throws when there is no such edge. *)
Definition getEdgeAttributes (g : Graph) (a b : string) : option EdgeAttrs :=
  e_attrs <$> List.find (connects a b) (g_edges g).

(** [addNode]; throws when the key is taken. *)
Definition addNode (g : Graph) (key : string) (attrs : Node) : option Graph :=
  if hasNode g key then None
  else Some (mkGraph (<[key := attrs]> (g_nodes g)) (g_edges g)).

(** [addEdge]; throws when an endpoint is missing or, the graph being
    simple, when the two nodes are already joined. *)
Definition addEdge (g : Graph) (a b : string) (attrs : EdgeAttrs) : option Graph :=
  if negb (hasNode g a) || negb (hasNode g b) then None
  else if hasEdge g a b then None
  else Some (mkGraph (g_nodes g) (g_edges g ++ [mkGEdge a b attrs])).

(** The graph without the node [n] and its incident edges. *)
Definition removeNode (g : Graph) (n : string) : Graph :=
  mkGraph (delete n (g_nodes g))
          (List.filter (fun e => negb (touches n e)) (g_edges g)).

(** The graph without the edge between [a] and [b]. *)
Definition removeEdge (g : Graph) (a b : string) : Graph :=
  mkGraph (g_nodes g) (List.filter (fun e => negb (connects a b e)) (g_edges g)).

(** [dropNode]; throws when the node is missing. *)
Definition dropNode (g : Graph) (n : string) : option Graph :=
  if hasNode g n then Some (removeNode g n) else None.

(** [dropEdge(a, b)]; throws when there is no such edge. *)
Definition dropEdge (g : Graph) (a b : string) : option Graph :=
  if hasEdge g a b then Some (removeEdge g a b) else None.

(** [forEachNeighbor(n, ...)] followed by [getEdgeAttributes(n, neighbor)]:
    every neighbour of [n] with the attributes of the edge joining them,
    in the order the edges were inserted. *)
Definition incident (g : Graph) (n : string) : list (string * EdgeAttrs) :=
  flat_map (fun e =>
    if String.eqb (e_source e) n then [(e_target e, e_attrs e)]
    else if String.eqb (e_target e) n then [(e_source e, e_attrs e)]
    else []) (g_edges g).

(** ** The store of graph objects *)

Module Store.

Abbreviation ref := positive.
Abbreviation heap := (gmap positive Graph).

(** A computation over the store; [None] is an exception that escapes. *)
Definition M (A : Type) : Type := heap -> option (A * heap).

Definition ret {A} (a : A) : M A := fun h => Some (a, h).

Definition bind {A B} (m : M A) (k : A -> M B) : M B :=
  fun h => match m h with
           | Some (a, h') => k a h'
           | None => None
           end.

Declare Scope store_scope.
Delimit Scope store_scope with store.
Notation "x <<- m ;; k" := (bind m (fun x => k))
  (at level 100, m at next level, right associativity) : store_scope.
Notation "m ;;; k" := (bind m (fun _ => k))
  (at level 100, right associativity) : store_scope.
Local Open Scope store_scope.

(** [graph.copy()]: a new object with the same nodes and edges. *)
Definition copy (l : ref) : M ref :=
  fun h => match h !! l with
           | Some G => let l' := fresh (dom h) in Some (l', <[l' := G]> h)
           | None => None
           end.

(** A read-only method call on the object at [l]. *)
Definition query {A} (l : ref) (q : Graph -> A) : M A :=
  fun h => match h !! l with
           | Some G => Some (q G, h)
           | None => None
           end.

(** A mutating method call on the object at [l]. *)
Definition update (l : ref) (f : Graph -> option Graph) : M unit :=
  fun h => match h !! l with
           | Some G => match f G with
                       | Some G' => Some (tt, <[l := G']> h)
                       | None => None
                       end
           | None => None
           end.

(** [xs.forEach(f)] *)
Fixpoint forEach {A} (xs : list A) (f : A -> M unit) : M unit :=
  match xs with
  | [] => ret tt
  | x :: rest => f x ;;; forEach rest f
  end.

End Store.
Import Store.
Local Open Scope store_scope.

(** ** applyFailure *)

Inductive FailureKind : Type := NodeFailure | EdgeFailure | LayerFailure.

(** [const [from, to] = edgeSpec.split('_')]: the first two tokens.  A
    missing second token is [undefined], which graphology's [hasEdge] and
    [dropEdge] coerce to the string ["undefined"]. *)
Definition edgeSpecEndpoints (edgeSpec : string) : string * string :=
  match split "_"%char edgeSpec with
  | from :: to :: _ => (from, to)
  | [from] => (from, "undefined")
  | [] => ("undefined", "undefined")
  end.

Definition applyFailure (graph : ref) (failureType : FailureKind)
    (failureTargets : list string) : M ref :=
  failedGraph <<- copy graph ;;
  if (List.length failureTargets =? 0)%nat then ret failedGraph
  else
    match failureType with
    | NodeFailure =>
        forEach failureTargets (fun nodeId =>
          present <<- query failedGraph (fun G => hasNode G nodeId) ;;
          if present then update failedGraph (fun G => dropNode G nodeId)
          else ret tt) ;;;
        ret failedGraph
    | EdgeFailure =>
        forEach failureTargets (fun edgeSpec =>
          let '(from, to) := edgeSpecEndpoints edgeSpec in
          present <<- query failedGraph (fun G => hasEdge G from to) ;;
          if present then update failedGraph (fun G => dropEdge G from to)
          else ret tt) ;;;
        ret failedGraph
    | LayerFailure =>
        nodesToRemove <<- query failedGraph (fun G =>
          fst <$> List.filter
            (fun kv => existsb (String.eqb (layer (snd kv))) failureTargets)
            (map_to_list (g_nodes G))) ;;
        forEach nodesToRemove (fun node =>
          update failedGraph (fun G => dropNode G node)) ;;;
        ret failedGraph
    end.

(** ** Array.prototype.sort *)

(** What the sort does with the comparator's value [v = compare(x, y)]:
    [x] stays in front of [y] unless [v > 0] ([NaN] counts as [+0]). *)
Definition keepsOrder (v : num) : bool :=
  match v with
  | Fin q => Qle_bool q 0
  | PInf => false
  | NInf | NaN => true
  end.

Fixpoint insertSorted {A} (compare : A -> A -> num) (x : A) (l : list A) : list A :=
  match l with
  | [] => [x]
  | y :: rest =>
      if keepsOrder (compare x y) then x :: y :: rest
      else y :: insertSorted compare x rest
  end.

(** [l.sort(compare)] as a stable insertion sort.  For a comparator that
    is consistent (a total preorder) the stable sort is unique, so this is
    the array every engine returns; for an inconsistent comparator the
    standard leaves the order to the engine. *)
Definition jsSort {A} (compare : A -> A -> num) (l : list A) : list A :=
  foldr (insertSorted compare) [] l.

(** ** calculateMetroFare *)

Definition calculateMetroFare (distanceKm : Q) : Q :=
  if Qle_bool distanceKm 2 then 10
  else if Qle_bool distanceKm 4 then 20
  else if Qle_bool distanceKm 6 then 30
  else if Qle_bool distanceKm 9 then 40
  else if Qle_bool distanceKm 12 then 50
  else if Qle_bool distanceKm 15 then 60
  else if Qle_bool distanceKm 18 then 70
  else if Qle_bool distanceKm 21 then 80
  else if Qle_bool distanceKm 24 then 90
  else 100.

(** ** dijkstraMinTransfers *)

Record QEntry : Type := mkQEntry {
  q_node : string;
  q_transfers : nat;
  q_time : Q;
  q_prevMode : option string;
  q_path : list string
}.

(** The comparator of [queue.sort]: transfers first, then time. *)
Definition compareEntries (a b : QEntry) : num :=
  if negb (q_transfers a =? q_transfers b)%nat
  then Fin (inject_Z (Z.of_nat (q_transfers a) - Z.of_nat (q_transfers b)))
  else Fin (q_time a - q_time b).

(** [`${current.node}_${current.prevMode}`] *)
Definition stateKey (node : string) (prevMode : option string) : string :=
  (node ++ "_" ++ match prevMode with Some m => m | None => "null" end)%string.

(** The callback of [forEachNeighbor] for one neighbour: updates [best]
    and pushes on the queue when the new label is better. *)
Definition relax (current : QEntry)
    (st : gmap string (nat * Q) * list QEntry) (nb : string * EdgeAttrs)
    : gmap string (nat * Q) * list QEntry :=
  let '(best, queue) := st in
  let '(neighbor, edge) := nb in
  let edgeMode := strOr (transportMode edge) (mode edge) in
  let edgeTime := time edge in
  let newTransfers :=
    match q_prevMode current with
    | Some m => if negb (String.eqb m edgeMode) then S (q_transfers current)
                else q_transfers current
    | None => q_transfers current
    end in
  let newTime := (q_time current + edgeTime)%Q in
  let isBetter :=
    match best !! neighbor with
    | None => true
    | Some (bestTransfers, bestTime) =>
        if (newTransfers <? bestTransfers)%nat then true
        else (newTransfers =? bestTransfers)%nat && Qltb newTime bestTime
    end in
  if isBetter then
    (<[neighbor := (newTransfers, newTime)]> best,
     queue ++ [mkQEntry neighbor newTransfers newTime (Some edgeMode)
                        (q_path current ++ [neighbor])])
  else (best, queue).

(** The [while (queue.length > 0)] loop; [None] when the fuel runs out. *)
Fixpoint dijkstraLoop (fuel : nat) (graph : Graph) (target : string)
    (queue : list QEntry) (visited : gset string) (best : gmap string (nat * Q))
    : option (option (list string)) :=
  match fuel with
  | O => None
  | S fuel' =>
      match jsSort compareEntries queue with
      | [] => Some None
      | current :: rest =>
          if String.eqb (q_node current) target then Some (Some (q_path current))
          else
            let key := stateKey (q_node current) (q_prevMode current) in
            if bool_decide (key ∈ visited) then
              dijkstraLoop fuel' graph target rest visited best
            else
              let '(best', queue') :=
                fold_left (relax current) (incident graph (q_node current)) (best, rest) in
              dijkstraLoop fuel' graph target queue' ({[key]} ∪ visited) best'
      end
  end.

(** The state keys the search can ever visit: a node reached through an
    edge (or the source) labelled with the mode of an edge (or [null]). *)
Definition stateUniverse (graph : Graph) (source : string) : gset string :=
  let nodes := source :: flat_map (fun e => [e_source e; e_target e]) (g_edges graph) in
  let modes := None :: ((fun e => Some (strOr (transportMode (e_attrs e)) (mode (e_attrs e))))
                          <$> g_edges graph) in
  list_to_set (flat_map (fun n => stateKey n <$> modes) nodes).

(** Iterations after which the loop has certainly stopped. *)
Definition dijkstraFuel (graph : Graph) (source : string) : nat :=
  2 + S (List.length (g_edges graph)) * size (stateUniverse graph source).

Definition dijkstraMinTransfers (graph : Graph) (source target : string)
    : option (list string) :=
  if negb (hasNode graph source) || negb (hasNode graph target) then None
  else if String.eqb source target then Some [source]
  else
    match dijkstraLoop (dijkstraFuel graph source) graph target
            [mkQEntry source 0 0 None [source]] ∅ {[source := (0%nat, 0%Q)]} with
    | Some result => result
    | None => None
    end.

(** ** buildGraph *)

Inductive Objective : Type := ObjTime | ObjCost | ObjTransfers.

Record Coefficients : Type := mkCoefficients {
  timeMultiplier : Q;
  costMultiplier : Q;
  capacityFactor : Q;
  label : string
}.

Definition defaultCoefficients : Coefficients := mkCoefficients 1 1 1 "Standard".

Record RouteContext : Type := mkRouteContext {
  rc_source : option string;
  rc_target : option string
}.

Definition TRANSFER_PENALTY : Q := 10000.

(** [routeContext?.source?.endsWith('_Metro') || false] *)
Definition isMetroId (id : option string) : bool :=
  match id with Some s => endsWith s "_Metro" | None => false end.

Definition preferMetroOf (routeContext : option RouteContext) : bool :=
  match routeContext with
  | Some rc => isMetroId (rc_source rc) && isMetroId (rc_target rc)
  | None => false
  end.

(** [edge.mode || edge.edge_type || 'unknown'] *)
Definition transportModeOf (edge : EdgeRow) : string :=
  optStrOr (row_mode edge) (optStrOr (edge_type edge) "unknown").

Definition isRail (m : string) : bool := String.eqb m "metro" || String.eqb m "mmts".

Definition isInter (tag : option string) : bool :=
  match tag with Some s => String.eqb s "inter" | None => false end.

Definition baseCostOf (edge : EdgeRow) : Q :=
  if String.eqb (transportModeOf edge) "metro" then calculateMetroFare (distance_km edge)
  else match cost_rs edge with Some c => c | None => 0 end.

Definition adjustedTimeOf (coefficients : Coefficients) (edge : EdgeRow) : Q :=
  if isRail (transportModeOf edge) then time_min edge
  else (time_min edge * timeMultiplier coefficients)%Q.

(** The adjusted cost before the Metro preference is applied. *)
Definition surgedCostOf (coefficients : Coefficients) (edge : EdgeRow) : Q :=
  if isRail (transportModeOf edge) then baseCostOf edge
  else (baseCostOf edge * costMultiplier coefficients)%Q.

Definition adjustedCostOf (coefficients : Coefficients) (preferMetro : bool)
    (edge : EdgeRow) : Q :=
  if preferMetro && negb (String.eqb (transportModeOf edge) "metro")
     && negb (isInter (row_intra_or_inter edge))
  then (surgedCostOf coefficients edge * (14 # 10))%Q
  else surgedCostOf coefficients edge.

Definition weightOf (objective : Objective) (coefficients : Coefficients)
    (preferMetro : bool) (edge : EdgeRow) : Q :=
  match objective with
  | ObjTime => adjustedTimeOf coefficients edge
  | ObjCost => adjustedCostOf coefficients preferMetro edge
  | ObjTransfers =>
      (time_min edge * (1 # 100)
       + (if isInter (row_intra_or_inter edge) then TRANSFER_PENALTY else 0))%Q
  end.

(** The attribute object handed to [graph.addEdge] for one row. *)
Definition edgeAttributes (objective : Objective) (coefficients : Coefficients)
    (preferMetro : bool) (edge : EdgeRow) : EdgeAttrs :=
  {| weight := weightOf objective coefficients preferMetro edge;
     transportMode := transportModeOf edge;
     mode := transportModeOf edge;
     distance := distance_km edge;
     time := adjustedTimeOf coefficients edge;
     cost := adjustedCostOf coefficients preferMetro edge;
     baseTime := Some (time_min edge);
     baseCost := Some (baseCostOf edge);
     originalCost := cost_rs edge;
     isInterModal := Some (isInter (row_intra_or_inter edge));
     intra_or_inter := row_intra_or_inter edge;
     reason := None |}.

(** The callback of [edges.forEach]: rows with a missing endpoint and
    rows joining two nodes that are already joined leave the graph as it
    is. *)
Definition insertRow (objective : Objective) (coefficients : Coefficients)
    (preferMetro : bool) (graph : Graph) (edge : EdgeRow) : Graph :=
  if negb (hasNode graph (from_id edge)) || negb (hasNode graph (to_id edge)) then graph
  else if negb (hasEdge graph (from_id edge) (to_id edge)) then
    match addEdge graph (from_id edge) (to_id edge)
            (edgeAttributes objective coefficients preferMetro edge) with
    | Some graph' => graph'
    | None => graph
    end
  else graph.

(** [nodes.forEach(node => graph.addNode(node.node_id, ...))]: a repeated
    identifier makes [addNode] throw. *)
Fixpoint addNodes (graph : Graph) (nodes : list Node) : option Graph :=
  match nodes with
  | [] => Some graph
  | node :: rest =>
      match addNode graph (node_id node) node with
      | Some graph' => addNodes graph' rest
      | None => None
      end
  end.

Definition buildGraph (nodes : list Node) (edges : list EdgeRow)
    (objective : Objective) (timeOfDayCoefficients : option Coefficients)
    (routeContext : option RouteContext) : option Graph :=
  let coefficients := default defaultCoefficients timeOfDayCoefficients in
  let preferMetro := preferMetroOf routeContext in
  match addNodes emptyGraph nodes with
  | Some graph => Some (fold_left (insertRow objective coefficients preferMetro) edges graph)
  | None => None
  end.

(** ** Path results and metrics *)

Record PathSegment : Type := mkPathSegment {
  seg_from : string;
  seg_to : string;
  seg_fromId : string;
  seg_toId : string;
  seg_mode : string;
  seg_time : Q;
  seg_cost : Q;
  seg_distance : Q
}.

(** The object returned by [computeShortestPath]; [p_pathSegments] is
    absent ([None]) on the early returns. *)
Record PathResult : Type := mkPathResult {
  p_path : option (list string);
  p_pathSegments : option (list PathSegment);
  p_distance : num;
  p_transfers : num;
  p_time : num;
  p_cost : num
}.

Definition UNREACHABLE : num := PInf.

(** The sentinel of an unreachable pair. *)
Definition unreachableResult : PathResult :=
  mkPathResult None None UNREACHABLE UNREACHABLE UNREACHABLE UNREACHABLE.

(** The sentinel returned from the [catch] block. *)
Definition failedResult : PathResult :=
  mkPathResult None (Some []) UNREACHABLE UNREACHABLE UNREACHABLE UNREACHABLE.

Definition trivialResult (source : string) : PathResult :=
  mkPathResult (Some [source]) None zero zero zero zero.

(** The running totals of the walk along the path. *)
Record WalkAcc : Type := mkWalkAcc {
  totalTime : Q;
  totalCost : Q;
  totalDistance : Q;
  w_transfers : nat;
  prevMode : option string;
  segments : list PathSegment
}.

Definition initWalk : WalkAcc := mkWalkAcc 0 0 0 0 None [].

(** One turn of the [for] loop over the path, for the edge [a]-[b]. *)
Definition walkStep (acc : WalkAcc) (a b : string) (edge : EdgeAttrs)
    (fromNode toNode : Node) : WalkAcc :=
  let segmentMode := strOr (transportMode edge) (strOr (mode edge) "unknown") in
  let currentMode := strOr (transportMode edge) (mode edge) in
  {| totalTime := totalTime acc + time edge;
     totalCost := totalCost acc + cost edge;
     totalDistance := totalDistance acc + distance edge;
     w_transfers :=
       match prevMode acc with
       | Some m => if negb (String.eqb m currentMode) then S (w_transfers acc)
                   else w_transfers acc
       | None => w_transfers acc
       end;
     prevMode := Some currentMode;
     segments := segments acc ++
       [mkPathSegment (optStrOr (name fromNode) a) (optStrOr (name toNode) b)
                      a b segmentMode (time edge) (cost edge) (distance edge)] |}.

(** The loop [for (i = 0; i < path.length - 1; i++)]; [None] when
    [getEdgeAttributes] or [getNodeAttributes] throws. *)
Fixpoint walkPath (graph : Graph) (path : list string) (acc : WalkAcc)
    : option WalkAcc :=
  match path with
  | a :: ((b :: _) as rest) =>
      match getEdgeAttributes graph a b, getNodeAttributes graph a,
            getNodeAttributes graph b with
      | Some edge, Some fromNode, Some toNode =>
          walkPath graph rest (walkStep acc a b edge fromNode toNode)
      | _, _, _ => None
      end
  | _ => Some acc
  end.

Record ODPair : Type := mkODPair {
  od_source : string;
  od_target : string;
  od_sourceName : option string;
  od_targetName : option string
}.

(** An entry of [results]: the pair, the spread path result and the
    [reachable] flag. *)
Record ODResult : Type := mkODResult {
  res_source : string;
  res_target : string;
  res_sourceName : string;
  res_targetName : string;
  res_path : PathResult;
  reachable : bool
}.

Record Metrics : Type := mkMetrics {
  avgTime : num;
  avgCost : num;
  avgTransfers : num;
  disconnected : nat;
  totalPairs : nat;
  validPairs : nat;
  results : list ODResult
}.

(** The variables the callback of [odPairs.forEach] updates. *)
Record MetricsAcc : Type := mkMetricsAcc {
  m_results : list ODResult;
  m_totalTime : num;
  m_totalCost : num;
  m_totalTransfers : num;
  m_disconnected : nat;
  m_validPairs : nat
}.

Definition initMetrics : MetricsAcc := mkMetricsAcc [] zero zero zero 0 0.

(** ** Candidate links and recommendations *)

Inductive CandidateType : Type := hub_neighbor | cross_rail | od_driven | express_hub.

Record Candidate : Type := mkCandidate {
  c_from : string;
  c_to : string;
  c_fromName : option string;
  c_toName : option string;
  c_type : CandidateType;
  c_distance : Q;
  priority : Z
}.

(** The best candidate of a round: the candidate spread together with
    its assigned [time], [cost] and [transportMode]. *)
Record Assigned : Type := mkAssigned {
  a_candidate : Candidate;
  a_time : Q;
  a_cost : Q;
  a_transportMode : string
}.

(** An entry of [selectedLinks]: the best candidate spread together with
    [improvement] and [metrics] (the value of [bestMetrics]). *)
Record Recommendation : Type := mkRecommendation {
  rec_link : Assigned;
  improvement : num;
  metrics : option Metrics
}.

Section Engine.

(** [bidirectional(graph, source, target, 'weight')] of
    graphology-shortest-path: a path or [null]. *)
Variable bidirectional : Graph -> string -> string -> option (list string).

(** [euclideanDistance(lat1, lon1, lat2, lon2)]: the haversine formula;
    its trigonometry is left abstract. *)
Variable euclideanDistance : Q -> Q -> Q -> Q -> Q.

(** ** computeShortestPath *)

Definition computeShortestPath (graph : Graph) (source target : string)
    (objective : Objective) : PathResult :=
  if negb (hasNode graph source) || negb (hasNode graph target) then unreachableResult
  else if String.eqb source target then trivialResult source
  else
    let path :=
      match objective with
      | ObjTransfers => dijkstraMinTransfers graph source target
      | _ => bidirectional graph source target
      end in
    match path with
    | None => unreachableResult
    | Some path =>
        match walkPath graph path initWalk with
        | Some acc =>
            mkPathResult (Some path) (Some (segments acc))
              (Fin (totalDistance acc)) (ofNat (w_transfers acc))
              (Fin (totalTime acc)) (Fin (totalCost acc))
        | None => failedResult
        end
    end.

(** ** computeMetrics *)

(** The callback of [odPairs.forEach]. *)
Definition metricsStep (graph : Graph) (objective : Objective)
    (acc : MetricsAcc) (od : ODPair) : MetricsAcc :=
  let result := computeShortestPath graph (od_source od) (od_target od) objective in
  let entry := mkODResult (od_source od) (od_target od)
                 (optStrOr (od_sourceName od) (od_source od))
                 (optStrOr (od_targetName od) (od_target od)) result in
  if isInfinity (p_time result) then
    {| m_results := m_results acc ++ [entry false];
       m_totalTime := m_totalTime acc;
       m_totalCost := m_totalCost acc;
       m_totalTransfers := m_totalTransfers acc;
       m_disconnected := S (m_disconnected acc);
       m_validPairs := m_validPairs acc |}
  else
    {| m_results := m_results acc ++ [entry true];
       m_totalTime := add (m_totalTime acc) (p_time result);
       m_totalCost := add (m_totalCost acc) (p_cost result);
       m_totalTransfers := add (m_totalTransfers acc) (p_transfers result);
       m_disconnected := m_disconnected acc;
       m_validPairs := S (m_validPairs acc) |}.

(** [validPairs > 0 ? total / validPairs : 0] *)
Definition average (total : num) (validPairs : nat) : num :=
  if (0 <? validPairs)%nat then divCount total validPairs else zero.

Definition finalMetrics (odPairs : list ODPair) (acc : MetricsAcc) : Metrics :=
  {| avgTime := average (m_totalTime acc) (m_validPairs acc);
     avgCost := average (m_totalCost acc) (m_validPairs acc);
     avgTransfers := average (m_totalTransfers acc) (m_validPairs acc);
     disconnected := m_disconnected acc;
     totalPairs := List.length odPairs;
     validPairs := m_validPairs acc;
     results := m_results acc |}.

Definition computeMetrics (graph : Graph) (odPairs : list ODPair)
    (objective : Objective) : Metrics :=
  finalMetrics odPairs (fold_left (metricsStep graph objective) odPairs initMetrics).

(** ** generateCandidates *)

(** [candidates] and [candidateSet]. *)
Definition CandState : Type := list Candidate * gset string.

Definition findNode (nodes : list Node) (id : string) : option Node :=
  List.find (fun n => String.eqb (node_id n) id) nodes.

(** The helper [addCandidate]. *)
Definition addCandidate (nodes : list Node) (originalGraph failedGraph : Graph)
    (from to : string) (type : CandidateType) (priority : Z) (st : CandState)
    : CandState :=
  let '(candidates, candidateSet) := st in
  let key := (from ++ "_" ++ to)%string in
  let reverseKey := (to ++ "_" ++ from)%string in
  if bool_decide (key ∈ candidateSet) || bool_decide (reverseKey ∈ candidateSet) then st
  else if hasEdge failedGraph from to || hasEdge originalGraph from to then st
  else
    match findNode nodes from, findNode nodes to with
    | Some fromNode, Some toNode =>
        let distance :=
          euclideanDistance (lat fromNode) (lon fromNode) (lat toNode) (lon toNode) in
        (candidates ++ [mkCandidate from to (name fromNode) (name toNode)
                          type distance priority],
         {[key]} ∪ candidateSet)
    | _, _ => st
    end.

Definition nodeDistance (a b : Node) : Q :=
  euclideanDistance (lat a) (lon a) (lat b) (lon b).

Definition withinKm (lo hi d : Q) : bool := Qle_bool lo d && Qle_bool d hi.

Definition isType (n : Node) (t : string) : bool :=
  match type n with Some s => String.eqb s t | None => false end.

(** The inner loop [for (j = i + 1; ...)] of the hub-neighbour strategy. *)
Definition hubInner (nodes : list Node) (originalGraph failedGraph : Graph)
    (hubI : Node) (later : list Node) (st : CandState) : CandState :=
  fold_left (fun st hubJ =>
    if withinKm 2 6 (nodeDistance hubI hubJ)
    then addCandidate nodes originalGraph failedGraph
           (node_id hubI) (node_id hubJ) hub_neighbor 10 st
    else st) later st.

Fixpoint hubNeighbors (nodes : list Node) (originalGraph failedGraph : Graph)
    (busHubs : list Node) (st : CandState) : CandState :=
  match busHubs with
  | [] => st
  | hubI :: later =>
      hubNeighbors nodes originalGraph failedGraph later
        (hubInner nodes originalGraph failedGraph hubI later st)
  end.

Definition crossRail (nodes : list Node) (originalGraph failedGraph : Graph)
    (metroStations mmtsStations : list Node) (st : CandState) : CandState :=
  fold_left (fun st metro =>
    fold_left (fun st mmts =>
      if withinKm (1 # 2) 4 (nodeDistance metro mmts)
      then addCandidate nodes originalGraph failedGraph
             (node_id metro) (node_id mmts) cross_rail 8 st
      else st) mmtsStations st) metroStations st.

(** The comparator [(a, b) => (b.time - a.time) - (a.time - 0)]. *)
Definition compareAffected (a b : ODResult) : num :=
  sub (sub (p_time (res_path b)) (p_time (res_path a)))
      (sub (p_time (res_path a)) zero).

Definition topAffected (scenarioResults : list ODResult) : list ODResult :=
  take 5 (jsSort compareAffected (List.filter reachable scenarioResults)).

Definition nonEmpty (s : string) : bool :=
  match s with EmptyString => false | _ => true end.

(** The pair the OD-driven strategy proposes for one result, if any:
    [od.path[0]] and [od.path[Math.floor(od.path.length / 2)]]. *)
Definition odProposal (od : ODResult) : option (string * string) :=
  match p_path (res_path od) with
  | Some path =>
      if (2 <? List.length path)%nat then
        let midPoint := (List.length path / 2)%nat in
        match path !! 0%nat, path !! midPoint with
        | Some first, Some mid =>
            if nonEmpty first && nonEmpty mid then Some (first, mid) else None
        | _, _ => None
        end
      else None
  | None => None
  end.

Definition odDriven (nodes : list Node) (originalGraph failedGraph : Graph)
    (scenarioResults : list ODResult) (st : CandState) : CandState :=
  fold_left (fun st od =>
    match odProposal od with
    | Some (first, mid) =>
        addCandidate nodes originalGraph failedGraph first mid od_driven 7 st
    | None => st
    end) (topAffected scenarioResults) st.

Definition optStrEqb (a b : option string) : bool :=
  match a, b with
  | Some x, Some y => String.eqb x y
  | None, None => true
  | _, _ => false
  end.

(** The inner loop of the express-hub strategy, with its guard
    [candidates.length < 40]. *)
Fixpoint expressInner (nodes : list Node) (originalGraph failedGraph : Graph)
    (hubI : Node) (later : list Node) (st : CandState) : CandState :=
  match later with
  | [] => st
  | hubJ :: later' =>
      if (List.length (fst st) <? 40)%nat then
        expressInner nodes originalGraph failedGraph hubI later'
          (if negb (optStrEqb (region hubI) (region hubJ))
              && withinKm 3 15 (nodeDistance hubI hubJ)
           then addCandidate nodes originalGraph failedGraph
                  (node_id hubI) (node_id hubJ) express_hub 6 st
           else st)
      else st
  end.

Fixpoint expressHubs (nodes : list Node) (originalGraph failedGraph : Graph)
    (majorHubs : list Node) (st : CandState) : CandState :=
  match majorHubs with
  | [] => st
  | hubI :: later =>
      if (List.length (fst st) <? 40)%nat then
        expressHubs nodes originalGraph failedGraph later
          (expressInner nodes originalGraph failedGraph hubI later st)
      else st
  end.

(** The comparator [(a, b) => b.priority - a.priority]. *)
Definition comparePriority (a b : Candidate) : num :=
  Fin (inject_Z (priority b - priority a)).

(** The candidates in generation order, before the final sort. *)
Definition generatedCandidates (nodes : list Node) (originalGraph failedGraph : Graph)
    (scenarioResults : list ODResult) : CandState :=
  let busHubs := List.filter (fun n => isType n "hub" && String.eqb (layer n) "bus") nodes in
  let metroStations := List.filter (fun n => String.eqb (layer n) "metro") nodes in
  let mmtsStations := List.filter (fun n => String.eqb (layer n) "mmts") nodes in
  let majorHubs := List.filter (fun n =>
    (isType n "hub" || isType n "station")
    && (String.eqb (layer n) "bus" || String.eqb (layer n) "metro")) nodes in
  let st1 := hubNeighbors nodes originalGraph failedGraph busHubs ([], ∅) in
  let st2 := crossRail nodes originalGraph failedGraph metroStations mmtsStations st1 in
  let st3 := odDriven nodes originalGraph failedGraph scenarioResults st2 in
  expressHubs nodes originalGraph failedGraph majorHubs st3.

Definition generateCandidates (nodes : list Node) (originalGraph failedGraph : Graph)
    (scenarioResults : list ODResult) : list Candidate :=
  take 30 (jsSort comparePriority
             (fst (generatedCandidates nodes originalGraph failedGraph scenarioResults))).

(** ** greedyRecommendation *)

Definition objectiveValue (objective : Objective) (m : Metrics) : num :=
  match objective with
  | ObjTime => avgTime m
  | ObjCost => avgCost m
  | ObjTransfers => avgTransfers m
  end.

(** The edge properties given to a candidate, by its type. *)
Definition assign (coefficients : Coefficients) (candidate : Candidate) : Assigned :=
  match c_type candidate with
  | hub_neighbor | express_hub =>
      let baseTime := (c_distance candidate / 35 * 60)%Q in
      let baseCost := (c_distance candidate * 3)%Q in
      mkAssigned candidate (baseTime * timeMultiplier coefficients)
                 (baseCost * costMultiplier coefficients) "bus"
  | cross_rail =>
      let baseTime := (c_distance candidate / 5 * 60)%Q in
      mkAssigned candidate (baseTime * timeMultiplier coefficients) 0 "walking"
  | od_driven =>
      let baseTime := (c_distance candidate / 25 * 60)%Q in
      let baseCost := (c_distance candidate * (25 # 10))%Q in
      mkAssigned candidate (baseTime * timeMultiplier coefficients)
                 (baseCost * costMultiplier coefficients) "bus"
  end.

Definition typeName (t : CandidateType) : string :=
  match t with
  | hub_neighbor => "hub_neighbor"
  | cross_rail => "cross_rail"
  | od_driven => "od_driven"
  | express_hub => "express_hub"
  end.

(** The attribute object of the edge inserted for a candidate. *)
Definition linkAttributes (objective : Objective) (link : Assigned)
    (reasonPrefix : string) : EdgeAttrs :=
  {| weight := match objective with
               | ObjTime => a_time link
               | ObjCost => a_cost link
               | ObjTransfers => (a_time link * (1 # 1000))%Q
               end;
     transportMode := a_transportMode link;
     mode := a_transportMode link;
     distance := c_distance (a_candidate link);
     time := a_time link;
     cost := a_cost link;
     baseTime := None;
     baseCost := None;
     originalCost := None;
     isInterModal := None;
     intra_or_inter := Some "inter";
     reason := Some (reasonPrefix ++ typeName (c_type (a_candidate link)))%string |}.

(** [bestCandidate], [bestImprovement] and [bestMetrics] of a round. *)
Record RoundBest : Type := mkRoundBest {
  bestCandidate : option Assigned;
  bestImprovement : num;
  bestMetrics : option Metrics
}.

Definition initRound : RoundBest := mkRoundBest None zero None.

(** The objective value measured with the candidate inserted in a copy
    of the working graph; [None] when [addEdge] throws. *)
Definition testValue (workingGraph : Graph) (odPairs : list ODPair)
    (objective : Objective) (coefficients : Coefficients) (candidate : Candidate)
    : option (Metrics * num) :=
  match addEdge workingGraph (c_from candidate) (c_to candidate)
          (linkAttributes objective (assign coefficients candidate) "candidate_") with
  | Some testGraph =>
      let testMetrics := computeMetrics testGraph odPairs objective in
      Some (testMetrics, objectiveValue objective testMetrics)
  | None => None
  end.

(** The body of the loop over the remaining candidates. *)
Definition evaluateCandidate (workingGraph : Graph) (odPairs : list ODPair)
    (objective : Objective) (coefficients : Coefficients) (baselineValue : num)
    (round : RoundBest) (candidate : Candidate) : RoundBest :=
  match testValue workingGraph odPairs objective coefficients candidate with
  | Some (testMetrics, value) =>
      let improvement := sub baselineValue value in
      if gtb improvement (bestImprovement round)
      then mkRoundBest (Some (assign coefficients candidate)) improvement (Some testMetrics)
      else round
  | None => round
  end.

Definition evaluateRound (workingGraph : Graph) (odPairs : list ODPair)
    (objective : Objective) (coefficients : Coefficients) (baselineValue : num)
    (remainingCandidates : list Candidate) : RoundBest :=
  fold_left (evaluateCandidate workingGraph odPairs objective coefficients baselineValue)
            remainingCandidates initRound.

(** [remainingCandidates.filter(c => !(c.from === best.from && c.to === best.to))] *)
Definition removeSelected (best : Assigned) (remainingCandidates : list Candidate)
    : list Candidate :=
  List.filter (fun c =>
    negb (String.eqb (c_from c) (c_from (a_candidate best))
          && String.eqb (c_to c) (c_to (a_candidate best)))) remainingCandidates.

(** The state of the selection loop. *)
Record GreedyState : Type := mkGreedyState {
  selectedLinks : list Recommendation;
  workingGraph : Graph;
  remainingCandidates : list Candidate
}.

(** The loop [for (iteration = 0; iteration < budget && remaining.length > 0;
    iteration++)], by the number of rounds still allowed.  A round ends
    the loop when it finds no improvement; when the permanent [addEdge]
    throws, the [catch] block lets the loop go on with the state as it
    was.  The progress callback only reports and is left out. *)
Fixpoint greedyLoop (odPairs : list ODPair) (objective : Objective)
    (coefficients : Coefficients) (baselineValue : num)
    (rounds : nat) (st : GreedyState) : GreedyState :=
  match rounds with
  | O => st
  | S rounds' =>
      match remainingCandidates st with
      | [] => st
      | _ :: _ =>
          let round := evaluateRound (workingGraph st) odPairs objective coefficients
                         baselineValue (remainingCandidates st) in
          match bestCandidate round with
          | Some best =>
              if leb (bestImprovement round) zero then st
              else
                match addEdge (workingGraph st) (c_from (a_candidate best))
                        (c_to (a_candidate best))
                        (linkAttributes objective best "recommended_") with
                | Some graph' =>
                    greedyLoop odPairs objective coefficients baselineValue rounds'
                      (mkGreedyState
                         (selectedLinks st ++
                            [mkRecommendation best (bestImprovement round)
                                              (bestMetrics round)])
                         graph'
                         (removeSelected best (remainingCandidates st)))
                | None =>
                    greedyLoop odPairs objective coefficients baselineValue rounds' st
                end
          | None => st
          end
      end
  end.

Record GreedyResult : Type := mkGreedyResult {
  gr_selectedLinks : list Recommendation;
  finalGraph : Graph;
  gr_finalMetrics : Metrics
}.

Definition greedyRecommendation (failedGraph : Graph) (candidates : list Candidate)
    (odPairs : list ODPair) (budget : nat) (objective : Objective)
    (timeOfDayCoefficients : option Coefficients) : GreedyResult :=
  let coefficients := default defaultCoefficients timeOfDayCoefficients in
  let baselineMetrics := computeMetrics failedGraph odPairs objective in
  let baselineValue := objectiveValue objective baselineMetrics in
  let final := greedyLoop odPairs objective coefficients baselineValue budget
                 (mkGreedyState [] failedGraph candidates) in
  mkGreedyResult (selectedLinks final) (workingGraph final)
    (computeMetrics (workingGraph final) odPairs objective).

(** ** generateODSample *)

(** [Math.floor(Math.random() * length)], for a value [r] of
    [Math.random()]. *)
Definition randomIndex (r : Q) (length : nat) : nat :=
  Z.to_nat (Qfloor (r * inject_Z (Z.of_nat length))).

(** The truth value of an optional string. *)
Definition truthy (s : option string) : bool :=
  match s with Some s => nonEmpty s | None => false end.

Definition isMajorNode (n : Node) : bool :=
  isType n "station" || isType n "hub"
  || (String.eqb (layer n) "metro" && truthy (name n)).

(** [odPairs] and [usedPairs]. *)
Definition SampleState : Type := list ODPair * gset string.

(** The condition of the [while] loop. *)
Definition sampling (majorNodes : list Node) (sampleSize : nat) (st : SampleState)
    : bool :=
  let n := List.length majorNodes in
  (List.length (fst st) <? sampleSize)%nat
  && (List.length (fst st) <? n * (n - 1) / 2)%nat.

(** One turn of the loop, for the two values that [Math.random()] gives;
    [None] is the [TypeError] of reading [node_id] of [undefined]. *)
Definition sampleStep (majorNodes : list Node) (draw : Q * Q) (st : SampleState)
    : option SampleState :=
  let '(odPairs, usedPairs) := st in
  let i := randomIndex (fst draw) (List.length majorNodes) in
  let j := randomIndex (snd draw) (List.length majorNodes) in
  if (i =? j)%nat then Some st
  else
    match majorNodes !! i, majorNodes !! j with
    | Some a, Some b =>
        let key := (node_id a ++ "_" ++ node_id b)%string in
        let reverseKey := (node_id b ++ "_" ++ node_id a)%string in
        if negb (bool_decide (key ∈ usedPairs))
           && negb (bool_decide (reverseKey ∈ usedPairs))
        then Some (odPairs ++ [mkODPair (node_id a) (node_id b) (name a) (name b)],
                   {[key]} ∪ usedPairs)
        else Some st
    | _, _ => None
    end.

(** The call has returned [odPairs], is still in its loop after the
    given values of [Math.random()], or has thrown. *)
Inductive SampleOutcome : Type :=
| Sampled (odPairs : list ODPair)
| Sampling (st : SampleState)
| SampleError.

Fixpoint sampleLoop (majorNodes : list Node) (sampleSize : nat)
    (draws : list (Q * Q)) (st : SampleState) : SampleOutcome :=
  if sampling majorNodes sampleSize st then
    match draws with
    | [] => Sampling st
    | draw :: draws' =>
        match sampleStep majorNodes draw st with
        | Some st' => sampleLoop majorNodes sampleSize draws' st'
        | None => SampleError
        end
    end
  else Sampled (fst st).

(** [generateODSample(nodes, sampleSize)], with the successive pairs of
    values of [Math.random()] as [draws]. *)
Definition generateODSample (nodes : list Node) (sampleSize : nat)
    (draws : list (Q * Q)) : SampleOutcome :=
  sampleLoop (List.filter isMajorNode nodes) sampleSize draws ([], ∅).

(** * The vocabulary of the properties, and worked inputs *)

(** What one turn of each loop of [applyFailure] does to the copy. *)
Definition nodeStep (G : Graph) (nodeId : string) : Graph :=
  if hasNode G nodeId then removeNode G nodeId else G.

Definition edgeStep (G : Graph) (edgeSpec : string) : Graph :=
  let '(from, to) := edgeSpecEndpoints edgeSpec in
  if hasEdge G from to then removeEdge G from to else G.

Definition layerNodes (G : Graph) (failureTargets : list string) : list string :=
  fst <$> List.filter
    (fun kv => existsb (String.eqb (layer (snd kv))) failureTargets)
    (map_to_list (g_nodes G)).

(** The value of the returned copy. *)
Definition failedValue (G : Graph) (failureType : FailureKind)
    (failureTargets : list string) : Graph :=
  match failureType with
  | NodeFailure => fold_left nodeStep failureTargets G
  | EdgeFailure => fold_left edgeStep failureTargets G
  | LayerFailure => fold_left removeNode (layerNodes G failureTargets) G
  end.

(** The edge is the one an edge target names: its endpoints are the
    first two tokens of the target. *)
Definition namedBy (edgeSpec : string) (e : GEdge) : bool :=
  connects (fst (edgeSpecEndpoints edgeSpec)) (snd (edgeSpecEndpoints edgeSpec)) e.

(** The fare table of the specification: the band of the distance and
    the fare of that band. *)
Definition fareBand (d fare : Q) : Prop :=
  (d <= 2 /\ fare = 10)%Q
  \/ (2 < d /\ d <= 4 /\ fare = 20)%Q
  \/ (4 < d /\ d <= 6 /\ fare = 30)%Q
  \/ (6 < d /\ d <= 9 /\ fare = 40)%Q
  \/ (9 < d /\ d <= 12 /\ fare = 50)%Q
  \/ (12 < d /\ d <= 15 /\ fare = 60)%Q
  \/ (15 < d /\ d <= 18 /\ fare = 70)%Q
  \/ (18 < d /\ d <= 21 /\ fare = 80)%Q
  \/ (21 < d /\ d <= 24 /\ fare = 90)%Q
  \/ (24 < d /\ fare = 100)%Q.

(** The entry of [results] for one OD pair. *)
Definition resultOf (graph : Graph) (objective : Objective) (od : ODPair) : ODResult :=
  let result := computeShortestPath graph (od_source od) (od_target od) objective in
  mkODResult (od_source od) (od_target od)
    (optStrOr (od_sourceName od) (od_source od))
    (optStrOr (od_targetName od) (od_target od))
    result (negb (isInfinity (p_time result))).

Definition infiniteTime (r : ODResult) : bool := isInfinity (p_time (res_path r)).

(** The sum of a field over the results whose time is not infinite,
    added up in the order of the list. *)
Definition sumFinite (field : PathResult -> num) (rs : list ODResult) (start : num) : num :=
  fold_left (fun total r =>
    if infiniteTime r then total else add total (field (res_path r))) rs start.

(** No candidate of the pool gives a value strictly below the reference. *)
Definition noneImproves (odPairs : list ODPair) (objective : Objective)
    (coefficients : Coefficients) (baselineValue : num) (st : GreedyState) : Prop :=
  forall c m v,
    c ∈ remainingCandidates st ->
    testValue (workingGraph st) odPairs objective coefficients c = Some (m, v) ->
    ltb v baselineValue = false.

(** The selected link and the candidate have the same endpoints. *)
Definition sameLink (r : Recommendation) (c : Candidate) : Prop :=
  c_from c = c_from (a_candidate (rec_link r))
  /\ c_to c = c_to (a_candidate (rec_link r)).

(** What the loop keeps true of its state: no selected link is still in
    the pool, and all selected links and the pool come from [initial]. *)
Definition poolInvariant (initial : list Candidate) (st : GreedyState) : Prop :=
  (forall r c, r ∈ selectedLinks st -> c ∈ remainingCandidates st -> ~ sameLink r c)
  /\ (forall r, r ∈ selectedLinks st -> a_candidate (rec_link r) ∈ initial)
  /\ (forall c, c ∈ remainingCandidates st -> c ∈ initial).

(** Two candidates join the same unordered pair of nodes. *)
Definition samePair (a b : Candidate) : Prop :=
  (c_from a = c_from b /\ c_to a = c_to b)
  \/ (c_from a = c_to b /\ c_to a = c_from b).

Definition distinctPairs (a b : Candidate) : Prop := ~ samePair a b.

Definition higherFirst (a b : Candidate) : Prop := (priority b <= priority a)%Z.

Definition candidateKey (c : Candidate) : string :=
  (c_from c ++ "_" ++ c_to c)%string.

(** The candidate joins two nodes that neither graph joins. *)
Definition unconnected (originalGraph failedGraph : Graph) (c : Candidate) : Prop :=
  hasEdge originalGraph (c_from c) (c_to c) = false
  /\ hasEdge failedGraph (c_from c) (c_to c) = false.

(** Every candidate has its key in [candidateSet], no two candidates
    join the same pair, and no candidate joins a connected pair. *)
Definition candidatesOk (originalGraph failedGraph : Graph) (st : CandState) : Prop :=
  (forall c, c ∈ st.1 -> candidateKey c ∈ st.2)
  /\ ForallOrdPairs distinctPairs st.1
  /\ (forall c, c ∈ st.1 -> unconnected originalGraph failedGraph c).

(** Consecutive nodes of the list are joined by an edge of the graph. *)
Fixpoint isWalk (g : Graph) (p : list string) : Prop :=
  match p with
  | a :: ((b :: _) as rest) => hasEdge g a b = true /\ isWalk g rest
  | _ => True
  end.

(** [p] is a path of the graph from [s] to [t]. *)
Definition pathBetween (g : Graph) (s t : string) (p : list string) : Prop :=
  head p = Some s /\ last p = Some t /\ isWalk g p.

Definition edgeModeOf (attrs : EdgeAttrs) : string :=
  strOr (transportMode attrs) (mode attrs).

Definition initialEntry (source : string) : QEntry := mkQEntry source 0 0 None [source].

Definition plainNode (id layer : string) : Node := mkNode id 0 0 layer None None None.

Definition plainRow (a b m : string) (minutes fare : Q) : EdgeRow :=
  mkEdgeRow a b (Some m) None 1 minutes (Some fare) (Some "intra").

(** A bus edge S-A and the metro edges S-B, B-A and A-T. *)
Definition transferNodes : list Node :=
  [plainNode "S" "bus"; plainNode "A" "metro"; plainNode "B" "metro";
   plainNode "T" "metro"].

Definition transferRows : list EdgeRow :=
  [plainRow "S" "A" "bus" 1 5; plainRow "S" "B" "metro" 2 5;
   plainRow "B" "A" "metro" 2 5; plainRow "A" "T" "metro" 1 5].

Definition affected (id : string) (minutes : Q) : ODResult :=
  mkODResult id "X" id "X"
    (mkPathResult (Some [id; "M"; "X"]) (Some []) (Fin 3) (Fin 0) (Fin minutes) (Fin 0))
    true.

(** The path and the transfer count that the transfer search returns
    from S to T on the graph built from the rows, in the order given. *)
Definition transferOutcome (rows : list EdgeRow) : option (option (list string) * num) :=
  match buildGraph transferNodes rows ObjTransfers None None with
  | Some g =>
      let result := computeShortestPath g "S" "T" ObjTransfers in
      Some (p_path result, p_transfers result)
  | None => None
  end.

(** Six stops a to f, each joined by a bus edge to the stop M, which a
    bus edge of 5 minutes joins to X; the OD pairs from each of them to X. *)
Definition starNodes : list Node :=
  [plainNode "a" "bus"; plainNode "b" "bus"; plainNode "c" "bus";
   plainNode "d" "bus"; plainNode "e" "bus"; plainNode "f" "bus";
   plainNode "M" "bus"; plainNode "X" "bus"].

Definition starRows : list EdgeRow :=
  [plainRow "a" "M" "bus" 7 5; plainRow "b" "M" "bus" 5 5;
   plainRow "c" "M" "bus" 6 5; plainRow "d" "M" "bus" 8 5;
   plainRow "e" "M" "bus" 9 5; plainRow "f" "M" "bus" 10 5;
   plainRow "M" "X" "bus" 5 5].

Definition starGraph : Graph :=
  default emptyGraph (buildGraph starNodes starRows ObjTransfers None None).

Definition starPairs : list ODPair :=
  [mkODPair "a" "X" None None; mkODPair "b" "X" None None;
   mkODPair "c" "X" None None; mkODPair "d" "X" None None;
   mkODPair "e" "X" None None; mkODPair "f" "X" None None].

(** The results of [computeMetrics] for these pairs. *)
Definition starResults : list ODResult :=
  results (computeMetrics starGraph starPairs ObjTransfers).

Definition timeOf (r : ODResult) : num := p_time (res_path r).

(** The sign of a comparator value, which is all a sort looks at. *)
Definition signOf (v : num) : comparison :=
  match v with
  | Fin q => (q ?= 0)%Q
  | PInf => Gt
  | NInf => Lt
  | NaN => Eq
  end.

(** [topAffected] with the sort of the engine as a parameter. *)
Definition topAffectedWith
    (sort : forall A : Type, (A -> A -> num) -> list A -> list A)
    (scenarioResults : list ODResult) : list ODResult :=
  take 5 (sort ODResult compareAffected (List.filter reachable scenarioResults)).

(** Six reachable results, all of time 10 but the one at position
    [longest], of time 15. *)
Definition affectedAt (longest i : nat) : ODResult :=
  affected "o" (if (i =? longest)%nat then 15 else 10).

Definition positions : list nat := [0; 1; 2; 3; 4; 5]%nat.

(** The graph of [transferNodes] and [transferRows]. *)
Definition transferGraph : Graph :=
  default emptyGraph (buildGraph transferNodes transferRows ObjTransfers None None).

Definition transferHeap : gmap positive Graph := {[1%positive := transferGraph]}.

(** Two metro stations and two MMTS stations, with one MMTS edge of
    fare 10 that is not a transfer edge. *)
Definition railNodes : list Node :=
  [plainNode "Ameerpet_Metro" "metro"; plainNode "Miyapur_Metro" "metro";
   plainNode "Begumpet_MMTS" "mmts"; plainNode "Lingampally_MMTS" "mmts"].

Definition railRows : list EdgeRow :=
  [plainRow "Begumpet_MMTS" "Lingampally_MMTS" "mmts" 20 10].

Definition metroContext : option RouteContext :=
  Some (mkRouteContext (Some "Ameerpet_Metro") (Some "Miyapur_Metro")).

Definition railGraph : Graph :=
  default emptyGraph (buildGraph railNodes railRows ObjCost None metroContext).

(** Two metro stations whose identifiers lack the suffix "_Metro" and
    two bus stops whose identifiers have it, each pair joined by a bus
    edge of fare 5 that is not a transfer edge; a route context between
    the stations and one between the stops. *)
Definition suffixNodes : list Node :=
  [plainNode "M1" "metro"; plainNode "M2" "metro";
   plainNode "Depot_Metro" "bus"; plainNode "Stand_Metro" "bus"].

Definition suffixRows : list EdgeRow :=
  [plainRow "M1" "M2" "bus" 10 5; plainRow "Depot_Metro" "Stand_Metro" "bus" 10 5].

Definition stationContext : option RouteContext :=
  Some (mkRouteContext (Some "M1") (Some "M2")).

Definition stopContext : option RouteContext :=
  Some (mkRouteContext (Some "Depot_Metro") (Some "Stand_Metro")).

Definition stationRouteGraph : Graph :=
  default emptyGraph (buildGraph suffixNodes suffixRows ObjCost None stationContext).

Definition stopRouteGraph : Graph :=
  default emptyGraph (buildGraph suffixNodes suffixRows ObjCost None stopContext).

Definition mmtsEdge : GEdge :=
  mkGEdge "Begumpet_MMTS" "Lingampally_MMTS"
    (edgeAttributes ObjCost defaultCoefficients true
       (plainRow "Begumpet_MMTS" "Lingampally_MMTS" "mmts" 20 10)).

Definition metroEdge : GEdge :=
  mkGEdge "S" "B"
    (edgeAttributes ObjTransfers defaultCoefficients false
       (plainRow "S" "B" "metro" 2 5)).

(** Two metro stations whose identifiers contain an underscore, joined
    by an edge. *)
Definition stationGraph : Graph :=
  default emptyGraph
    (buildGraph [plainNode "Ameerpet_Metro" "metro"; plainNode "Miyapur_Metro" "metro"]
       [plainRow "Ameerpet_Metro" "Miyapur_Metro" "metro" 4 10] ObjTime None None).

Definition stationHeap : gmap positive Graph := {[1%positive := stationGraph]}.

(** * Further vocabulary *)

(** ** Well-formed graphs *)

(** Every edge joins two nodes of the graph. *)
Definition endpointsExist (g : Graph) : Prop :=
  forall e, e ∈ g_edges g ->
    hasNode g (e_source e) = true /\ hasNode g (e_target e) = true.

(** The two edges do not join the same unordered pair of nodes. *)
Definition notParallel (e1 e2 : GEdge) : Prop :=
  connects (e_source e1) (e_target e1) e2 = false.

(** At most one edge between any two nodes. *)
Definition simpleGraph (g : Graph) : Prop := ForallOrdPairs notParallel (g_edges g).

Definition wellFormed (g : Graph) : Prop := endpointsExist g /\ simpleGraph g.

(** ** Rows of the edge table *)

(** The row joins [a] and [b], in either direction. *)
Definition rowJoins (a b : string) (row : EdgeRow) : bool :=
  (String.eqb (from_id row) a && String.eqb (to_id row) b)
  || (String.eqb (from_id row) b && String.eqb (to_id row) a).

Definition listed (nodes : list Node) (id : string) : bool :=
  existsb (fun n => String.eqb (node_id n) id) nodes.

(** Both endpoints of the row are identifiers of the node list. *)
Definition rowUsable (nodes : list Node) (row : EdgeRow) : bool :=
  listed nodes (from_id row) && listed nodes (to_id row).

(** ** Failures *)

(** The edge touches a target that is a node of the graph. *)
Definition hitByNode (G : Graph) (targets : list string) (e : GEdge) : bool :=
  existsb (fun t => hasNode G t && touches t e) targets.

(** The identifier is a node of the graph whose layer is listed. *)
Definition inLayers (G : Graph) (targets : list string) (id : string) : bool :=
  match g_nodes G !! id with
  | Some node => existsb (String.eqb (layer node)) targets
  | None => false
  end.

(** Every node and every edge of [G'] is one of [G]. *)
Definition subgraph (G' G : Graph) : Prop :=
  (forall id node, g_nodes G' !! id = Some node -> g_nodes G !! id = Some node)
  /\ (forall e, e ∈ g_edges G' -> e ∈ g_edges G).

(** The string has no underscore. *)
Fixpoint underscoreFree (s : string) : bool :=
  match s with
  | EmptyString => true
  | String c rest => negb (Ascii.eqb c "_"%char) && underscoreFree rest
  end.

(** The value of an entry of [edgeOptions] in App.js:
    [`${e.from_id}_${e.to_id}`]. *)
Definition edgeOptionValue (row : EdgeRow) : string :=
  (from_id row ++ "_" ++ to_id row)%string.

(** ** Recommendations *)

(** The candidate a recommendation was made from. *)
Definition linkOf (r : Recommendation) : Candidate := a_candidate (rec_link r).

(** The edge that [greedyRecommendation] adds for a selected link. *)
Definition linkEdge (objective : Objective) (r : Recommendation) : GEdge :=
  mkGEdge (c_from (linkOf r)) (c_to (linkOf r))
    (linkAttributes objective (rec_link r) "recommended_").

(** What the loop over the candidates of a round keeps true of
    [bestCandidate], [bestImprovement] and [bestMetrics], for the
    candidates seen so far. *)
Definition roundInvariant (odPairs : list ODPair) (objective : Objective)
    (coefficients : Coefficients) (baselineValue : num)
    (g : Graph) (seen : list Candidate) (round : RoundBest) : Prop :=
  ((bestCandidate round = None /\ bestImprovement round = zero
    /\ bestMetrics round = None)
   \/ (exists c m, c ∈ seen
         /\ bestCandidate round = Some (assign coefficients c)
         /\ testValue g odPairs objective coefficients c
            = Some (m, objectiveValue objective m)
         /\ bestMetrics round = Some m
         /\ bestImprovement round = sub baselineValue (objectiveValue objective m)
         /\ gtb (bestImprovement round) zero = true))
  /\ (forall c m v, c ∈ seen ->
        testValue g odPairs objective coefficients c = Some (m, v) ->
        gtb (sub baselineValue v) (bestImprovement round) = false).

(** What is recorded with a selected link: a strictly positive
    improvement, measured against the reference value, for a link between
    two nodes of the failed graph that it does not join. *)
Definition linkRecorded (objective : Objective) (coefficients : Coefficients)
    (baselineValue : num) (failedGraph : Graph) (r : Recommendation) : Prop :=
  rec_link r = assign coefficients (linkOf r)
  /\ gtb (improvement r) zero = true
  /\ (exists m, metrics r = Some m
        /\ improvement r = sub baselineValue (objectiveValue objective m))
  /\ hasNode failedGraph (c_from (linkOf r)) = true
  /\ hasNode failedGraph (c_to (linkOf r)) = true
  /\ hasEdge failedGraph (c_from (linkOf r)) (c_to (linkOf r)) = false.

(** What the selection loop keeps true of the working graph. *)
Definition graphInvariant (objective : Objective) (coefficients : Coefficients)
    (baselineValue : num) (failedGraph : Graph) (st : GreedyState) : Prop :=
  g_nodes (workingGraph st) = g_nodes failedGraph
  /\ g_edges (workingGraph st)
     = g_edges failedGraph ++ (linkEdge objective <$> selectedLinks st)
  /\ (forall r, r ∈ selectedLinks st ->
        linkRecorded objective coefficients baselineValue failedGraph r).

(** What the selection loop keeps true of the selected links and the
    pool, when the candidates join pairwise different pairs. *)
Definition distinctInvariant (initial : list Candidate) (st : GreedyState) : Prop :=
  ForallOrdPairs distinctPairs (linkOf <$> selectedLinks st)
  /\ (forall r c, r ∈ selectedLinks st -> c ∈ remainingCandidates st ->
        distinctPairs (linkOf r) c)
  /\ ForallOrdPairs distinctPairs (remainingCandidates st)
  /\ (List.length (selectedLinks st) + List.length (remainingCandidates st)
      <= List.length initial)%nat.

(** The node filters of [generateCandidates]. *)
Definition busHub (n : Node) : bool :=
  isType n "hub" && String.eqb (layer n) "bus".

Definition majorHub (n : Node) : bool :=
  (isType n "hub" || isType n "station")
  && (String.eqb (layer n) "bus" || String.eqb (layer n) "metro").

(** The conditions under which the three node strategies propose the
    pair of [a] and [b]. *)
Definition hubRule (a b : Node) : bool :=
  busHub a && busHub b && withinKm 2 6 (nodeDistance a b).

Definition railRule (a b : Node) : bool :=
  String.eqb (layer a) "metro" && String.eqb (layer b) "mmts"
  && withinKm (1 # 2) 4 (nodeDistance a b).

Definition expressRule (a b : Node) : bool :=
  majorHub a && majorHub b && negb (optStrEqb (region a) (region b))
  && withinKm 3 15 (nodeDistance a b).

(** [from] and [to] are the ids of two rows of [nodes] that meet [rule]. *)
Definition nodePair (nodes : list Node) (rule : Node -> Node -> bool)
    (from to : string) : Prop :=
  exists a b, a ∈ nodes /\ b ∈ nodes /\ node_id a = from /\ node_id b = to
              /\ rule a b = true.

(** A call [addCandidate(from, to, type, priority)] that one of the
    four strategies makes. *)
Definition proposed (nodes : list Node) (scenarioResults : list ODResult)
    (from to : string) (type : CandidateType) (priority : Z) : Prop :=
  match type with
  | hub_neighbor => priority = 10%Z /\ nodePair nodes hubRule from to
  | cross_rail => priority = 8%Z /\ nodePair nodes railRule from to
  | od_driven =>
      priority = 7%Z
      /\ exists od, od ∈ scenarioResults /\ reachable od = true
                    /\ odProposal od = Some (from, to)
  | express_hub => priority = 6%Z /\ nodePair nodes expressRule from to
  end.

(** The candidate was proposed by the strategy of its type, and its
    names and distance are those of the first rows of [nodes] with its
    endpoints as id. *)
Definition candidateSound (nodes : list Node) (scenarioResults : list ODResult)
    (c : Candidate) : Prop :=
  proposed nodes scenarioResults (c_from c) (c_to c) (c_type c) (priority c)
  /\ exists fromNode toNode,
       findNode nodes (c_from c) = Some fromNode
       /\ findNode nodes (c_to c) = Some toNode
       /\ c_fromName c = name fromNode /\ c_toName c = name toNode
       /\ c_distance c = nodeDistance fromNode toNode.

(** A value of [Math.random()] lies in [0, 1). *)
Definition unitDraw (draw : Q * Q) : Prop :=
  (0 <= fst draw < 1)%Q /\ (0 <= snd draw < 1)%Q.

(** Two pairs of the sample join the same unordered pair of ids. *)
Definition sameJourney (a b : ODPair) : Prop :=
  (od_source a = od_source b /\ od_target a = od_target b)
  \/ (od_source a = od_target b /\ od_target a = od_source b).

Definition sampleKey (p : ODPair) : string :=
  (od_source p ++ "_" ++ od_target p)%string.

(** The pair joins two rows of [nodes] that pass the filter of
    [generateODSample], at different positions of the filtered list, and
    carries their names. *)
Definition betweenMajor (nodes : list Node) (p : ODPair) : Prop :=
  exists i j a b,
    i <> j
    /\ List.filter isMajorNode nodes !! i = Some a
    /\ List.filter isMajorNode nodes !! j = Some b
    /\ a ∈ nodes /\ b ∈ nodes /\ isMajorNode a = true /\ isMajorNode b = true
    /\ p = mkODPair (node_id a) (node_id b) (name a) (name b).

(** The number of unordered pairs of major nodes. *)
Definition majorPairs (nodes : list Node) : nat :=
  let n := List.length (List.filter isMajorNode nodes) in (n * (n - 1) / 2)%nat.

Definition sampleOk (nodes : list Node) (sampleSize : nat) (st : SampleState) : Prop :=
  (forall p, p ∈ fst st -> sampleKey p ∈ snd st)
  /\ ForallOrdPairs (fun a b => ~ sameJourney a b) (fst st)
  /\ Forall (betweenMajor nodes) (fst st)
  /\ (List.length (fst st) <= Nat.min sampleSize (majorPairs nodes))%nat.

(** The pairs [(i, j)] of positions with [i < j < n]. *)
Fixpoint positionPairs (n : nat) : list (nat * nat) :=
  match n with
  | O => []
  | S m => positionPairs m ++ ((fun i => (i, m)) <$> seq 0 m)
  end.

(** A value of [Math.random()] that selects position [i] of [n]. *)
Definition drawOf (n i : nat) : Q := Z.of_nat i # Pos.of_nat n.

(** The key of the ids at two positions. *)
Definition pairKey (ids : list string) (p : nat * nat) : string :=
  (default "" (ids !! fst p) ++ "_" ++ default "" (ids !! snd p))%string.

Definition blocked (ids : list string) (used : gset string) (p : nat * nat) : Prop :=
  pairKey ids p ∈ used \/ pairKey ids (snd p, fst p) ∈ used.

(** The used key that blocks a blocked pair of positions. *)
Definition blocker (ids : list string) (used : gset string) (p : nat * nat) : string :=
  if decide (pairKey ids p ∈ used) then pairKey ids p else pairKey ids (snd p, fst p).

(** The ids of the major nodes are pairwise different and have no
    underscore. *)
Definition plainIds (nodes : list Node) : Prop :=
  NoDup (node_id <$> List.filter isMajorNode nodes)
  /\ Forall (fun s => underscoreFree s = true)
       (node_id <$> List.filter isMajorNode nodes).

(** The nodes and the previous modes that a label of the transfer search
    can carry. *)
Definition searchNodes (g : Graph) (source : string) : list string :=
  source :: flat_map (fun e => [e_source e; e_target e]) (g_edges g).

Definition searchModes (g : Graph) : list (option string) :=
  None :: ((fun e => Some (edgeModeOf (e_attrs e))) <$> g_edges g).

(** No two different nodes give the same state key
    [`${node}_${prevMode}`]. *)
Definition keysApart (g : Graph) (source : string) : bool :=
  forallb (fun n =>
    forallb (fun n' =>
      forallb (fun m =>
        forallb (fun m' =>
          if String.eqb (stateKey n m) (stateKey n' m') then String.eqb n n' else true)
          (searchModes g)) (searchModes g)) (searchNodes g source)) (searchNodes g source).

(** The state of the loop of [dijkstraMinTransfers], with the set
    [expanded] of the nodes whose neighbours have been explored: every
    neighbour of an expanded node has an entry in [best], every node with
    an entry in [best] is expanded or waits on the queue, the target is
    not expanded, and the visited keys are keys of expanded nodes. *)
Definition searchInvariant (g : Graph) (source target : string)
    (expanded : gset string) (queue : list QEntry) (visited : gset string)
    (best : gmap string (nat * Q)) : Prop :=
  is_Some (best !! source)
  /\ (forall v u attrs, v ∈ expanded -> (u, attrs) ∈ incident g v -> is_Some (best !! u))
  /\ (forall u, is_Some (best !! u) ->
        u ∈ expanded \/ exists e, e ∈ queue /\ q_node e = u)
  /\ (target ∉ expanded)
  /\ (forall key, key ∈ visited ->
        exists v m, v ∈ expanded /\ v ∈ searchNodes g source /\ m ∈ searchModes g
                    /\ key = stateKey v m)
  /\ Forall (fun e => q_node e ∈ searchNodes g source /\ q_prevMode e ∈ searchModes g)
       queue.

(** ** Further worked inputs *)

(** The distance along a grid of one kilometre. *)
Definition gridDistance (lat1 lon1 lat2 lon2 : Q) : Q :=
  ((if Qle_bool lat1 lat2 then lat2 - lat1 else lat1 - lat2)
   + (if Qle_bool lon1 lon2 then lon2 - lon1 else lon1 - lon2))%Q.

(** Two bus hubs three kilometres apart, and the link between them. *)
Definition hubNodes : list Node :=
  [mkNode "H1" 0 0 "bus" (Some "Hub one") None (Some "hub");
   mkNode "H2" 3 0 "bus" (Some "Hub two") None (Some "hub")].

Definition hubLink : Candidate :=
  mkCandidate "H1" "H2" (Some "Hub one") (Some "Hub two") hub_neighbor
    (gridDistance 0 0 3 0) 10.

(** Three metro stations, and two pairs of values of [Math.random()]
    that select the stations at positions 0 and 1, then 1 and 2. *)
Definition stationNodes : list Node :=
  [mkNode "M1" 0 0 "metro" (Some "One") None (Some "station");
   mkNode "M2" 0 1 "metro" (Some "Two") None (Some "station");
   mkNode "M3" 0 2 "metro" (Some "Three") None (Some "station")].

Definition sampleDraws : list (Q * Q) := [(0, 1 # 2); (1 # 2, 3 # 4)]%Q.

Definition stationSample : list ODPair :=
  [mkODPair "M1" "M2" (Some "One") (Some "Two");
   mkODPair "M2" "M3" (Some "Two") (Some "Three")].

(** * Properties *)

Set Default Proof Using "Type".

(** ** Strings, numbers, sorting *)

Lemma eqb_true (a b : string) : String.eqb a b = true <-> a = b.
Proof. apply String.eqb_eq. Qed.

Lemma eqb_false (a b : string) : String.eqb a b = false <-> a <> b.
Proof. apply String.eqb_neq. Qed.

Lemma connects_sym (a b : string) (e : GEdge) : connects a b e = connects b a e.
Proof. unfold connects. apply orb_comm. Qed.

Lemma connects_iff (a b : string) (e : GEdge) :
  connects a b e = true <->
  (e_source e = a /\ e_target e = b) \/ (e_source e = b /\ e_target e = a).
Proof.
  unfold connects.
  rewrite orb_true_iff, !andb_true_iff, !eqb_true. tauto.
Qed.

Lemma hasEdge_sym (g : Graph) (a b : string) : hasEdge g a b = hasEdge g b a.
Proof.
  unfold hasEdge. induction (g_edges g) as [|e es IH]; simpl; [done|].
  by rewrite IH, connects_sym.
Qed.

Lemma hasNode_true (g : Graph) (n : string) :
  hasNode g n = true <-> is_Some (g_nodes g !! n).
Proof.
  unfold hasNode. destruct (g_nodes g !! n) eqn:E; split; intros H; done.
Qed.

Lemma gtb_sub_zero (baseline value : num) :
  gtb (sub baseline value) zero = ltb value baseline.
Proof.
  destruct baseline as [x| | |], value as [y| | |]; simpl; try reflexivity.
  unfold Qltb. f_equal.
  destruct (Qle_bool (x - y) 0) eqn:E1, (Qle_bool x y) eqn:E2; try reflexivity.
  - apply Qle_bool_iff in E1.
    assert (x <= y)%Q as H by lra.
    apply Qle_bool_iff in H. congruence.
  - apply Qle_bool_iff in E2.
    assert (x - y <= 0)%Q as H by lra.
    apply Qle_bool_iff in H. congruence.
Qed.

Lemma keepsOrder_int (z : Z) : keepsOrder (Fin (inject_Z z)) = (z <=? 0)%Z.
Proof.
  simpl. unfold Qle_bool. simpl.
  rewrite Z.mul_1_r. reflexivity.
Qed.

Lemma insertSorted_perm {A} (compare : A -> A -> num) (x : A) (l : list A) :
  Permutation (insertSorted compare x l) (x :: l).
Proof.
  induction l as [|y l IH]; simpl; [done|].
  destruct (keepsOrder (compare x y)); [done|].
  rewrite IH. apply perm_swap.
Qed.

Lemma jsSort_perm {A} (compare : A -> A -> num) (l : list A) :
  Permutation (jsSort compare l) l.
Proof.
  induction l as [|x l IH]; simpl; [done|].
  rewrite insertSorted_perm. by constructor.
Qed.

Lemma jsSort_length {A} (compare : A -> A -> num) (l : list A) :
  List.length (jsSort compare l) = List.length l.
Proof. apply Permutation_length, jsSort_perm. Qed.

Lemma jsSort_elem {A} (compare : A -> A -> num) (l : list A) (x : A) :
  x ∈ jsSort compare l <-> x ∈ l.
Proof. by rewrite (jsSort_perm compare l). Qed.

(** ** The store: a loop that only touches one object *)

Lemma forEach_pure {A} (f : A -> M unit) (step : Graph -> A -> Graph)
    (failed : ref) (Inv : Graph -> list A -> Prop) :
  (forall x xs G (h : gmap positive Graph),
      Inv G (x :: xs) -> h !! failed = Some G ->
      f x h = Some (tt, <[failed := step G x]> h) /\ Inv (step G x) xs) ->
  forall xs G (h : gmap positive Graph),
    Inv G xs -> h !! failed = Some G ->
    forEach xs f h = Some (tt, <[failed := fold_left step xs G]> h).
Proof.
  intros Hstep xs. induction xs as [|x xs IH]; intros G h HInv Hh; simpl.
  - unfold ret. by rewrite insert_id.
  - destruct (Hstep x xs G h HInv Hh) as [Hfx HInv'].
    unfold bind. rewrite Hfx.
    rewrite (IH (step G x) _ HInv') by apply lookup_insert_eq.
    by rewrite insert_insert_eq.
Qed.

Lemma removeNode_lookup_ne (G : Graph) (n n' : string) :
  n <> n' -> g_nodes (removeNode G n) !! n' = g_nodes G !! n'.
Proof. intros. simpl. by rewrite lookup_delete_ne. Qed.

Lemma layerNodes_nil (G : Graph) : layerNodes G [] = [].
Proof.
  unfold layerNodes. induction (map_to_list (g_nodes G)); simpl; done.
Qed.

Lemma layerNodes_NoDup (G : Graph) (failureTargets : list string) :
  NoDup (layerNodes G failureTargets).
Proof.
  unfold layerNodes.
  pose proof (NoDup_fst_map_to_list (g_nodes G)) as Hnd.
  induction (map_to_list (g_nodes G)) as [|kv l IH]; simpl; [constructor|].
  inversion Hnd as [|? ? Hnotin Hnd']; subst.
  destruct (existsb _ failureTargets); simpl; [|by apply IH].
  constructor; [|by apply IH].
  intros Hin. apply Hnotin.
  apply list_elem_of_fmap in Hin as [kv' [-> Hin]].
  apply list_elem_of_fmap. exists kv'. split; [done|].
  apply list_elem_of_In, List.filter_In in Hin as [Hin _].
  by apply list_elem_of_In.
Qed.

Lemma layerNodes_present (G : Graph) (failureTargets : list string) (n : string) :
  n ∈ layerNodes G failureTargets -> hasNode G n = true.
Proof.
  unfold layerNodes. intros Hin.
  apply list_elem_of_fmap in Hin as [[k v] [-> Hin]].
  apply list_elem_of_In, List.filter_In in Hin as [Hin _].
  apply list_elem_of_In, elem_of_map_to_list in Hin.
  apply hasNode_true. simpl. by eexists.
Qed.

Lemma nodeLoop_run (failed : ref) (targets : list string) (G : Graph)
    (h : gmap positive Graph) :
  h !! failed = Some G ->
  forEach targets (fun nodeId =>
    present <<- query failed (fun G => hasNode G nodeId) ;;
    if present then update failed (fun G => dropNode G nodeId) else ret tt) h
  = Some (tt, <[failed := fold_left nodeStep targets G]> h).
Proof.
  apply (forEach_pure _ nodeStep failed (fun _ _ => True)); [|done].
  intros x xs G' h' _ Hh'. split; [|done].
  unfold bind, query, nodeStep. rewrite Hh'.
  destruct (hasNode G' x) eqn:E.
  - unfold update, dropNode. by rewrite Hh', E.
  - unfold ret. by rewrite insert_id.
Qed.

Lemma edgeLoop_run (failed : ref) (targets : list string) (G : Graph)
    (h : gmap positive Graph) :
  h !! failed = Some G ->
  forEach targets (fun edgeSpec =>
    let '(from, to) := edgeSpecEndpoints edgeSpec in
    present <<- query failed (fun G => hasEdge G from to) ;;
    if present then update failed (fun G => dropEdge G from to) else ret tt) h
  = Some (tt, <[failed := fold_left edgeStep targets G]> h).
Proof.
  apply (forEach_pure _ edgeStep failed (fun _ _ => True)); [|done].
  intros x xs G' h' _ Hh'. split; [|done].
  unfold edgeStep. destruct (edgeSpecEndpoints x) as [from to].
  unfold bind, query. rewrite Hh'.
  destruct (hasEdge G' from to) eqn:E.
  - unfold update, dropEdge. by rewrite Hh', E.
  - unfold ret. by rewrite insert_id.
Qed.

Lemma layerLoop_run (failed : ref) (toRemove : list string) (G : Graph)
    (h : gmap positive Graph) :
  NoDup toRemove -> (forall n, n ∈ toRemove -> hasNode G n = true) ->
  h !! failed = Some G ->
  forEach toRemove (fun node => update failed (fun G => dropNode G node)) h
  = Some (tt, <[failed := fold_left removeNode toRemove G]> h).
Proof.
  intros Hnd Hall.
  apply (forEach_pure _ removeNode failed
           (fun G xs => NoDup xs /\ forall n, n ∈ xs -> hasNode G n = true));
    [|done].
  clear. intros x xs G h [Hnd Hall] Hh.
  inversion Hnd as [|? ? Hnotin Hnd']; subst.
  split.
  - unfold update, dropNode. rewrite Hh, Hall; [done|]. by left.
  - split; [done|]. intros n Hn.
    assert (x <> n) as Hne by (intros ->; done).
    apply hasNode_true. rewrite removeNode_lookup_ne by done.
    apply hasNode_true, Hall. by right.
Qed.

Lemma applyFailure_run (h : gmap positive Graph) (graph : ref) (G : Graph)
    (failureType : FailureKind) (failureTargets : list string) :
  h !! graph = Some G ->
  applyFailure graph failureType failureTargets h =
    Some (fresh (dom h),
          <[fresh (dom h) := failedValue G failureType failureTargets]> h).
Proof.
  intros Hh. unfold applyFailure, bind at 1, copy. rewrite Hh.
  set (failed := fresh (dom h)). set (h1 := <[failed := G]> h).
  assert (h1 !! failed = Some G) as Hh1 by apply lookup_insert_eq.
  destruct failureTargets as [|t ts]; cbn [List.length Nat.eqb].
  { unfold ret. f_equal. f_equal. f_equal.
    destruct failureType; [done|done|].
    unfold failedValue. by rewrite layerNodes_nil. }
  set (targets := t :: ts).
  destruct failureType; unfold bind at 1.
  - rewrite (nodeLoop_run failed targets G h1 Hh1).
    unfold ret, h1. by rewrite insert_insert_eq.
  - rewrite (edgeLoop_run failed targets G h1 Hh1).
    unfold ret, h1. by rewrite insert_insert_eq.
  - unfold query at 1. rewrite Hh1. fold (layerNodes G targets).
    unfold bind at 1.
    rewrite (layerLoop_run failed _ G h1 (layerNodes_NoDup G targets)
               (layerNodes_present G targets) Hh1).
    unfold ret, h1. by rewrite insert_insert_eq.
Qed.

(** ** applyFailure: the input is not mutated *)

(** C2.  For every store, every graph object in it, every failure kind
    and every target list, [applyFailure] returns (it does not throw) a
    reference to a new object that did not exist before the call and is
    different from the input; the input object holds the same value
    after the call, so every query on it answers as before; no other
    object of the store changes; a later mutation of the returned copy
    leaves the input as it was; and with an empty target list the copy
    has the value of the input. *)
Theorem applyFailure_never_mutates (h : gmap positive Graph) (graph : ref)
    (G : Graph) (failureType : FailureKind) (failureTargets : list string) :
  h !! graph = Some G ->
  exists (failed : ref) (h' : gmap positive Graph),
    applyFailure graph failureType failureTargets h = Some (failed, h')
    /\ h' !! graph = Some G
    /\ (forall A (q : Graph -> A),
          fst <$> query graph q h' = fst <$> query graph q h)
    /\ failed <> graph
    /\ h !! failed = None
    /\ h' !! failed = Some (failedValue G failureType failureTargets)
    /\ (forall l, l <> failed -> h' !! l = h !! l)
    /\ (forall f (h'' : gmap positive Graph),
          update failed f h' = Some (tt, h'') -> h'' !! graph = Some G)
    /\ failedValue G failureType [] = G.
Proof.
  intros Hh.
  assert (h !! fresh (dom h) = None) as Hfresh
    by apply not_elem_of_dom, is_fresh.
  assert (fresh (dom h) <> graph) as Hne by (intros Heq; congruence).
  exists (fresh (dom h)), (<[fresh (dom h) := failedValue G failureType failureTargets]> h).
  assert (<[fresh (dom h) := failedValue G failureType failureTargets]> h !! graph
          = Some G) as Hkept by (by rewrite lookup_insert_ne).
  split; [by apply applyFailure_run|].
  split; [done|].
  split; [intros A q; unfold query; by rewrite Hkept, Hh|].
  split; [done|].
  split; [done|].
  split; [apply lookup_insert_eq|].
  split; [intros l Hl; by rewrite lookup_insert_ne|].
  split.
  - intros f h''. unfold update. rewrite lookup_insert_eq.
    destruct (f _); [|done]. intros [= <-].
    by rewrite lookup_insert_ne.
  - destruct failureType; [done|done|].
    unfold failedValue. by rewrite layerNodes_nil.
Qed.

(** ** applyFailure: edge targets *)

Lemma filter_all {A} (p : A -> bool) (l : list A) :
  existsb p l = false -> List.filter (fun x => negb (p x)) l = l.
Proof.
  induction l as [|x l IH]; simpl; [done|].
  intros [Hx Hl]%orb_false_iff. rewrite Hx. simpl. by rewrite IH.
Qed.

Lemma filter_twice {A} (p q : A -> bool) (l : list A) :
  List.filter q (List.filter p l) = List.filter (fun x => p x && q x) l.
Proof.
  induction l as [|x l IH]; simpl; [done|].
  destruct (p x); simpl; [|done]. destruct (q x); by rewrite IH.
Qed.

Lemma edgeStep_edges (G : Graph) (edgeSpec : string) :
  g_nodes (edgeStep G edgeSpec) = g_nodes G
  /\ g_edges (edgeStep G edgeSpec)
     = List.filter (fun e => negb (namedBy edgeSpec e)) (g_edges G).
Proof.
  unfold edgeStep, namedBy. destruct (edgeSpecEndpoints edgeSpec) as [from to].
  simpl. destruct (hasEdge G from to) eqn:E; [done|].
  split; [done|]. symmetry. by apply filter_all.
Qed.

Lemma edgeLoop_edges (targets : list string) (G : Graph) :
  g_nodes (fold_left edgeStep targets G) = g_nodes G
  /\ g_edges (fold_left edgeStep targets G)
     = List.filter (fun e => negb (existsb (fun t => namedBy t e) targets)) (g_edges G).
Proof.
  revert G. induction targets as [|t ts IH]; intros G; simpl.
  - split; [done|]. induction (g_edges G) as [|e es IHes]; simpl; [done|].
    by rewrite <- IHes.
  - destruct (IH (edgeStep G t)) as [Hn He].
    destruct (edgeStep_edges G t) as [Hn' He'].
    split; [congruence|].
    rewrite He, He', filter_twice.
    apply List.filter_ext. intros e. by rewrite negb_orb.
Qed.

Lemma edgeSpecEndpoints_tokens (edgeSpec : string) :
  edgeSpecEndpoints edgeSpec
  = (List.nth 0 (split "_" edgeSpec) "undefined",
     List.nth 1 (split "_" edgeSpec) "undefined").
Proof.
  unfold edgeSpecEndpoints.
  destruct (split "_" edgeSpec) as [|from [|to rest]]; reflexivity.
Qed.

(** C10.  With kind 'edge', [applyFailure] returns a copy with the nodes
    of the input and with exactly those edges of the input that no
    target names, where a target names the edge whose two endpoints are
    the first and the second token of the target split at every
    underscore (a missing second token reads as the string "undefined").
    So an edge whose two node identifiers are not the first two tokens
    of any target is still in the copy. *)
Theorem applyFailure_edge_first_two_tokens (h : gmap positive Graph) (graph : ref)
    (G : Graph) (failureTargets : list string) :
  h !! graph = Some G ->
  exists (failed : ref) (h' : gmap positive Graph) (G' : Graph),
    applyFailure graph EdgeFailure failureTargets h = Some (failed, h')
    /\ h' !! failed = Some G'
    /\ g_nodes G' = g_nodes G
    /\ g_edges G'
       = List.filter (fun e => negb (existsb (fun t => namedBy t e) failureTargets))
                     (g_edges G)
    /\ (forall t e, namedBy t e = true <->
          let from := List.nth 0 (split "_" t) "undefined" in
          let to := List.nth 1 (split "_" t) "undefined" in
          (e_source e = from /\ e_target e = to)
          \/ (e_source e = to /\ e_target e = from))
    /\ (forall e, e ∈ g_edges G ->
          (forall t, t ∈ failureTargets ->
             let from := List.nth 0 (split "_" t) "undefined" in
             let to := List.nth 1 (split "_" t) "undefined" in
             ~ ((e_source e = from /\ e_target e = to)
                \/ (e_source e = to /\ e_target e = from))) ->
          e ∈ g_edges G').
Proof.
  intros Hh.
  assert (forall t e, namedBy t e = true <->
          let from := List.nth 0 (split "_" t) "undefined" in
          let to := List.nth 1 (split "_" t) "undefined" in
          (e_source e = from /\ e_target e = to)
          \/ (e_source e = to /\ e_target e = from)) as Hnamed.
  { intros t e. unfold namedBy. rewrite edgeSpecEndpoints_tokens. simpl.
    apply connects_iff. }
  destruct (edgeLoop_edges failureTargets G) as [Hn He].
  exists (fresh (dom h)), (<[fresh (dom h) := failedValue G EdgeFailure failureTargets]> h),
         (failedValue G EdgeFailure failureTargets).
  split; [by apply applyFailure_run|].
  split; [apply lookup_insert_eq|].
  split; [done|].
  split; [done|].
  split; [done|].
  intros e Hin Hnone. simpl. rewrite He.
  apply list_elem_of_In, List.filter_In. split; [by apply list_elem_of_In|].
  apply negb_true_iff, not_true_iff_false. intros Hex.
  apply existsb_exists in Hex as [t [Ht Hhit]].
  apply (Hnone t); [by apply list_elem_of_In|]. by apply Hnamed.
Qed.

(** ** buildGraph: the edges of the built graph *)

Lemma addNodes_edges (nodes : list Node) (g g' : Graph) :
  addNodes g nodes = Some g' -> g_edges g' = g_edges g.
Proof.
  revert g. induction nodes as [|n ns IH]; intros g; simpl.
  - by intros [= ->].
  - unfold addNode. destruct (hasNode g (node_id n)); [done|].
    intros H. by rewrite (IH _ H).
Qed.

Lemma insertRow_edges (objective : Objective) (coefficients : Coefficients)
    (preferMetro : bool) (g : Graph) (row : EdgeRow) :
  g_edges (insertRow objective coefficients preferMetro g row) = g_edges g
  \/ g_edges (insertRow objective coefficients preferMetro g row)
     = g_edges g ++ [mkGEdge (from_id row) (to_id row)
                       (edgeAttributes objective coefficients preferMetro row)].
Proof.
  unfold insertRow, addEdge.
  destruct (negb (hasNode g (from_id row)) || negb (hasNode g (to_id row)));
    [by left|].
  destruct (hasEdge g (from_id row) (to_id row)); simpl; [by left|by right].
Qed.

Lemma insertRows_edges (objective : Objective) (coefficients : Coefficients)
    (preferMetro : bool) (rows : list EdgeRow) (g : Graph) (ed : GEdge) :
  ed ∈ g_edges (fold_left (insertRow objective coefficients preferMetro) rows g) ->
  ed ∈ g_edges g
  \/ exists row, row ∈ rows
       /\ ed = mkGEdge (from_id row) (to_id row)
                 (edgeAttributes objective coefficients preferMetro row).
Proof.
  revert g. induction rows as [|r rs IH]; intros g; simpl; [by left|].
  intros Hin. destruct (IH _ Hin) as [Hold|[row [Hrow Hed]]].
  - destruct (insertRow_edges objective coefficients preferMetro g r) as [E|E];
      rewrite E in Hold.
    + by left.
    + apply elem_of_app in Hold as [Hold|Hnew]; [by left|].
      apply list_elem_of_singleton in Hnew. right. exists r. split; [by left|done].
  - right. exists row. split; [by right|done].
Qed.

Lemma buildGraph_edges (nodes : list Node) (edges : list EdgeRow)
    (objective : Objective) (timeOfDayCoefficients : option Coefficients)
    (routeContext : option RouteContext) (g : Graph) (ed : GEdge) :
  buildGraph nodes edges objective timeOfDayCoefficients routeContext = Some g ->
  ed ∈ g_edges g ->
  exists row, row ∈ edges
    /\ ed = mkGEdge (from_id row) (to_id row)
              (edgeAttributes objective (default defaultCoefficients timeOfDayCoefficients)
                              (preferMetroOf routeContext) row).
Proof.
  unfold buildGraph. destruct (addNodes emptyGraph nodes) as [g0|] eqn:E; [|done].
  intros [= <-] Hin. apply insertRows_edges in Hin as [Hin|Hin]; [|done].
  rewrite (addNodes_edges _ _ _ E) in Hin. simpl in Hin. by apply elem_of_nil in Hin.
Qed.

(** ** calculateMetroFare and the base cost *)

Lemma Qle_bool_false (x y : Q) : Qle_bool x y = false -> (y < x)%Q.
Proof.
  intros H. apply Qnot_le_lt. intros Hle. apply Qle_bool_iff in Hle. congruence.
Qed.

Lemma calculateMetroFare_band (d : Q) : fareBand d (calculateMetroFare d).
Proof.
  clear bidirectional euclideanDistance.
  unfold calculateMetroFare, fareBand.
  repeat match goal with
  | |- context [Qle_bool d ?k] =>
      let E := fresh "E" in
      destruct (Qle_bool d k) eqn:E;
      [apply Qle_bool_iff in E | apply Qle_bool_false in E]
  end; tauto.
Qed.

(** C9.  Every edge of a built graph comes from a row of the edge list
    and stores a base cost.  When the mode of the edge
    ([mode || edge_type || 'unknown'] of the row) is 'metro', the base
    cost is the fare of the band of the row's distance: at most 2 gives
    10, at most 4 gives 20, at most 6 gives 30, at most 9 gives 40, at
    most 12 gives 50, at most 15 gives 60, at most 18 gives 70, at most
    21 gives 80, at most 24 gives 90, anything greater gives 100.  For
    any other mode it is the cost the row supplies, 0 when absent. *)
Theorem buildGraph_base_cost (nodes : list Node) (edges : list EdgeRow)
    (objective : Objective) (timeOfDayCoefficients : option Coefficients)
    (routeContext : option RouteContext) (g : Graph) (ed : GEdge) :
  buildGraph nodes edges objective timeOfDayCoefficients routeContext = Some g ->
  ed ∈ g_edges g ->
  exists (row : EdgeRow) (fare : Q),
    row ∈ edges
    /\ e_source ed = from_id row /\ e_target ed = to_id row
    /\ transportMode (e_attrs ed)
       = optStrOr (row_mode row) (optStrOr (edge_type row) "unknown")
    /\ distance (e_attrs ed) = distance_km row
    /\ originalCost (e_attrs ed) = cost_rs row
    /\ baseCost (e_attrs ed) = Some fare
    /\ (transportMode (e_attrs ed) = "metro" -> fareBand (distance_km row) fare)
    /\ (transportMode (e_attrs ed) <> "metro" ->
        fare = match cost_rs row with Some c => c | None => 0%Q end).
Proof.
  intros Hbuild Hin.
  destruct (buildGraph_edges _ _ _ _ _ _ _ Hbuild Hin) as [row [Hrow ->]].
  exists row, (baseCostOf row). simpl.
  repeat (split; [done|]).
  unfold baseCostOf, transportModeOf. split.
  - intros ->. simpl. apply calculateMetroFare_band.
  - intros Hne. apply eqb_false in Hne. by rewrite Hne.
Qed.

(** ** buildGraph: the Metro preference *)

(** C5, as amended.  With a route context whose source and target
    identifiers both end in "_Metro", every edge of the built graph comes
    from a row of the edge list, and its adjusted cost is the cost after
    the time-of-day rule (the base cost for 'metro' and 'mmts', the base
    cost times [costMultiplier] otherwise) multiplied by 1.4 exactly when
    its mode is not 'metro' and its row is not tagged 'inter'.  So 'mmts'
    edges that are not tagged 'inter' are penalised like bus edges;
    'metro' edges and edges tagged 'inter' never are. *)
Theorem buildGraph_metro_preference (nodes : list Node) (edges : list EdgeRow)
    (objective : Objective) (timeOfDayCoefficients : option Coefficients)
    (source target : string) (g : Graph) (ed : GEdge) :
  endsWith source "_Metro" = true ->
  endsWith target "_Metro" = true ->
  buildGraph nodes edges objective timeOfDayCoefficients
    (Some (mkRouteContext (Some source) (Some target))) = Some g ->
  ed ∈ g_edges g ->
  exists (row : EdgeRow) (base unpenalised : Q),
    row ∈ edges
    /\ e_source ed = from_id row /\ e_target ed = to_id row
    /\ transportMode (e_attrs ed)
       = optStrOr (row_mode row) (optStrOr (edge_type row) "unknown")
    /\ intra_or_inter (e_attrs ed) = row_intra_or_inter row
    /\ baseCost (e_attrs ed) = Some base
    /\ unpenalised
       = (if isRail (transportMode (e_attrs ed)) then base
          else base * costMultiplier (default defaultCoefficients timeOfDayCoefficients))%Q
    /\ (transportMode (e_attrs ed) <> "metro" ->
        intra_or_inter (e_attrs ed) <> Some "inter" ->
        cost (e_attrs ed) = (unpenalised * (14 # 10))%Q)
    /\ (transportMode (e_attrs ed) = "metro"
        \/ intra_or_inter (e_attrs ed) = Some "inter" ->
        cost (e_attrs ed) = unpenalised).
Proof.
  intros Hs Ht Hbuild Hin.
  destruct (buildGraph_edges _ _ _ _ _ _ _ Hbuild Hin) as [row [Hrow ->]].
  exists row, (baseCostOf row),
    (surgedCostOf (default defaultCoefficients timeOfDayCoefficients) row).
  simpl. rewrite Hs, Ht. simpl.
  repeat (split; [done|]).
  unfold adjustedCostOf, isInter. simpl. split.
  - intros Hmode Htag. apply eqb_false in Hmode. rewrite Hmode. simpl.
    destruct (row_intra_or_inter row) as [tag|]; [|done].
    assert (tag <> "inter") as Hne by congruence.
    apply eqb_false in Hne. by rewrite Hne.
  - intros [Hmode|Htag].
    + apply eqb_true in Hmode. by rewrite Hmode.
    + rewrite Htag. simpl. by rewrite andb_false_r.
Qed.

(** ** computeMetrics *)

Lemma metricsStep_eq (graph : Graph) (objective : Objective)
    (acc : MetricsAcc) (od : ODPair) :
  metricsStep graph objective acc od
  = let r := resultOf graph objective od in
    if infiniteTime r then
      mkMetricsAcc (m_results acc ++ [r]) (m_totalTime acc) (m_totalCost acc)
        (m_totalTransfers acc) (S (m_disconnected acc)) (m_validPairs acc)
    else
      mkMetricsAcc (m_results acc ++ [r])
        (add (m_totalTime acc) (p_time (res_path r)))
        (add (m_totalCost acc) (p_cost (res_path r)))
        (add (m_totalTransfers acc) (p_transfers (res_path r)))
        (m_disconnected acc) (S (m_validPairs acc)).
Proof.
  unfold metricsStep, infiniteTime, resultOf. simpl.
  by destruct (isInfinity _).
Qed.

Lemma metricsStep_fold (graph : Graph) (objective : Objective)
    (odPairs : list ODPair) (acc : MetricsAcc) :
  let rs := resultOf graph objective <$> odPairs in
  fold_left (metricsStep graph objective) odPairs acc
  = {| m_results := m_results acc ++ rs;
       m_totalTime := sumFinite p_time rs (m_totalTime acc);
       m_totalCost := sumFinite p_cost rs (m_totalCost acc);
       m_totalTransfers := sumFinite p_transfers rs (m_totalTransfers acc);
       m_disconnected := m_disconnected acc + List.length (List.filter infiniteTime rs);
       m_validPairs :=
         m_validPairs acc
         + List.length (List.filter (fun r => negb (infiniteTime r)) rs) |}.
Proof.
  revert acc. induction odPairs as [|od ods IH]; intros acc.
  - destruct acc; simpl. rewrite app_nil_r, !Nat.add_0_r. reflexivity.
  - cbn [fold_left fmap list_fmap]. rewrite IH, metricsStep_eq. clear IH.
    cbn zeta. unfold sumFinite. cbn [fold_left List.filter].
    destruct (infiniteTime (resultOf graph objective od)) eqn:E;
      cbn [m_results m_totalTime m_totalCost m_totalTransfers m_disconnected
           m_validPairs negb List.length];
      rewrite <- app_assoc; f_equal; lia.
Qed.

Lemma filter_split_length {A} (p : A -> bool) (l : list A) :
  (List.length (List.filter (fun x => negb (p x)) l) + List.length (List.filter p l)
   = List.length l)%nat.
Proof.
  induction l as [|x l IH]; simpl; [done|].
  destruct (p x); simpl; lia.
Qed.

(** C3.  For every graph, list of OD pairs and objective, the bundle of
    [computeMetrics] has one result per pair, in the order of the pairs;
    [validPairs + disconnected = totalPairs]; [disconnected] counts
    exactly the results whose time is infinite and [validPairs] the
    others; each average is the sum of the field over the results whose
    time is not infinite, divided by [validPairs], when [validPairs > 0];
    and the three averages are 0 when [validPairs = 0]. *)
Theorem computeMetrics_invariants (graph : Graph) (odPairs : list ODPair)
    (objective : Objective) :
  let m := computeMetrics graph odPairs objective in
  (validPairs m + disconnected m = totalPairs m)%nat
  /\ totalPairs m = List.length odPairs
  /\ results m = resultOf graph objective <$> odPairs
  /\ disconnected m = List.length (List.filter infiniteTime (results m))
  /\ validPairs m
     = List.length (List.filter (fun r => negb (infiniteTime r)) (results m))
  /\ (forall r, r ∈ results m -> reachable r = negb (infiniteTime r))
  /\ ((0 < validPairs m)%nat ->
      avgTime m = divCount (sumFinite p_time (results m) zero) (validPairs m)
      /\ avgCost m = divCount (sumFinite p_cost (results m) zero) (validPairs m)
      /\ avgTransfers m
         = divCount (sumFinite p_transfers (results m) zero) (validPairs m))
  /\ (validPairs m = 0%nat ->
      avgTime m = zero /\ avgCost m = zero /\ avgTransfers m = zero).
Proof.
  unfold computeMetrics. rewrite metricsStep_fold. simpl.
  set (rs := resultOf graph objective <$> odPairs).
  split.
  { rewrite filter_split_length. unfold rs. by rewrite length_fmap. }
  repeat (split; [done|]).
  split.
  { intros r Hr. unfold rs in Hr. apply list_elem_of_fmap in Hr as [od [-> _]].
    reflexivity. }
  unfold average. split.
  - intros Hpos. apply Nat.ltb_lt in Hpos. by rewrite Hpos.
  - intros ->. done.
Qed.

(** ** greedyRecommendation *)

Lemma assign_candidate (coefficients : Coefficients) (c : Candidate) :
  a_candidate (assign coefficients c) = c.
Proof. unfold assign. by destruct (c_type c). Qed.

Section Greedy.

Variable odPairs : list ODPair.
Variable objective : Objective.
Variable coefficients : Coefficients.
Variable baselineValue : num.

Local Abbreviation loop := (greedyLoop odPairs objective coefficients baselineValue).

Lemma evaluateRound_none (g : Graph) (pool : list Candidate) :
  (forall c m v, c ∈ pool ->
     testValue g odPairs objective coefficients c = Some (m, v) ->
     ltb v baselineValue = false) ->
  evaluateRound g odPairs objective coefficients baselineValue pool = initRound.
Proof.
  intros Hnone. unfold evaluateRound.
  assert (forall round, bestImprovement round = zero ->
            fold_left (evaluateCandidate g odPairs objective coefficients
                         baselineValue) pool round = round) as Hgen;
    [|by apply Hgen].
  induction pool as [|c cs IH]; intros round Hz; simpl; [done|].
  assert (evaluateCandidate g odPairs objective coefficients baselineValue round c
          = round) as ->.
  { unfold evaluateCandidate.
    destruct (testValue g odPairs objective coefficients c) as [[m v]|] eqn:E; [|done].
    rewrite Hz, gtb_sub_zero, (Hnone c m v); [done|by left|done]. }
  apply IH; [|done]. intros c' m v Hin. apply Hnone. by right.
Qed.

Lemma evaluateRound_best (g : Graph) (pool : list Candidate) (best : Assigned) :
  bestCandidate (evaluateRound g odPairs objective coefficients baselineValue pool)
    = Some best ->
  a_candidate best ∈ pool.
Proof.
  unfold evaluateRound.
  assert (forall round,
    (forall b, bestCandidate round = Some b -> a_candidate b ∈ pool) ->
    forall rest, (forall c, c ∈ rest -> c ∈ pool) ->
    bestCandidate (fold_left (evaluateCandidate g odPairs objective coefficients
                                baselineValue) rest round) = Some best ->
    a_candidate best ∈ pool) as Hgen.
  { intros round Hround rest. revert round Hround.
    induction rest as [|c cs IH]; intros round Hround Hsub; simpl.
    - apply Hround.
    - apply IH; [|intros c' Hc'; apply Hsub; by right].
      intros b. unfold evaluateCandidate.
      destruct (testValue g odPairs objective coefficients c) as [[m v]|];
        [|apply Hround].
      destruct (gtb _ _); [|apply Hround].
      simpl. intros [= <-]. rewrite assign_candidate. apply Hsub. by left. }
  apply (Hgen initRound); [done|done].
Qed.

Lemma greedyLoop_stops (rounds : nat) (st : GreedyState) :
  noneImproves odPairs objective coefficients baselineValue st ->
  loop rounds st = st.
Proof.
  intros Hnone. unfold loop. destruct rounds as [|rounds]; simpl; [done|].
  destruct (remainingCandidates st) as [|c cs] eqn:E; [done|].
  rewrite evaluateRound_none; [done|].
  intros c' m v Hin. apply Hnone. by rewrite E.
Qed.

Lemma greedyLoop_length (rounds : nat) (st : GreedyState) :
  (List.length (selectedLinks (loop rounds st))
   <= List.length (selectedLinks st) + rounds)%nat.
Proof.
  unfold loop. revert st. induction rounds as [|rounds IH]; intros st; simpl; [lia|].
  destruct (remainingCandidates st) as [|c cs]; [lia|].
  destruct (bestCandidate _) as [best|]; [|lia].
  destruct (leb _ zero); [lia|].
  destruct (addEdge _ _ _ _).
  - etrans; [apply IH|]. simpl. rewrite length_app. simpl. lia.
  - etrans; [apply IH|]. lia.
Qed.

Lemma removeSelected_sub (best : Assigned) (pool : list Candidate) (c : Candidate) :
  c ∈ removeSelected best pool ->
  c ∈ pool
  /\ ~ (c_from c = c_from (a_candidate best) /\ c_to c = c_to (a_candidate best)).
Proof.
  unfold removeSelected. intros Hin.
  apply list_elem_of_In, List.filter_In in Hin as [Hin Hkeep].
  split; [by apply list_elem_of_In|].
  intros [Hf Ht]. apply negb_true_iff, andb_false_iff in Hkeep.
  destruct Hkeep as [H|H]; apply eqb_false in H; done.
Qed.

Lemma greedyLoop_pool (initial : list Candidate) (rounds : nat) (st : GreedyState) :
  poolInvariant initial st -> poolInvariant initial (loop rounds st).
Proof.
  unfold loop. revert st. induction rounds as [|rounds IH]; intros st Hinv; simpl; [done|].
  destruct (remainingCandidates st) as [|c0 cs] eqn:Epool; [done|].
  destruct (bestCandidate _) as [best|] eqn:Ebest; [|done].
  destruct (leb _ zero); [done|].
  destruct (addEdge _ _ _ _); [|by apply IH].
  apply IH. destruct Hinv as (Hsel & Hfrom & Hpool).
  rewrite Epool in Hsel, Hpool.
  apply evaluateRound_best in Ebest.
  unfold poolInvariant. cbn [selectedLinks remainingCandidates workingGraph].
  split; [|split].
  - intros r c Hr Hc.
    apply removeSelected_sub in Hc as [Hc Hdiff].
    apply elem_of_app in Hr as [Hr|Hr]; [by apply Hsel|].
    apply list_elem_of_singleton in Hr as ->. exact Hdiff.
  - intros r Hr. apply elem_of_app in Hr as [Hr|Hr]; [by apply Hfrom|].
    apply list_elem_of_singleton in Hr as ->. simpl. by apply Hpool.
  - intros c Hc.
    apply removeSelected_sub in Hc as [Hc _]. by apply Hpool.
Qed.

End Greedy.

(** C4.  [greedyRecommendation] returns the links selected by its loop,
    at most [budget] of them.  The loop, in whatever state and with
    whatever number of rounds left, stops at once and leaves the state
    as it is when no candidate of the pool whose insertion succeeds gives
    an objective value strictly below the reference value.  At the end no
    selected link is still in the pool, and every selected link was a
    candidate of the input. *)
Theorem greedyRecommendation_budget (failedGraph : Graph) (candidates : list Candidate)
    (odPairs : list ODPair) (budget : nat) (objective : Objective)
    (timeOfDayCoefficients : option Coefficients) :
  let coefficients := default defaultCoefficients timeOfDayCoefficients in
  let baselineValue :=
    objectiveValue objective (computeMetrics failedGraph odPairs objective) in
  let loop := greedyLoop odPairs objective coefficients baselineValue in
  let final := loop budget (mkGreedyState [] failedGraph candidates) in
  let output := greedyRecommendation failedGraph candidates odPairs budget objective
                  timeOfDayCoefficients in
  gr_selectedLinks output = selectedLinks final
  /\ finalGraph output = workingGraph final
  /\ (List.length (gr_selectedLinks output) <= budget)%nat
  /\ (forall rounds st,
        noneImproves odPairs objective coefficients baselineValue st ->
        loop rounds st = st)
  /\ (forall r c, r ∈ selectedLinks final -> c ∈ remainingCandidates final ->
        ~ sameLink r c)
  /\ (forall r, r ∈ selectedLinks final -> a_candidate (rec_link r) ∈ candidates).
Proof.
  intros coefficients baselineValue loop final output.
  split; [done|]. split; [done|]. split.
  { apply (greedyLoop_length odPairs objective coefficients baselineValue budget
             (mkGreedyState [] failedGraph candidates)). }
  split.
  { intros rounds st. apply greedyLoop_stops. }
  assert (poolInvariant candidates final) as (Hsel & Hfrom & _).
  { apply greedyLoop_pool. unfold poolInvariant. simpl.
    split; [|split]; [intros r c Hr; by apply elem_of_nil in Hr
                     |intros r Hr; by apply elem_of_nil in Hr|done]. }
  split; [exact Hsel|exact Hfrom].
Qed.

(** ** generateCandidates *)

Lemma samePair_sym (a b : Candidate) : samePair a b -> samePair b a.
Proof. unfold samePair. intros [[-> ->]|[-> ->]]; tauto. Qed.

Lemma ordPairs_snoc {A} (R : A -> A -> Prop) (l : list A) (x : A) :
  ForallOrdPairs R l -> Forall (fun a => R a x) l -> ForallOrdPairs R (l ++ [x]).
Proof.
  induction 1 as [|a l Ha Hl IH]; intros Hx; simpl.
  - constructor; constructor.
  - inversion Hx; subst. constructor; [|by apply IH].
    apply Forall_app. split; [done|]. by constructor.
Qed.

Lemma ordPairs_take {A} (R : A -> A -> Prop) (n : nat) (l : list A) :
  ForallOrdPairs R l -> ForallOrdPairs R (take n l).
Proof.
  intros H. revert n. induction H as [|a l Ha Hl IH]; intros [|n]; simpl;
    try constructor; [|apply IH].
  apply Forall_forall. intros x Hx. rewrite Forall_forall in Ha. apply Ha.
  eapply subseteq_take, Hx.
Qed.

Lemma ordPairs_lookup {A} (R : A -> A -> Prop) (l : list A) :
  ForallOrdPairs R l ->
  forall i j a b, (i < j)%nat -> l !! i = Some a -> l !! j = Some b -> R a b.
Proof.
  induction 1 as [|x l Hx Hl IH]; intros i j a b Hlt Hi Hj.
  - by rewrite lookup_nil in Hi.
  - destruct j as [|j]; [lia|]. simpl in Hj. destruct i as [|i]; simpl in Hi.
    + injection Hi as <-. rewrite Forall_forall in Hx. apply Hx.
      by eapply list_elem_of_lookup_2.
    + apply (IH i j); [lia|done|done].
Qed.

Lemma insertSorted_distinct {A} (R : A -> A -> Prop) (compare : A -> A -> num)
    (x : A) (l : list A) :
  (forall a b, R a b -> R b a) ->
  ForallOrdPairs R (x :: l) -> ForallOrdPairs R (insertSorted compare x l).
Proof.
  intros Hsym. induction l as [|y l IH]; intros H; simpl; [done|].
  destruct (keepsOrder (compare x y)); [done|].
  inversion H as [|? ? Hx Hyl]; subst.
  inversion Hx as [|? ? Hxy Hxl]; subst.
  inversion Hyl as [|? ? Hy Hl]; subst.
  constructor.
  - rewrite Forall_forall. intros z Hz.
    rewrite insertSorted_perm in Hz.
    apply elem_of_cons in Hz as [->|Hz]; [by apply Hsym|].
    rewrite Forall_forall in Hy. by apply Hy.
  - apply IH. by constructor.
Qed.

Lemma jsSort_distinct {A} (R : A -> A -> Prop) (compare : A -> A -> num) (l : list A) :
  (forall a b, R a b -> R b a) ->
  ForallOrdPairs R l -> ForallOrdPairs R (jsSort compare l).
Proof.
  intros Hsym. induction 1 as [|x l Hx Hl IH]; simpl; [constructor|].
  apply insertSorted_distinct; [done|]. constructor; [|done].
  rewrite Forall_forall in Hx. rewrite Forall_forall. intros z Hz.
  apply Hx. by rewrite jsSort_elem in Hz.
Qed.

Lemma insertSorted_priority (x : Candidate) (l : list Candidate) :
  ForallOrdPairs higherFirst l ->
  ForallOrdPairs higherFirst (insertSorted comparePriority x l).
Proof.
  induction 1 as [|y l Hy Hl IH]; cbn [insertSorted].
  - constructor; constructor.
  - unfold comparePriority at 1. rewrite keepsOrder_int.
    destruct (priority y - priority x <=? 0)%Z eqn:E.
    + apply Z.leb_le in E. constructor; [|by constructor].
      constructor; [unfold higherFirst; lia|].
      rewrite Forall_forall in Hy. rewrite Forall_forall. intros z Hz.
      specialize (Hy z Hz). unfold higherFirst in *. lia.
    + apply Z.leb_gt in E. constructor; [|done].
      rewrite Forall_forall. intros z Hz.
      rewrite insertSorted_perm in Hz.
      apply elem_of_cons in Hz as [->|Hz]; [unfold higherFirst; lia|].
      rewrite Forall_forall in Hy. by apply Hy.
Qed.

Lemma jsSort_priority (l : list Candidate) :
  ForallOrdPairs higherFirst (jsSort comparePriority l).
Proof.
  induction l as [|x l IH]; simpl; [constructor|]. by apply insertSorted_priority.
Qed.

Section Candidates.

Variable nodes : list Node.
Variable originalGraph failedGraph : Graph.

(** A property of [candidates] and [candidateSet] that [addCandidate]
    keeps is kept by each of the four strategies. *)
Variable Inv : CandState -> Prop.
Hypothesis Inv_add : forall from to type priority st,
  Inv st -> Inv (addCandidate nodes originalGraph failedGraph from to type priority st).

Lemma hubInner_inv (hubI : Node) (later : list Node) (st : CandState) :
  Inv st -> Inv (hubInner nodes originalGraph failedGraph hubI later st).
Proof using Inv_add.
  unfold hubInner. revert st. induction later as [|hubJ later IH]; intros st H; simpl;
    [done|].
  apply IH. destruct (withinKm _ _ _); [by apply Inv_add|done].
Qed.

Lemma hubNeighbors_inv (busHubs : list Node) (st : CandState) :
  Inv st -> Inv (hubNeighbors nodes originalGraph failedGraph busHubs st).
Proof using Inv_add.
  revert st. induction busHubs as [|hubI later IH]; intros st H; simpl; [done|].
  by apply IH, hubInner_inv.
Qed.

Lemma crossRail_inv (metroStations mmtsStations : list Node) (st : CandState) :
  Inv st ->
  Inv (crossRail nodes originalGraph failedGraph metroStations mmtsStations st).
Proof using Inv_add.
  unfold crossRail. revert st.
  induction metroStations as [|metro ms IH]; intros st H; simpl; [done|].
  apply IH. clear IH. revert st H.
  induction mmtsStations as [|mmts ts IH]; intros st H; simpl; [done|].
  apply IH. destruct (withinKm _ _ _); [by apply Inv_add|done].
Qed.

Lemma odDriven_inv (scenarioResults : list ODResult) (st : CandState) :
  Inv st -> Inv (odDriven nodes originalGraph failedGraph scenarioResults st).
Proof using Inv_add.
  unfold odDriven. generalize (topAffected scenarioResults). intros top. revert st.
  induction top as [|od top IH]; intros st H; simpl; [done|].
  apply IH. destruct (odProposal od) as [[first mid]|]; [by apply Inv_add|done].
Qed.

Lemma expressInner_inv (hubI : Node) (later : list Node) (st : CandState) :
  Inv st -> Inv (expressInner nodes originalGraph failedGraph hubI later st).
Proof using Inv_add.
  revert st. induction later as [|hubJ later IH]; intros st H; simpl; [done|].
  destruct (length st.1 <? 40)%nat; [|done].
  apply IH. destruct (_ && _); [by apply Inv_add|done].
Qed.

Lemma expressHubs_inv (majorHubs : list Node) (st : CandState) :
  Inv st -> Inv (expressHubs nodes originalGraph failedGraph majorHubs st).
Proof using Inv_add.
  revert st. induction majorHubs as [|hubI later IH]; intros st H; simpl; [done|].
  destruct (length st.1 <? 40)%nat; [|done].
  by apply IH, expressInner_inv.
Qed.

Lemma generatedCandidates_inv (scenarioResults : list ODResult) :
  Inv ([], ∅) ->
  Inv (generatedCandidates nodes originalGraph failedGraph scenarioResults).
Proof using Inv_add.
  intros H. unfold generatedCandidates.
  by apply expressHubs_inv, odDriven_inv, crossRail_inv, hubNeighbors_inv.
Qed.

End Candidates.

Lemma addCandidate_ok (nodes : list Node) (originalGraph failedGraph : Graph)
    (from to : string) (type : CandidateType) (priority : Z) (st : CandState) :
  candidatesOk originalGraph failedGraph st ->
  candidatesOk originalGraph failedGraph
    (addCandidate nodes originalGraph failedGraph from to type priority st).
Proof.
  intros Hok. unfold addCandidate. destruct st as [candidates candidateSet].
  destruct (bool_decide (_ ∈ candidateSet)) eqn:Ekey; [done|].
  destruct (bool_decide ((to ++ "_" ++ from)%string ∈ candidateSet)) eqn:Erev;
    [done|].
  simpl. destruct (hasEdge failedGraph from to) eqn:Ef; [done|].
  destruct (hasEdge originalGraph from to) eqn:Eo; [done|]. simpl.
  destruct (findNode nodes from) as [fromNode|]; [|done].
  destruct (findNode nodes to) as [toNode|]; [|done].
  apply bool_decide_eq_false in Ekey, Erev.
  destruct Hok as (Hkeys & Hpairs & Hfree). simpl in *.
  split; [|split]; simpl.
  - intros c Hc. apply elem_of_app in Hc as [Hc|Hc].
    + apply elem_of_union. right. by apply Hkeys.
    + apply list_elem_of_singleton in Hc as ->. apply elem_of_union. left.
      by apply elem_of_singleton.
  - apply ordPairs_snoc; [done|]. rewrite Forall_forall. intros c Hc.
    apply Hkeys in Hc. unfold candidateKey in Hc.
    intros [[Hf Ht]|[Hf Ht]]; simpl in Hf, Ht; rewrite Hf, Ht in Hc; done.
  - intros c Hc. apply elem_of_app in Hc as [Hc|Hc]; [by apply Hfree|].
    apply list_elem_of_singleton in Hc as ->. by split.
Qed.

(** C6.  The list returned by [generateCandidates] has at most 30
    entries; two entries at different positions never join the same
    unordered pair of nodes; no entry joins two nodes that the original
    or the failed graph joins, in either direction; and the entries are
    in descending order of priority. *)
Theorem generateCandidates_bounded_distinct_sorted (nodes : list Node)
    (originalGraph failedGraph : Graph) (scenarioResults : list ODResult) :
  let out := generateCandidates nodes originalGraph failedGraph scenarioResults in
  (List.length out <= 30)%nat
  /\ (forall i j a b, i <> j -> out !! i = Some a -> out !! j = Some b ->
        ~ samePair a b)
  /\ (forall c, c ∈ out ->
        hasEdge originalGraph (c_from c) (c_to c) = false
        /\ hasEdge originalGraph (c_to c) (c_from c) = false
        /\ hasEdge failedGraph (c_from c) (c_to c) = false
        /\ hasEdge failedGraph (c_to c) (c_from c) = false)
  /\ (forall i j a b, (i < j)%nat -> out !! i = Some a -> out !! j = Some b ->
        (priority b <= priority a)%Z).
Proof.
  intros out.
  assert (candidatesOk originalGraph failedGraph
            (generatedCandidates nodes originalGraph failedGraph scenarioResults))
    as (_ & Hpairs & Hfree).
  { apply generatedCandidates_inv.
    - intros. by apply addCandidate_ok.
    - split; [|split]; simpl; [intros c Hc; by apply elem_of_nil in Hc
                              |constructor|intros c Hc; by apply elem_of_nil in Hc]. }
  set (generated := (generatedCandidates nodes originalGraph failedGraph
                       scenarioResults).1) in *.
  assert (ForallOrdPairs distinctPairs out) as Hout.
  { apply ordPairs_take, jsSort_distinct; [|done].
    intros a b Hab Hba. by apply Hab, samePair_sym. }
  split; [unfold out, generateCandidates; rewrite length_take; lia|].
  split; [|split].
  - intros i j a b Hne Hi Hj.
    destruct (Nat.lt_total i j) as [Hlt|[Heq|Hgt]]; [|done|].
    + by apply (ordPairs_lookup _ _ Hout i j).
    + intros Hab. apply samePair_sym in Hab. revert Hab.
      by apply (ordPairs_lookup _ _ Hout j i).
  - intros c Hc. unfold out, generateCandidates in Hc.
    apply subseteq_take in Hc. rewrite jsSort_elem in Hc.
    destruct (Hfree c Hc) as [Ho Hf].
    rewrite (hasEdge_sym originalGraph (c_to c)), (hasEdge_sym failedGraph (c_to c)).
    done.
  - apply (ordPairs_lookup higherFirst out).
    apply ordPairs_take, jsSort_priority.
Qed.

(** ** Paths *)

Lemma isWalk_snoc (g : Graph) (p : list string) (n m : string) :
  isWalk g p -> last p = Some n -> hasEdge g n m = true -> isWalk g (p ++ [m]).
Proof.
  induction p as [|a p IH]; [done|].
  destruct p as [|b p].
  - simpl. intros _ [= ->] H. done.
  - intros [Hab Hw] Hlast Hnm. split; [done|]. by apply IH.
Qed.

Lemma pathBetween_snoc (g : Graph) (s n m : string) (p : list string) :
  pathBetween g s n p -> hasEdge g n m = true -> pathBetween g s m (p ++ [m]).
Proof.
  intros (Hhd & Hlast & Hw) Hnm. split; [|split].
  - destruct p; [done|]. done.
  - by rewrite last_snoc.
  - by eapply isWalk_snoc.
Qed.

Lemma incident_hasEdge (g : Graph) (n nb : string) (attrs : EdgeAttrs) :
  (nb, attrs) ∈ incident g n -> hasEdge g n nb = true.
Proof.
  unfold incident, hasEdge. intros Hin.
  apply list_elem_of_In, in_flat_map in Hin as [e [He Hin]].
  apply existsb_exists. exists e. split; [done|].
  apply connects_iff.
  destruct (String.eqb (e_source e) n) eqn:Es.
  - apply eqb_true in Es. destruct Hin as [[= <- _]|[]]. by left.
  - destruct (String.eqb (e_target e) n) eqn:Et; [|done].
    apply eqb_true in Et. destruct Hin as [[= <- _]|[]]. by right.
Qed.

Lemma incident_edge (g : Graph) (n nb : string) (attrs : EdgeAttrs) :
  (nb, attrs) ∈ incident g n ->
  exists e, e ∈ g_edges g /\ e_attrs e = attrs
            /\ (nb = e_source e \/ nb = e_target e).
Proof.
  unfold incident. intros Hin.
  apply list_elem_of_In, in_flat_map in Hin as [e [He Hin]].
  exists e. split; [by apply list_elem_of_In|].
  destruct (String.eqb (e_source e) n).
  - destruct Hin as [[= <- <-]|[]]. split; [done|by right].
  - destruct (String.eqb (e_target e) n); [|done].
    destruct Hin as [[= <- <-]|[]]. split; [done|by left].
Qed.

Lemma incident_length (g : Graph) (n : string) :
  (List.length (incident g n) <= List.length (g_edges g))%nat.
Proof.
  unfold incident. induction (g_edges g) as [|e es IH]; simpl; [lia|].
  rewrite length_app.
  destruct (String.eqb (e_source e) n); simpl; [lia|].
  destruct (String.eqb (e_target e) n); simpl; lia.
Qed.

(** ** dijkstraMinTransfers: the loop *)

Lemma relax_queue (current : QEntry) (best : gmap string (nat * Q))
    (queue : list QEntry) (nb : string) (attrs : EdgeAttrs) :
  (relax current (best, queue) (nb, attrs)).2 = queue
  \/ exists transfers time,
       (relax current (best, queue) (nb, attrs)).2
       = queue ++ [mkQEntry nb transfers time (Some (edgeModeOf attrs))
                            (q_path current ++ [nb])].
Proof.
  unfold relax. cbv zeta.
  match goal with |- context [if ?c then _ else _] => destruct c end;
    [right; eauto|by left].
Qed.

Lemma relax_fold (P : QEntry -> Prop) (current : QEntry)
    (nbs : list (string * EdgeAttrs)) (best : gmap string (nat * Q))
    (queue : list QEntry) :
  Forall P queue ->
  (forall nb attrs transfers time, (nb, attrs) ∈ nbs ->
     P (mkQEntry nb transfers time (Some (edgeModeOf attrs)) (q_path current ++ [nb]))) ->
  Forall P (fold_left (relax current) nbs (best, queue)).2.
Proof.
  revert best queue. induction nbs as [|[nb attrs] nbs IH]; intros best queue Hq Hnew;
    cbn [fold_left]; [done|].
  destruct (relax current (best, queue) (nb, attrs)) as [best' queue'] eqn:E.
  apply IH; [|intros; apply Hnew; by right].
  destruct (relax_queue current best queue nb attrs) as [H|(tr & tm & H)];
    rewrite E in H; simpl in H; subst queue'; [done|].
  apply Forall_app. split; [done|]. constructor; [|done]. apply Hnew. by left.
Qed.

Lemma relax_fold_length (current : QEntry) (nbs : list (string * EdgeAttrs))
    (best : gmap string (nat * Q)) (queue : list QEntry) :
  (List.length (fold_left (relax current) nbs (best, queue)).2
   <= List.length queue + List.length nbs)%nat.
Proof.
  revert best queue. induction nbs as [|[nb attrs] nbs IH]; intros best queue;
    cbn [fold_left List.length]; [simpl; lia|].
  destruct (relax current (best, queue) (nb, attrs)) as [best' queue'] eqn:E.
  etrans; [apply IH|].
  destruct (relax_queue current best queue nb attrs) as [H|(tr & tm & H)];
    rewrite E in H; simpl in H; subst queue'; [lia|].
  rewrite length_app. simpl. lia.
Qed.

(** Every path the loop returns is a path of the graph from the source
    to the target, when the paths on the queue are. *)
Lemma dijkstraLoop_sound (g : Graph) (source target : string) (fuel : nat)
    (queue : list QEntry) (visited : gset string) (best : gmap string (nat * Q))
    (p : list string) :
  Forall (fun e => pathBetween g source (q_node e) (q_path e)) queue ->
  dijkstraLoop fuel g target queue visited best = Some (Some p) ->
  pathBetween g source target p.
Proof.
  revert queue visited best.
  induction fuel as [|fuel IH]; intros queue visited best Hq; simpl; [done|].
  destruct (jsSort compareEntries queue) as [|current rest] eqn:Esort; [done|].
  assert (Forall (fun e => pathBetween g source (q_node e) (q_path e))
                 (current :: rest)) as Hsorted.
  { rewrite <- Esort. by rewrite jsSort_perm. }
  inversion Hsorted as [|? ? Hcur Hrest]; subst.
  destruct (String.eqb (q_node current) target) eqn:Etarget.
  - intros [= <-]. apply eqb_true in Etarget. by rewrite <- Etarget.
  - destruct (bool_decide _); [by apply IH|].
    destruct (fold_left _ _ _) as [best' queue'] eqn:Efold.
    apply IH.
    pose proof (relax_fold (fun e => pathBetween g source (q_node e) (q_path e))
                  current (incident g (q_node current)) best rest Hrest) as Hfold.
    rewrite Efold in Hfold. apply Hfold.
    intros nb attrs tr tm Hin. simpl.
    eapply pathBetween_snoc; [done|]. by eapply incident_hasEdge.
Qed.

Lemma stateKey_in_universe (g : Graph) (source n : string) (m : option string) :
  n ∈ source :: flat_map (fun e => [e_source e; e_target e]) (g_edges g) ->
  m ∈ None :: ((fun e => Some (edgeModeOf (e_attrs e))) <$> g_edges g) ->
  stateKey n m ∈ stateUniverse g source.
Proof.
  intros Hn Hm. unfold stateUniverse. apply elem_of_list_to_set.
  apply list_elem_of_In, in_flat_map. exists n. split; [by apply list_elem_of_In|].
  apply list_elem_of_In, list_elem_of_fmap. by exists m.
Qed.

(** The loop stops before the fuel runs out, when the state keys of the
    queue are keys of the universe. *)
Lemma dijkstraLoop_fuel (g : Graph) (source target : string) (fuel : nat)
    (queue : list QEntry) (visited : gset string) (best : gmap string (nat * Q)) :
  Forall (fun e => stateKey (q_node e) (q_prevMode e) ∈ stateUniverse g source) queue ->
  (List.length queue
   + S (List.length (g_edges g)) * size (stateUniverse g source ∖ visited) < fuel)%nat ->
  is_Some (dijkstraLoop fuel g target queue visited best).
Proof.
  revert queue visited best.
  induction fuel as [|fuel IH]; intros queue visited best Hq Hfuel; simpl; [lia|].
  destruct (jsSort compareEntries queue) as [|current rest] eqn:Esort; [done|].
  assert (Forall (fun e => stateKey (q_node e) (q_prevMode e) ∈ stateUniverse g source)
                 (current :: rest)) as Hsorted.
  { rewrite <- Esort. by rewrite jsSort_perm. }
  assert (List.length queue = S (List.length rest)) as Hlen.
  { by rewrite <- (jsSort_length compareEntries queue), Esort. }
  inversion Hsorted as [|? ? Hcur Hrest]; subst.
  destruct (String.eqb (q_node current) target); [done|].
  destruct (bool_decide _) eqn:Evis.
  - apply IH; [done|lia].
  - apply bool_decide_eq_false in Evis.
    destruct (fold_left _ _ _) as [best' queue'] eqn:Efold.
    set (key := stateKey (q_node current) (q_prevMode current)) in *.
    assert (size (stateUniverse g source ∖ ({[key]} ∪ visited))
            < size (stateUniverse g source ∖ visited))%nat as Hsize.
    { apply subset_size. split.
      - intros x [Hx Hn]%elem_of_difference. apply elem_of_difference.
        split; [done|]. intros Hv. apply Hn, elem_of_union. by right.
      - intros Hsub.
        assert (key ∈ stateUniverse g source ∖ visited) as Hkey
          by (by apply elem_of_difference).
        apply Hsub, elem_of_difference in Hkey as [_ Hn].
        apply Hn, elem_of_union. left. by apply elem_of_singleton. }
    assert (List.length queue' <= List.length rest + List.length (g_edges g))%nat
      as Hq'.
    { pose proof (relax_fold_length current (incident g (q_node current)) best rest)
        as H.
      rewrite Efold in H. simpl in H.
      pose proof (incident_length g (q_node current)). lia. }
    apply IH.
    + pose proof (relax_fold
        (fun e => stateKey (q_node e) (q_prevMode e) ∈ stateUniverse g source)
        current (incident g (q_node current)) best rest Hrest) as Hfold.
      rewrite Efold in Hfold. apply Hfold.
      intros nb attrs tr tm Hin. simpl.
      apply incident_edge in Hin as (e & He & <- & Hnb).
      apply stateKey_in_universe.
      * right. apply list_elem_of_In, in_flat_map. exists e.
        split; [by apply list_elem_of_In|]. simpl. destruct Hnb; auto.
      * right. apply list_elem_of_fmap. by exists e.
    + nia.
Qed.

(** ** dijkstraMinTransfers *)

Lemma dijkstraMinTransfers_terminates (g : Graph) (source target : string) :
  is_Some (dijkstraLoop (dijkstraFuel g source) g target
             [initialEntry source] ∅ {[source := (0%nat, 0%Q)]}).
Proof.
  apply (dijkstraLoop_fuel g source).
  - constructor; [|done]. simpl. apply stateKey_in_universe; by left.
  - unfold dijkstraFuel. rewrite difference_empty_L. simpl. lia.
Qed.

Lemma dijkstraMinTransfers_sound (g : Graph) (source target : string) (p : list string) :
  dijkstraMinTransfers g source target = Some p -> pathBetween g source target p.
Proof.
  unfold dijkstraMinTransfers.
  destruct (negb (hasNode g source) || negb (hasNode g target)); [done|].
  destruct (String.eqb source target) eqn:E.
  - apply eqb_true in E as <-. by intros [= <-].
  - destruct (dijkstraLoop _ _ _ _ _ _) as [[q|]|] eqn:Eloop; [|done|done].
    intros [= <-]. eapply dijkstraLoop_sound; [|exact Eloop].
    constructor; [|done]. done.
Qed.

(** ** computeShortestPath *)

(** The contract of the library search: what it returns is a path of
    the graph between the two nodes. *)
Hypothesis bidirectional_sound : forall g s t p,
  bidirectional g s t = Some p -> pathBetween g s t p.

(** C8, as amended.  When [source] is a node of the graph,
    [computeShortestPath] from [source] to [source] returns the trivial
    path [[source]] with distance, time, cost and transfers 0.  When
    either endpoint is missing from the graph (also when the two are
    equal), and when the graph has no path between the endpoints, it
    returns the unreachable sentinel: no path and infinite distance,
    time, cost and transfers.  It returns in every case: the loop of the
    transfer search stops within its bound. *)
Theorem computeShortestPath_edge_cases (graph : Graph) (source target : string)
    (objective : Objective) :
  (hasNode graph source = true ->
   computeShortestPath graph source source objective
   = mkPathResult (Some [source]) None (Fin 0) (Fin 0) (Fin 0) (Fin 0))
  /\ (hasNode graph source = false \/ hasNode graph target = false ->
      computeShortestPath graph source target objective
      = mkPathResult None None PInf PInf PInf PInf)
  /\ ((forall p, ~ pathBetween graph source target p) ->
      computeShortestPath graph source target objective
      = mkPathResult None None PInf PInf PInf PInf)
  /\ is_Some (dijkstraLoop (dijkstraFuel graph source) graph target
                [initialEntry source] ∅ {[source := (0%nat, 0%Q)]}).
Proof using bidirectional_sound.
  split; [|split; [|split]].
  - intros Hs. unfold computeShortestPath. rewrite Hs. simpl.
    by rewrite String.eqb_refl.
  - intros Hmiss. unfold computeShortestPath.
    destruct Hmiss as [-> | ->]; simpl; [done|].
    by rewrite orb_true_r.
  - intros Hnone. unfold computeShortestPath.
    destruct (negb (hasNode graph source) || negb (hasNode graph target)); [done|].
    destruct (String.eqb source target) eqn:E.
    + apply eqb_true in E as <-. by destruct (Hnone [source]).
    + assert (match objective with
              | ObjTransfers => dijkstraMinTransfers graph source target
              | _ => bidirectional graph source target
              end = None) as ->; [|done].
      destruct objective.
      * destruct (bidirectional graph source target) as [p|] eqn:Ep; [|done].
        by destruct (Hnone p); apply bidirectional_sound.
      * destruct (bidirectional graph source target) as [p|] eqn:Ep; [|done].
        by destruct (Hnone p); apply bidirectional_sound.
      * destruct (dijkstraMinTransfers graph source target) as [p|] eqn:Ep; [|done].
        by destruct (Hnone p); apply dijkstraMinTransfers_sound.
  - apply dijkstraMinTransfers_terminates.
Qed.

(** ** The transfer search and the OD-driven strategy on concrete networks *)

(** C1.  On the graph with the bus edge S-A (1 minute) and the metro
    edges S-B, B-A (2 minutes each) and A-T (1 minute),
    [computeShortestPath] with the 'transfers' objective returns the path
    S, A, T with one transfer, although S, B, A, T is a path of the graph
    between the same endpoints with no transfer: [best] is kept per node,
    so the label that reaches A by metro is discarded for the one that
    reached it by bus. *)
Theorem transfer_search_not_minimal :
  exists g,
    buildGraph transferNodes transferRows ObjTransfers None None = Some g
    /\ p_path (computeShortestPath g "S" "T" ObjTransfers) = Some ["S"; "A"; "T"]
    /\ p_transfers (computeShortestPath g "S" "T" ObjTransfers) = Fin 1
    /\ pathBetween g "S" "T" ["S"; "B"; "A"; "T"]
    /\ w_transfers <$> walkPath g ["S"; "B"; "A"; "T"] initWalk = Some 0%nat.
Proof.
  eexists. split; [vm_compute; reflexivity|].
  split; [vm_compute; reflexivity|].
  split; [vm_compute; reflexivity|].
  split; [|vm_compute; reflexivity].
  split; [reflexivity|]. split; [reflexivity|].
  repeat split; vm_compute; reflexivity.
Qed.

(** The outcome on that graph does not depend on the order in which the
    edges were inserted, which is the order in which the neighbours of a
    node are visited. *)
Lemma transfer_search_any_order (rows : list EdgeRow) :
  rows ≡ₚ transferRows ->
  transferOutcome rows = Some (Some ["S"; "A"; "T"], Fin 1).
Proof.
  intros Hperm. symmetry in Hperm. apply permutations_Permutation in Hperm.
  vm_compute permutations in Hperm.
  repeat (apply elem_of_cons in Hperm as [->|Hperm]; [vm_compute; reflexivity|]).
  by apply elem_of_nil in Hperm.
Qed.

(** C7.  On the graph in which the stops a to f reach X through M in
    12, 10, 11, 13, 14 and 15 minutes, the results of [computeMetrics] for
    the six pairs are all reachable, and the OD-driven strategy takes the
    first five as they stand: the comparator
    [(b.time - a.time) - (a.time - 0)] is negative for every pair of them,
    in both orders, so the stable sort moves nothing.  The result with the
    largest time, 15, is left out, and the one with the smallest, 10, is
    taken.  ([od_driven_any_sort] below: whatever sort the engine has,
    some such input makes it leave out the largest.) *)
Theorem od_driven_not_largest_times :
  timeOf <$> starResults = [Fin 12; Fin 10; Fin 11; Fin 13; Fin 14; Fin 15]
  /\ reachable <$> starResults = [true; true; true; true; true; true]
  /\ topAffected starResults = take 5 starResults
  /\ timeOf <$> topAffected starResults = [Fin 12; Fin 10; Fin 11; Fin 13; Fin 14]
  /\ (forall a b, a ∈ starResults -> b ∈ starResults ->
        ltb (compareAffected a b) zero = true).
Proof.
  split; [vm_compute; reflexivity|]. split; [vm_compute; reflexivity|].
  split; [vm_compute; reflexivity|]. split; [vm_compute; reflexivity|].
  assert (forallb (fun a => forallb (fun b => ltb (compareAffected a b) zero)
                                    starResults) starResults = true) as Hall
    by (vm_compute; reflexivity).
  revert Hall. generalize starResults. intros rs Hall a b Ha Hb.
  rewrite forallb_forall in Hall.
  apply list_elem_of_In, Hall in Ha. rewrite forallb_forall in Ha.
  apply Ha. by apply list_elem_of_In.
Qed.

(** ** The OD-driven strategy under any sort *)

Section AnyEngine.

(** A sort that returns a permutation of its input, handles the elements
    only through the comparator, and looks only at the sign of the
    comparator's values. *)
Variable sort : forall A : Type, (A -> A -> num) -> list A -> list A.

Hypothesis sort_perm : forall A (compare : A -> A -> num) (l : list A),
  sort A compare l ≡ₚ l.

Hypothesis sort_map : forall A B (f : A -> B) (compare : B -> B -> num) (l : list A),
  sort B compare (f <$> l) = f <$> sort A (fun x y => compare (f x) (f y)) l.

Hypothesis sort_sign : forall A (compare compare' : A -> A -> num) (l : list A),
  (forall x y, signOf (compare x y) = signOf (compare' x y)) ->
  sort A compare l = sort A compare' l.

(** Whatever the sort, there are six reachable results, five of time 10
    and one of time 15, for which the OD-driven strategy leaves out the
    one of time 15: the comparator is negative for every pair of them, so
    the position that the sort moves to the end decides, not the time. *)
Lemma od_driven_any_sort :
  exists longest : nat,
    longest ∈ positions
    /\ affectedAt longest longest ∈ (affectedAt longest <$> positions)
    /\ p_time (res_path (affectedAt longest longest)) = Fin 15
    /\ (forall i, i ∈ positions -> i <> longest ->
          p_time (res_path (affectedAt longest i)) = Fin 10)
    /\ affectedAt longest longest
       ∉ topAffectedWith sort (affectedAt longest <$> positions).
Proof using sort_perm sort_map sort_sign.
  clear bidirectional_sound bidirectional euclideanDistance.
  set (order := sort nat (fun _ _ => Fin (-1)) positions).
  assert (order ≡ₚ positions) as Hperm by apply sort_perm.
  assert (List.length order = 6%nat) as Hlen by (by rewrite Hperm).
  assert (NoDup order) as Hnd.
  { rewrite Hperm. by apply (bool_decide_unpack _). }
  destruct (order !! 5%nat) as [longest|] eqn:Elast;
    [|apply lookup_ge_None in Elast; lia].
  assert (longest ∈ positions) as Hin.
  { rewrite <- Hperm. by eapply list_elem_of_lookup_2. }
  exists longest. split; [done|]. split.
  { apply list_elem_of_fmap. by exists longest. }
  split. { unfold affectedAt. by rewrite Nat.eqb_refl. }
  split.
  { intros i _ Hne. unfold affectedAt. apply Nat.eqb_neq in Hne. by rewrite Hne. }
  unfold topAffectedWith.
  assert (List.filter reachable (affectedAt longest <$> positions)
          = affectedAt longest <$> positions) as -> by reflexivity.
  rewrite sort_map.
  rewrite (sort_sign nat _ (fun _ _ => Fin (-1))).
  2:{ intros x y. unfold affectedAt.
      destruct (x =? longest)%nat, (y =? longest)%nat; reflexivity. }
  fold order. rewrite <- fmap_take.
  intros Hmem. apply list_elem_of_fmap in Hmem as [i [Heq Hi]].
  assert (i = longest) as ->.
  { unfold affectedAt in Heq. rewrite Nat.eqb_refl in Heq.
    destruct (i =? longest)%nat eqn:E; [by apply Nat.eqb_eq in E|discriminate Heq]. }
  apply list_elem_of_lookup in Hi as [k Hk].
  apply lookup_take_Some in Hk as [Hk Hlt].
  pose proof (NoDup_lookup order k 5 longest Hnd Hk Elast). lia.
Qed.

End AnyEngine.

(** * Further properties *)

(** ** calculateMetroFare *)

(** X1.  The metro fare never decreases with the distance and lies
    between 10 and 100. *)
Theorem calculateMetroFare_monotone (d1 d2 : Q) :
  (d1 <= d2)%Q ->
  (calculateMetroFare d1 <= calculateMetroFare d2)%Q
  /\ (10 <= calculateMetroFare d1)%Q /\ (calculateMetroFare d1 <= 100)%Q.
Proof.
  clear bidirectional_sound bidirectional euclideanDistance.
  intros Hle.
  pose proof (calculateMetroFare_band d1) as H1.
  pose proof (calculateMetroFare_band d2) as H2.
  unfold fareBand in H1, H2.
  repeat match goal with
  | H : _ \/ _ |- _ => destruct H as [H|H]
  | H : _ /\ _ |- _ => destruct H as [? H]
  end; rewrite H1, H2; repeat split; lra.
Qed.

(** ** buildGraph: nodes *)

Lemma hasNode_false (g : Graph) (n : string) :
  hasNode g n = false <-> g_nodes g !! n = None.
Proof. unfold hasNode. by destruct (g_nodes g !! n). Qed.

Lemma listed_true (nodes : list Node) (id : string) :
  listed nodes id = true <-> id ∈ (node_id <$> nodes).
Proof.
  unfold listed. rewrite existsb_exists, list_elem_of_fmap. split.
  - intros [n [Hn He]]. apply eqb_true in He. exists n.
    split; [done|by apply list_elem_of_In].
  - intros [n [-> Hn]]. exists n. split; [by apply list_elem_of_In|apply String.eqb_refl].
Qed.

Lemma addNodes_spec (nodes : list Node) (g0 : Graph) :
  (is_Some (addNodes g0 nodes) <->
   NoDup (node_id <$> nodes)
   /\ forall id, id ∈ (node_id <$> nodes) -> g_nodes g0 !! id = None)
  /\ forall g, addNodes g0 nodes = Some g ->
       forall id n, g_nodes g !! id = Some n <->
         g_nodes g0 !! id = Some n \/ (n ∈ nodes /\ node_id n = id).
Proof.
  revert g0. induction nodes as [|n1 ns IH]; intros g0; simpl.
  - split.
    + split; [intros _; split; [constructor|intros id Hid; by apply elem_of_nil in Hid]
             |by eexists].
    + intros g [= <-] id n. split; [by left|].
      intros [H|[H _]]; [done|by apply elem_of_nil in H].
  - unfold addNode. destruct (hasNode g0 (node_id n1)) eqn:E.
    + split.
      * split; [by intros [? ?]|]. intros [_ Hfresh].
        apply hasNode_true in E as [x Hx]. rewrite Hfresh in Hx; [done|by left].
      * done.
    + apply hasNode_false in E.
      destruct (IH (mkGraph (<[node_id n1 := n1]> (g_nodes g0)) (g_edges g0)))
        as [IHs IHn]. simpl in IHs, IHn.
      split.
      * rewrite IHs. split.
        -- intros [Hnd Hfresh]. split.
           ++ constructor; [|done]. intros Hin. specialize (Hfresh _ Hin).
              by rewrite lookup_insert_eq in Hfresh.
           ++ intros id Hid. apply elem_of_cons in Hid as [->|Hid]; [done|].
              specialize (Hfresh _ Hid).
              destruct (decide (node_id n1 = id)) as [<-|Hne]; [done|].
              by rewrite lookup_insert_ne in Hfresh.
        -- intros [Hnd Hfresh]. inversion Hnd as [|? ? Hnotin Hnd']; subst.
           split; [done|]. intros id Hid.
           rewrite lookup_insert_ne; [apply Hfresh; by right|].
           intros <-. done.
      * intros g Hg id n. rewrite (IHn g Hg id n).
        destruct (decide (node_id n1 = id)) as [<-|Hne].
        -- rewrite lookup_insert_eq, E. split.
           ++ intros [[= <-]|[Hin Hid]]; right; [by split; [left|]|].
              split; [by right|done].
           ++ intros [H|[Hin Hid]]; [done|].
              apply elem_of_cons in Hin as [->|Hin]; [by left|right; by split].
        -- rewrite lookup_insert_ne by done. split.
           ++ intros [H|[Hin Hid]]; [by left|right]. split; [by right|done].
           ++ intros [H|[Hin Hid]]; [by left|].
              apply elem_of_cons in Hin as [->|Hin]; [done|right; by split].
Qed.

Lemma insertRow_nodes (objective : Objective) (coefficients : Coefficients)
    (preferMetro : bool) (g : Graph) (row : EdgeRow) :
  g_nodes (insertRow objective coefficients preferMetro g row) = g_nodes g.
Proof.
  unfold insertRow, addEdge.
  destruct (negb (hasNode g (from_id row)) || negb (hasNode g (to_id row))); [done|].
  by destruct (hasEdge g (from_id row) (to_id row)).
Qed.

Lemma insertRows_nodes (objective : Objective) (coefficients : Coefficients)
    (preferMetro : bool) (rows : list EdgeRow) (g : Graph) :
  g_nodes (fold_left (insertRow objective coefficients preferMetro) rows g) = g_nodes g.
Proof.
  revert g. induction rows as [|r rs IH]; intros g; simpl; [done|].
  by rewrite IH, insertRow_nodes.
Qed.

Lemma buildGraph_lookup (nodes : list Node) (edges : list EdgeRow)
    (objective : Objective) (timeOfDayCoefficients : option Coefficients)
    (routeContext : option RouteContext) (g : Graph) :
  buildGraph nodes edges objective timeOfDayCoefficients routeContext = Some g ->
  forall id n, g_nodes g !! id = Some n <-> n ∈ nodes /\ node_id n = id.
Proof.
  destruct (addNodes_spec nodes emptyGraph) as [_ Hn]. unfold buildGraph.
  destruct (addNodes emptyGraph nodes) as [g0|] eqn:E; [|done].
  intros [= <-] id n. rewrite insertRows_nodes, (Hn g0 eq_refl id n).
  simpl. rewrite lookup_empty. split; [intros [?|?]; done|by right].
Qed.

(** X2.  [buildGraph] returns a graph exactly when the identifiers of the
    node list are pairwise different (a repeated identifier makes
    [addNode] throw); the nodes of the graph are then exactly the nodes
    of the list, each under its identifier. *)
Theorem buildGraph_nodes (nodes : list Node) (edges : list EdgeRow)
    (objective : Objective) (timeOfDayCoefficients : option Coefficients)
    (routeContext : option RouteContext) :
  (is_Some (buildGraph nodes edges objective timeOfDayCoefficients routeContext)
   <-> NoDup (node_id <$> nodes))
  /\ forall g,
       buildGraph nodes edges objective timeOfDayCoefficients routeContext = Some g ->
       forall id n, g_nodes g !! id = Some n <-> n ∈ nodes /\ node_id n = id.
Proof.
  split; [|apply buildGraph_lookup].
  destruct (addNodes_spec nodes emptyGraph) as [Hs _]. unfold buildGraph.
  destruct (addNodes emptyGraph nodes) as [g0|] eqn:E.
  - split; [intros _; by apply Hs|by eexists].
  - split; [by intros [? ?]|]. intros Hnd.
    assert (is_Some (@None Graph)) as [? ?]; [|done].
    apply Hs. split; [done|]. intros id _. apply lookup_empty.
Qed.

(** ** buildGraph: edges *)

Lemma notParallel_sym (e1 e2 : GEdge) : notParallel e1 e2 -> notParallel e2 e1.
Proof.
  unfold notParallel. intros H. apply not_true_iff_false. intros H'.
  apply not_true_iff_false in H. apply H.
  apply connects_iff. apply connects_iff in H'. destruct H' as [[-> ->]|[-> ->]]; auto.
Qed.

Lemma hasEdge_false (g : Graph) (a b : string) :
  hasEdge g a b = false <-> forall e, e ∈ g_edges g -> connects a b e = false.
Proof.
  unfold hasEdge. split.
  - intros H e He. apply not_true_iff_false. intros Hc.
    apply not_true_iff_false in H. apply H, existsb_exists.
    exists e. split; [by apply list_elem_of_In|done].
  - intros H. apply not_true_iff_false. intros Hex.
    apply existsb_exists in Hex as [e [He Hc]].
    rewrite H in Hc; [done|by apply list_elem_of_In].
Qed.

Lemma addEdge_wellFormed (g g' : Graph) (a b : string) (attrs : EdgeAttrs) :
  wellFormed g -> addEdge g a b attrs = Some g' -> wellFormed g'.
Proof.
  intros [Hends Hsimple]. unfold addEdge.
  destruct (hasNode g a) eqn:Ea; [|done]. destruct (hasNode g b) eqn:Eb; [|done].
  simpl. destruct (hasEdge g a b) eqn:Eab; [done|]. intros [= <-]. split.
  - intros e He. simpl in He. unfold hasNode. simpl.
    apply elem_of_app in He as [He|He]; [by apply Hends|].
    apply list_elem_of_singleton in He as ->. simpl. by split.
  - unfold simpleGraph. simpl. apply ordPairs_snoc; [done|].
    apply Forall_forall. intros e He. apply notParallel_sym.
    unfold notParallel. simpl. by apply (proj1 (hasEdge_false g a b)).
Qed.

Lemma insertRow_wellFormed (objective : Objective) (coefficients : Coefficients)
    (preferMetro : bool) (g : Graph) (row : EdgeRow) :
  wellFormed g -> wellFormed (insertRow objective coefficients preferMetro g row).
Proof.
  intros Hwf. unfold insertRow.
  destruct (negb (hasNode g (from_id row)) || negb (hasNode g (to_id row))); [done|].
  destruct (negb (hasEdge g (from_id row) (to_id row))); [|done].
  destruct (addEdge g _ _ _) as [g'|] eqn:E; [|done].
  by eapply addEdge_wellFormed.
Qed.

(** X3.  A built graph is a simple graph over its nodes: every edge joins
    two identifiers of the node list, and no two edges join the same
    unordered pair of nodes.  Rows with an endpoint that is not in the
    node list, and rows for an already joined pair, add nothing. *)
Theorem buildGraph_wellFormed (nodes : list Node) (edges : list EdgeRow)
    (objective : Objective) (timeOfDayCoefficients : option Coefficients)
    (routeContext : option RouteContext) (g : Graph) :
  buildGraph nodes edges objective timeOfDayCoefficients routeContext = Some g ->
  wellFormed g
  /\ (forall e, e ∈ g_edges g ->
        e_source e ∈ (node_id <$> nodes) /\ e_target e ∈ (node_id <$> nodes))
  /\ (forall i j e1 e2, i <> j -> g_edges g !! i = Some e1 -> g_edges g !! j = Some e2 ->
        ~ ((e_source e1 = e_source e2 /\ e_target e1 = e_target e2)
           \/ (e_source e1 = e_target e2 /\ e_target e1 = e_source e2))).
Proof.
  intros Hbuild.
  assert (wellFormed g) as Hwf.
  { revert Hbuild. unfold buildGraph.
    destruct (addNodes emptyGraph nodes) as [g0|] eqn:E; [|done]. intros [= <-].
    assert (wellFormed g0) as Hwf0.
    { split.
      - intros e He. rewrite (addNodes_edges _ _ _ E) in He. by apply elem_of_nil in He.
      - unfold simpleGraph. rewrite (addNodes_edges _ _ _ E). constructor. }
    revert Hwf0. generalize g0. induction edges as [|r rs IH]; intros g1 H1; simpl; [done|].
    by apply IH, insertRow_wellFormed. }
  split; [done|]. destruct Hwf as [Hends Hsimple]. split.
  - intros e He. destruct (Hends e He) as [Hs Ht].
    pose proof (buildGraph_lookup _ _ _ _ _ _ Hbuild) as Hn.
    apply hasNode_true in Hs as [ns Hs]. apply hasNode_true in Ht as [nt Ht].
    apply Hn in Hs as [Hs <-]. apply Hn in Ht as [Ht <-].
    split; apply list_elem_of_fmap; eauto.
  - intros i j e1 e2 Hne H1 H2 Hsame.
    assert (forall i j e1 e2, (i < j)%nat -> g_edges g !! i = Some e1 ->
              g_edges g !! j = Some e2 -> notParallel e1 e2) as Hlt
      by apply (ordPairs_lookup notParallel _ Hsimple).
    destruct (Nat.lt_total i j) as [Hij|[Hij|Hij]]; [|done|].
    + specialize (Hlt i j e1 e2 Hij H1 H2). unfold notParallel in Hlt.
      apply not_true_iff_false in Hlt. apply Hlt, connects_iff.
      destruct Hsame as [[-> ->]|[-> ->]]; auto.
    + specialize (Hlt j i e2 e1 Hij H2 H1). unfold notParallel in Hlt.
      apply not_true_iff_false in Hlt. apply Hlt, connects_iff.
      destruct Hsame as [[-> ->]|[-> ->]]; auto.
Qed.

Lemma find_snoc {A} (p : A -> bool) (l : list A) (x : A) :
  List.find p (l ++ [x])
  = match List.find p l with
    | Some y => Some y
    | None => if p x then Some x else None
    end.
Proof.
  induction l as [|y l IH]; simpl; [done|]. by destruct (p y).
Qed.

Lemma find_none_existsb {A} (p : A -> bool) (l : list A) :
  List.find p l = None <-> existsb p l = false.
Proof.
  induction l as [|y l IH]; simpl; [done|]. destruct (p y); simpl; [done|apply IH].
Qed.

Lemma rowJoins_connects (a b : string) (row : EdgeRow) (e : GEdge) :
  rowJoins a b row = true -> connects (from_id row) (to_id row) e = connects a b e.
Proof.
  unfold rowJoins. rewrite orb_true_iff, !andb_true_iff, !eqb_true.
  intros [[-> ->]|[-> ->]]; [done|apply connects_sym].
Qed.

Lemma hasEdge_rowJoins (g : Graph) (a b : string) (row : EdgeRow) :
  rowJoins a b row = true -> hasEdge g (from_id row) (to_id row) = hasEdge g a b.
Proof.
  intros Hj. unfold hasEdge. induction (g_edges g) as [|e es IH]; simpl; [done|].
  by rewrite IH, (rowJoins_connects a b row e Hj).
Qed.

Lemma find_same {A} (p q : A -> bool) (l : list A) :
  (forall x, p x = q x) -> List.find p l = List.find q l.
Proof.
  intros H. induction l as [|x l IH]; simpl; [done|]. by rewrite H, IH.
Qed.

Lemma insertRow_lookup (objective : Objective) (coefficients : Coefficients)
    (preferMetro : bool) (g : Graph) (row : EdgeRow) (a b : string) :
  getEdgeAttributes (insertRow objective coefficients preferMetro g row) a b
  = match getEdgeAttributes g a b with
    | Some attrs => Some attrs
    | None =>
        if hasNode g (from_id row) && hasNode g (to_id row) && rowJoins a b row
        then Some (edgeAttributes objective coefficients preferMetro row)
        else None
    end.
Proof.
  unfold insertRow, addEdge, getEdgeAttributes.
  destruct (hasNode g (from_id row)); simpl;
    [|by destruct (List.find (connects a b) (g_edges g))].
  destruct (hasNode g (to_id row)); simpl;
    [|by destruct (List.find (connects a b) (g_edges g))].
  destruct (hasEdge g (from_id row) (to_id row)) eqn:E; simpl.
  - destruct (List.find (connects a b) (g_edges g)) eqn:Ef; simpl; [done|].
    destruct (rowJoins a b row) eqn:Ej; [|done].
    apply find_none_existsb in Ef. rewrite (hasEdge_rowJoins g a b row Ej) in E.
    unfold hasEdge in E. congruence.
  - rewrite find_snoc.
    destruct (List.find (connects a b) (g_edges g)); simpl; [done|].
    change (connects a b (mkGEdge (from_id row) (to_id row)
                            (edgeAttributes objective coefficients preferMetro row)))
      with (rowJoins a b row).
    by destruct (rowJoins a b row).
Qed.

Lemma insertRows_lookup (objective : Objective) (coefficients : Coefficients)
    (preferMetro : bool) (rows : list EdgeRow) (g : Graph) (a b : string) :
  getEdgeAttributes (fold_left (insertRow objective coefficients preferMetro) rows g) a b
  = match getEdgeAttributes g a b with
    | Some attrs => Some attrs
    | None =>
        edgeAttributes objective coefficients preferMetro
        <$> List.find (fun row => hasNode g (from_id row) && hasNode g (to_id row)
                                  && rowJoins a b row) rows
    end.
Proof.
  revert g. induction rows as [|r rs IH]; intros g; simpl.
  - by destruct (getEdgeAttributes g a b).
  - rewrite IH, insertRow_lookup. unfold hasNode. rewrite insertRow_nodes.
    fold (hasNode g (from_id r)). fold (hasNode g (to_id r)).
    destruct (getEdgeAttributes g a b); [done|].
    destruct (hasNode g (from_id r) && hasNode g (to_id r) && rowJoins a b r); done.
Qed.

(** X4.  In a built graph the edge between two nodes, whichever way
    round it is asked for, carries the attributes computed from the
    first row of the edge list that joins the two and has both endpoints
    in the node list; there is no edge between them when there is no
    such row.  Later rows for the same pair are ignored. *)
Theorem buildGraph_first_row_wins (nodes : list Node) (edges : list EdgeRow)
    (objective : Objective) (timeOfDayCoefficients : option Coefficients)
    (routeContext : option RouteContext) (g : Graph) (a b : string) :
  buildGraph nodes edges objective timeOfDayCoefficients routeContext = Some g ->
  getEdgeAttributes g a b
  = edgeAttributes objective (default defaultCoefficients timeOfDayCoefficients)
      (preferMetroOf routeContext)
    <$> List.find (fun row => rowUsable nodes row && rowJoins a b row) edges.
Proof.
  intros Hbuild.
  pose proof (buildGraph_lookup _ _ _ _ _ _ Hbuild) as Hn.
  revert Hbuild Hn. unfold buildGraph.
  destruct (addNodes emptyGraph nodes) as [g0|] eqn:E; [|done]. intros [= <-] Hn.
  rewrite insertRows_lookup. unfold getEdgeAttributes at 1.
  rewrite (addNodes_edges _ _ _ E). simpl. f_equal.
  assert (forall id, hasNode g0 id = listed nodes id) as Hlisted.
  { intros id. setoid_rewrite insertRows_nodes in Hn.
    destruct (listed nodes id) eqn:El.
    - apply listed_true, list_elem_of_fmap in El as [n [-> Hin]].
      apply hasNode_true. exists n. by apply Hn.
    - apply hasNode_false. destruct (g_nodes g0 !! id) as [n|] eqn:Eg; [|done].
      apply Hn in Eg as [Hin <-].
      assert (listed nodes (node_id n) = true) as Ht
        by (apply listed_true, list_elem_of_fmap; eauto).
      congruence. }
  apply find_same. intros row. unfold rowUsable. by rewrite !Hlisted.
Qed.

(** X5.  Every edge of a built graph stores the base time of its row;
    its adjusted time is the base time for the modes 'metro' and 'mmts'
    and the base time multiplied by [timeMultiplier] for every other
    mode; and its weight is the adjusted time under the 'time' objective,
    the adjusted cost under 'cost', and under 'transfers' one hundredth
    of the base time plus 10000 when the row is tagged 'inter'. *)
Theorem buildGraph_time_and_weight (nodes : list Node) (edges : list EdgeRow)
    (objective : Objective) (timeOfDayCoefficients : option Coefficients)
    (routeContext : option RouteContext) (g : Graph) (ed : GEdge) :
  buildGraph nodes edges objective timeOfDayCoefficients routeContext = Some g ->
  ed ∈ g_edges g ->
  exists row : EdgeRow,
    row ∈ edges
    /\ e_source ed = from_id row /\ e_target ed = to_id row
    /\ baseTime (e_attrs ed) = Some (time_min row)
    /\ isInterModal (e_attrs ed) = Some (isInter (row_intra_or_inter row))
    /\ mode (e_attrs ed) = transportMode (e_attrs ed)
    /\ (transportMode (e_attrs ed) = "metro" \/ transportMode (e_attrs ed) = "mmts" ->
        time (e_attrs ed) = time_min row)
    /\ (transportMode (e_attrs ed) <> "metro" -> transportMode (e_attrs ed) <> "mmts" ->
        time (e_attrs ed)
        = (time_min row
           * timeMultiplier (default defaultCoefficients timeOfDayCoefficients))%Q)
    /\ weight (e_attrs ed)
       = match objective with
         | ObjTime => time (e_attrs ed)
         | ObjCost => cost (e_attrs ed)
         | ObjTransfers =>
             (time_min row * (1 # 100)
              + (if isInter (row_intra_or_inter row) then 10000 else 0))%Q
         end.
Proof.
  intros Hbuild Hin.
  destruct (buildGraph_edges _ _ _ _ _ _ _ Hbuild Hin) as [row [Hrow ->]].
  exists row. simpl. repeat (split; [done|]).
  unfold adjustedTimeOf, isRail. split; [|split].
  - intros [->| ->]; reflexivity.
  - intros Hm1 Hm2. apply eqb_false in Hm1, Hm2. by rewrite Hm1, Hm2.
  - by destruct objective.
Qed.

(** ** applyFailure: what each kind removes *)

Lemma filter_same {A} (p q : A -> bool) (l : list A) :
  (forall x, x ∈ l -> p x = q x) -> List.filter p l = List.filter q l.
Proof.
  induction l as [|x l IH]; intros H; simpl; [done|].
  rewrite (H x) by (by left). rewrite IH; [done|]. intros y Hy. apply H. by right.
Qed.

Lemma filter_true {A} (l : list A) : List.filter (fun _ => true) l = l.
Proof. induction l as [|x l IH]; simpl; [done|]. by rewrite IH. Qed.

Lemma removeLoop_spec (ns : list string) (G : Graph) :
  (forall id, g_nodes (fold_left removeNode ns G) !! id
              = if bool_decide (id ∈ ns) then None else g_nodes G !! id)
  /\ g_edges (fold_left removeNode ns G)
     = List.filter (fun e => negb (existsb (fun t => touches t e) ns)) (g_edges G).
Proof.
  revert G. induction ns as [|n ns IH]; intros G; simpl.
  - split; [done|]. by rewrite filter_true.
  - destruct (IH (removeNode G n)) as [IHn IHe]. split.
    + intros id. rewrite IHn. simpl.
      destruct (decide (n = id)) as [<-|Hne].
      * rewrite lookup_delete_eq. rewrite (bool_decide_eq_true_2 (n ∈ n :: ns)) by (by left).
        by destruct (bool_decide (n ∈ ns)).
      * rewrite lookup_delete_ne by done.
        destruct (bool_decide (id ∈ ns)) eqn:E.
        -- apply bool_decide_eq_true in E.
           by rewrite (bool_decide_eq_true_2 (id ∈ n :: ns)) by (by right).
        -- apply bool_decide_eq_false in E.
           rewrite (bool_decide_eq_false_2 (id ∈ n :: ns)); [done|].
           intros [->|H]%elem_of_cons; done.
    + rewrite IHe. simpl. rewrite filter_twice. apply filter_same.
      intros e _. by rewrite negb_orb.
Qed.

Lemma existsb_same {A} (p q : A -> bool) (l : list A) :
  (forall x, p x = q x) -> existsb p l = existsb q l.
Proof. intros H. induction l as [|x l IH]; simpl; [done|]. by rewrite H, IH. Qed.

Lemma removeNode_edges (G : Graph) (t : string) :
  g_edges (removeNode G t) = List.filter (fun e => negb (touches t e)) (g_edges G).
Proof. reflexivity. Qed.

Lemma hasNode_removeNode (G : Graph) (t t' : string) :
  hasNode (removeNode G t) t' = negb (String.eqb t t') && hasNode G t'.
Proof.
  unfold hasNode. simpl. destruct (String.eqb t t') eqn:E.
  - apply eqb_true in E as <-. by rewrite lookup_delete_eq.
  - apply eqb_false in E. by rewrite lookup_delete_ne.
Qed.

Lemma hitByNode_present (G : Graph) (t : string) (ts : list string) (e : GEdge) :
  hasNode G t = true ->
  hitByNode G (t :: ts) e = touches t e || hitByNode (removeNode G t) ts e.
Proof.
  intros Ht. unfold hitByNode. cbn [existsb]. rewrite Ht. cbn [andb].
  destruct (touches t e) eqn:Ete; [done|]. cbn [orb].
  apply existsb_same. intros t'. rewrite hasNode_removeNode.
  destruct (String.eqb t t') eqn:E; [|done].
  apply eqb_true in E as <-. rewrite Ete. by rewrite !andb_false_r.
Qed.

Lemma hitByNode_absent (G : Graph) (t : string) (ts : list string) (e : GEdge) :
  hasNode G t = false -> hitByNode G (t :: ts) e = hitByNode G ts e.
Proof. intros Ht. unfold hitByNode. cbn [existsb]. by rewrite Ht. Qed.

Lemma nodeLoop_spec (targets : list string) (G : Graph) :
  (forall id, g_nodes (fold_left nodeStep targets G) !! id
              = if bool_decide (id ∈ targets) then None else g_nodes G !! id)
  /\ g_edges (fold_left nodeStep targets G)
     = List.filter (fun e => negb (hitByNode G targets e)) (g_edges G).
Proof.
  revert G. induction targets as [|t ts IH]; intros G; cbn [fold_left].
  - split; [done|]. unfold hitByNode. simpl. by rewrite filter_true.
  - destruct (IH (nodeStep G t)) as [IHn IHe]. unfold nodeStep in *.
    destruct (hasNode G t) eqn:Et.
    + split.
      * intros id. rewrite IHn. simpl.
        destruct (decide (t = id)) as [<-|Hne].
        -- rewrite lookup_delete_eq.
           rewrite (bool_decide_eq_true_2 (t ∈ t :: ts)) by (by left).
           by destruct (bool_decide (t ∈ ts)).
        -- rewrite lookup_delete_ne by done.
           destruct (bool_decide (id ∈ ts)) eqn:E.
           ++ apply bool_decide_eq_true in E.
              by rewrite (bool_decide_eq_true_2 (id ∈ t :: ts)) by (by right).
           ++ apply bool_decide_eq_false in E.
              rewrite (bool_decide_eq_false_2 (id ∈ t :: ts)); [done|].
              intros [->|H]%elem_of_cons; done.
      * rewrite IHe, removeNode_edges, filter_twice. apply filter_same.
        intros e _. by rewrite (hitByNode_present G t ts e Et), negb_orb.
    + apply hasNode_false in Et. split.
      * intros id. rewrite IHn.
        destruct (decide (t = id)) as [<-|Hne].
        -- rewrite (bool_decide_eq_true_2 (t ∈ t :: ts)) by (by left).
           rewrite Et. by destruct (bool_decide (t ∈ ts)).
        -- destruct (bool_decide (id ∈ ts)) eqn:E.
           ++ apply bool_decide_eq_true in E.
              by rewrite (bool_decide_eq_true_2 (id ∈ t :: ts)) by (by right).
           ++ apply bool_decide_eq_false in E.
              rewrite (bool_decide_eq_false_2 (id ∈ t :: ts)); [done|].
              intros [->|H]%elem_of_cons; done.
      * rewrite IHe. apply filter_same. intros e _.
        apply hasNode_false in Et. by rewrite (hitByNode_absent G t ts e Et).
Qed.

(** X6.  With kind 'node', the copy returned by [applyFailure] has lost
    exactly the listed identifiers (a target that is no node of the graph
    changes nothing, a target listed twice is dropped once): every other
    node is kept with its attributes, and the edges kept are those that
    touch no target that was a node of the graph. *)
Theorem applyFailure_node (h : gmap positive Graph) (graph : ref) (G : Graph)
    (failureTargets : list string) :
  h !! graph = Some G ->
  exists (failed : ref) (h' : gmap positive Graph) (G' : Graph),
    applyFailure graph NodeFailure failureTargets h = Some (failed, h')
    /\ h' !! failed = Some G'
    /\ (forall id, id ∈ failureTargets -> hasNode G' id = false)
    /\ (forall id, id ∉ failureTargets -> g_nodes G' !! id = g_nodes G !! id)
    /\ g_edges G'
       = List.filter (fun e => negb (hitByNode G failureTargets e)) (g_edges G)
    /\ (forall e t, e ∈ g_edges G' -> t ∈ failureTargets -> hasNode G t = true ->
          e_source e <> t /\ e_target e <> t).
Proof.
  intros Hh. destruct (nodeLoop_spec failureTargets G) as [Hn He].
  exists (fresh (dom h)), (<[fresh (dom h) := failedValue G NodeFailure failureTargets]> h),
         (failedValue G NodeFailure failureTargets).
  split; [by apply applyFailure_run|]. split; [apply lookup_insert_eq|].
  simpl. split; [|split; [|split; [done|]]].
  - intros id Hid. apply hasNode_false. rewrite Hn.
    by rewrite bool_decide_eq_true_2.
  - intros id Hid. rewrite Hn. by rewrite bool_decide_eq_false_2.
  - intros e t Hin Ht Hnode. rewrite He in Hin.
    apply list_elem_of_In, List.filter_In in Hin as [_ Hkeep].
    apply negb_true_iff in Hkeep. unfold hitByNode in Hkeep.
    assert (touches t e = false) as Htouch.
    { apply not_true_iff_false. intros Htrue.
      apply not_true_iff_false in Hkeep. apply Hkeep, existsb_exists.
      exists t. split; [by apply list_elem_of_In|]. by rewrite Hnode, Htrue. }
    unfold touches in Htouch. apply orb_false_iff in Htouch as [Hs Ht'].
    by apply eqb_false in Hs, Ht'.
Qed.

Lemma layerNodes_elem (G : Graph) (targets : list string) (id : string) :
  id ∈ layerNodes G targets <-> inLayers G targets id = true.
Proof.
  unfold layerNodes, inLayers. rewrite list_elem_of_fmap. split.
  - intros [[k node] [-> Hin]]. simpl.
    apply list_elem_of_In, List.filter_In in Hin as [Hin Hl].
    apply list_elem_of_In, elem_of_map_to_list in Hin. by rewrite Hin.
  - destruct (g_nodes G !! id) as [node|] eqn:E; [|done]. intros Hl.
    exists (id, node). split; [done|].
    apply list_elem_of_In, List.filter_In. split; [|done].
    by apply list_elem_of_In, elem_of_map_to_list.
Qed.

(** X7.  With kind 'layer', the copy returned by [applyFailure] keeps
    exactly the nodes whose layer is not listed, with their attributes,
    and exactly the edges neither endpoint of which was a node of a
    listed layer. *)
Theorem applyFailure_layer (h : gmap positive Graph) (graph : ref) (G : Graph)
    (failureTargets : list string) :
  h !! graph = Some G ->
  exists (failed : ref) (h' : gmap positive Graph) (G' : Graph),
    applyFailure graph LayerFailure failureTargets h = Some (failed, h')
    /\ h' !! failed = Some G'
    /\ (forall id node, g_nodes G' !! id = Some node <->
          g_nodes G !! id = Some node /\ layer node ∉ failureTargets)
    /\ g_edges G'
       = List.filter (fun e => negb (inLayers G failureTargets (e_source e)
                                     || inLayers G failureTargets (e_target e)))
                     (g_edges G).
Proof.
  intros Hh. destruct (removeLoop_spec (layerNodes G failureTargets) G) as [Hn He].
  exists (fresh (dom h)), (<[fresh (dom h) := failedValue G LayerFailure failureTargets]> h),
         (failedValue G LayerFailure failureTargets).
  split; [by apply applyFailure_run|]. split; [apply lookup_insert_eq|].
  simpl. split.
  - intros id node. rewrite Hn.
    destruct (bool_decide (id ∈ layerNodes G failureTargets)) eqn:E.
    + apply bool_decide_eq_true, layerNodes_elem in E. unfold inLayers in E.
      split; [done|]. intros [Hid Hl]. rewrite Hid in E.
      apply existsb_exists in E as [t [Ht Heq]]. apply eqb_true in Heq as <-.
      exfalso. by apply Hl, list_elem_of_In.
    + apply bool_decide_eq_false in E. rewrite layerNodes_elem in E.
      unfold inLayers in E. split; [|by intros [? _]].
      intros Hid. split; [done|]. rewrite Hid in E. intros Hl. apply E.
      apply existsb_exists. exists (layer node).
      split; [by apply list_elem_of_In|apply String.eqb_refl].
  - rewrite He. apply filter_same. intros e _. f_equal.
    apply eq_true_iff_eq. rewrite existsb_exists, orb_true_iff. split.
    + intros [t [Ht Htouch]]. apply list_elem_of_In, layerNodes_elem in Ht.
      unfold touches in Htouch. apply orb_true_iff in Htouch as [Hs|Hs];
        apply eqb_true in Hs; rewrite Hs; auto.
    + intros [Hs|Hs]; apply layerNodes_elem, list_elem_of_In in Hs;
        eexists; (split; [exact Hs|]); unfold touches;
        rewrite String.eqb_refl; by rewrite ?orb_true_r.
Qed.

(** ** applyFailure: a failure only removes, and keeps the graph simple *)

Lemma ordPairs_filter {A} (R : A -> A -> Prop) (p : A -> bool) (l : list A) :
  ForallOrdPairs R l -> ForallOrdPairs R (List.filter p l).
Proof.
  induction 1 as [|x l Hx Hl IH]; simpl; [constructor|].
  destruct (p x); [|done]. constructor; [|done].
  rewrite Forall_forall in Hx. apply Forall_forall. intros y Hy.
  apply Hx. apply list_elem_of_In, List.filter_In in Hy as [Hy _].
  by apply list_elem_of_In.
Qed.

Lemma removeNode_wellFormed (G : Graph) (n : string) :
  wellFormed G -> wellFormed (removeNode G n).
Proof.
  intros [Hends Hsimple]. split.
  - intros e He. rewrite removeNode_edges in He.
    apply list_elem_of_In, List.filter_In in He as [He Hkeep].
    apply list_elem_of_In, Hends in He as [Hs Ht].
    apply negb_true_iff in Hkeep. unfold touches in Hkeep.
    apply orb_false_iff in Hkeep as [Hns Hnt].
    rewrite !hasNode_removeNode, Hs, Ht.
    rewrite String.eqb_sym in Hns. rewrite String.eqb_sym in Hnt.
    by rewrite Hns, Hnt.
  - unfold simpleGraph. rewrite removeNode_edges. by apply ordPairs_filter.
Qed.

Lemma removeEdge_wellFormed (G : Graph) (a b : string) :
  wellFormed G -> wellFormed (removeEdge G a b).
Proof.
  intros [Hends Hsimple]. split.
  - intros e He. simpl in He.
    apply list_elem_of_In, List.filter_In in He as [He _].
    by apply list_elem_of_In, Hends in He.
  - unfold simpleGraph. simpl. by apply ordPairs_filter.
Qed.

Lemma subgraph_refl (G : Graph) : subgraph G G.
Proof. by split. Qed.

Lemma subgraph_trans (G1 G2 G3 : Graph) :
  subgraph G1 G2 -> subgraph G2 G3 -> subgraph G1 G3.
Proof. intros [Hn1 He1] [Hn2 He2]. split; eauto. Qed.

Lemma removeNode_subgraph (G : Graph) (n : string) : subgraph (removeNode G n) G.
Proof.
  split.
  - intros id node. simpl. intros H. by apply lookup_delete_Some in H as [_ H].
  - intros e He. rewrite removeNode_edges in He.
    apply list_elem_of_In, List.filter_In in He as [He _]. by apply list_elem_of_In.
Qed.

Lemma removeEdge_subgraph (G : Graph) (a b : string) : subgraph (removeEdge G a b) G.
Proof.
  split; [done|]. intros e He. simpl in He.
  apply list_elem_of_In, List.filter_In in He as [He _]. by apply list_elem_of_In.
Qed.

Lemma fold_keeps {A} (P : Graph -> Prop) (R : Graph -> Graph -> Prop)
    (step : Graph -> A -> Graph) (xs : list A) (G : Graph) :
  (forall G x, P G -> P (step G x)) ->
  (forall G x, R (step G x) G) ->
  (forall G, R G G) ->
  (forall G1 G2 G3, R G1 G2 -> R G2 G3 -> R G1 G3) ->
  P G -> P (fold_left step xs G) /\ R (fold_left step xs G) G.
Proof.
  intros HP HR Hrefl Htrans. revert G.
  induction xs as [|x xs IH]; intros G HG; simpl; [by split|].
  destruct (IH (step G x) (HP _ _ HG)) as [H1 H2]. split; [done|].
  eapply Htrans; [exact H2|apply HR].
Qed.

Lemma failedValue_keeps (G : Graph) (failureType : FailureKind)
    (failureTargets : list string) :
  wellFormed G ->
  wellFormed (failedValue G failureType failureTargets)
  /\ subgraph (failedValue G failureType failureTargets) G.
Proof.
  intros Hwf. destruct failureType; simpl.
  - apply (fold_keeps wellFormed subgraph nodeStep);
      [| |apply subgraph_refl|apply subgraph_trans|done].
    + intros G1 x H. unfold nodeStep. destruct (hasNode G1 x); [|done].
      by apply removeNode_wellFormed.
    + intros G1 x. unfold nodeStep. destruct (hasNode G1 x);
        [apply removeNode_subgraph|apply subgraph_refl].
  - apply (fold_keeps wellFormed subgraph edgeStep);
      [| |apply subgraph_refl|apply subgraph_trans|done].
    + intros G1 x H. unfold edgeStep. destruct (edgeSpecEndpoints x) as [a b].
      destruct (hasEdge G1 a b); [|done]. by apply removeEdge_wellFormed.
    + intros G1 x. unfold edgeStep. destruct (edgeSpecEndpoints x) as [a b].
      destruct (hasEdge G1 a b); [apply removeEdge_subgraph|apply subgraph_refl].
  - apply (fold_keeps wellFormed subgraph removeNode);
      [|apply removeNode_subgraph|apply subgraph_refl|apply subgraph_trans|done].
    intros G1 x H. by apply removeNode_wellFormed.
Qed.

(** X8.  Whatever the kind and the targets, a failure only removes: every
    node and every edge of the copy is a node, with the same attributes,
    or an edge of the input.  If every edge of the input joins two of its
    nodes and no two of its edges join the same pair, the same holds of
    the copy: no edge is left without an endpoint. *)
Theorem applyFailure_subgraph (h : gmap positive Graph) (graph : ref) (G : Graph)
    (failureType : FailureKind) (failureTargets : list string) :
  h !! graph = Some G ->
  wellFormed G ->
  exists (failed : ref) (h' : gmap positive Graph) (G' : Graph),
    applyFailure graph failureType failureTargets h = Some (failed, h')
    /\ h' !! failed = Some G'
    /\ subgraph G' G
    /\ wellFormed G'.
Proof.
  intros Hh Hwf.
  destruct (failedValue_keeps G failureType failureTargets Hwf) as [Hwf' Hsub].
  exists (fresh (dom h)), (<[fresh (dom h) := failedValue G failureType failureTargets]> h),
         (failedValue G failureType failureTargets).
  split; [by apply applyFailure_run|]. split; [apply lookup_insert_eq|]. done.
Qed.

(** ** The edge keys of the interface *)

Lemma split_free (s : string) :
  underscoreFree s = true -> split "_" s = [s].
Proof.
  induction s as [|c s IH]; simpl; [done|].
  intros [Hc Hs]%andb_true_iff. apply negb_true_iff in Hc. rewrite Hc.
  by rewrite (IH Hs).
Qed.

Lemma split_join (a b : string) :
  underscoreFree a = true ->
  split "_" (a ++ "_" ++ b)%string = a :: split "_" b.
Proof.
  induction a as [|c a IH]; simpl; [done|].
  intros [Hc Ha]%andb_true_iff. apply negb_true_iff in Hc. rewrite Hc.
  by rewrite (IH Ha).
Qed.

Lemma edgeOptionValue_endpoints (row : EdgeRow) :
  underscoreFree (from_id row) = true -> underscoreFree (to_id row) = true ->
  edgeSpecEndpoints (edgeOptionValue row) = (from_id row, to_id row).
Proof.
  intros Hf Ht. unfold edgeSpecEndpoints, edgeOptionValue.
  by rewrite (split_join _ _ Hf), (split_free _ Ht).
Qed.

(** X9.  The key that the interface offers for a row of the edge table,
    [`${from_id}_${to_id}`], is read back by [applyFailure] as the two
    identifiers of the row when neither contains an underscore; selecting
    it removes the edge between the two nodes, whichever way round it is
    stored, and no other edge and no node. *)
Theorem edge_key_round_trip (h : gmap positive Graph) (graph : ref) (G : Graph)
    (row : EdgeRow) :
  underscoreFree (from_id row) = true ->
  underscoreFree (to_id row) = true ->
  h !! graph = Some G ->
  edgeSpecEndpoints (edgeOptionValue row) = (from_id row, to_id row)
  /\ exists (failed : ref) (h' : gmap positive Graph) (G' : Graph),
       applyFailure graph EdgeFailure [edgeOptionValue row] h = Some (failed, h')
       /\ h' !! failed = Some G'
       /\ g_nodes G' = g_nodes G
       /\ hasEdge G' (from_id row) (to_id row) = false
       /\ hasEdge G' (to_id row) (from_id row) = false
       /\ g_edges G'
          = List.filter (fun e => negb (connects (from_id row) (to_id row) e))
                        (g_edges G).
Proof.
  intros Hf Ht Hh. pose proof (edgeOptionValue_endpoints row Hf Ht) as Hkey.
  split; [done|].
  destruct (edgeLoop_edges [edgeOptionValue row] G) as [Hn He].
  assert (g_edges (failedValue G EdgeFailure [edgeOptionValue row])
          = List.filter (fun e => negb (connects (from_id row) (to_id row) e))
                        (g_edges G)) as Hedges.
  { simpl. simpl in He. rewrite He. apply filter_same. intros e _.
    unfold namedBy. rewrite Hkey. simpl. by rewrite orb_false_r. }
  exists (fresh (dom h)),
         (<[fresh (dom h) := failedValue G EdgeFailure [edgeOptionValue row]]> h),
         (failedValue G EdgeFailure [edgeOptionValue row]).
  split; [by apply applyFailure_run|]. split; [apply lookup_insert_eq|].
  split; [done|].
  assert (hasEdge (failedValue G EdgeFailure [edgeOptionValue row])
            (from_id row) (to_id row) = false) as Hgone.
  { apply hasEdge_false. intros e He'. rewrite Hedges in He'.
    apply list_elem_of_In, List.filter_In in He' as [_ Hk].
    by apply negb_true_iff in Hk. }
  split; [done|]. split; [by rewrite hasEdge_sym|done].
Qed.

(** ** computeShortestPath: the shape of a result *)


Lemma walkPath_cons (g : Graph) (a b : string) (p : list string) (acc : WalkAcc) :
  walkPath g (a :: b :: p) acc
  = match getEdgeAttributes g a b, getNodeAttributes g a, getNodeAttributes g b with
    | Some edge, Some fromNode, Some toNode =>
        walkPath g (b :: p) (walkStep acc a b edge fromNode toNode)
    | _, _, _ => None
    end.
Proof. reflexivity. Qed.





(** X11.  The transfer search returns no path when an endpoint is
    missing, the path [[source]] when the endpoints are the same node,
    and otherwise only paths of the graph: what it returns starts at the
    source, ends at the target and steps along edges of the graph; in a
    graph whose edges all join nodes, every node of the path is a node of
    the graph. *)
Theorem dijkstraMinTransfers_path (graph : Graph) (source target : string) :
  (hasNode graph source = false \/ hasNode graph target = false ->
   dijkstraMinTransfers graph source target = None)
  /\ (hasNode graph source = true ->
      dijkstraMinTransfers graph source source = Some [source])
  /\ (forall p, dijkstraMinTransfers graph source target = Some p ->
        pathBetween graph source target p
        /\ hasNode graph source = true /\ hasNode graph target = true
        /\ (endpointsExist graph -> Forall (fun n => hasNode graph n = true) p)).
Proof.
  split; [|split].
  - unfold dijkstraMinTransfers. intros [-> | ->]; simpl; [done|].
    by rewrite orb_true_r.
  - intros Hs. unfold dijkstraMinTransfers. rewrite Hs. simpl.
    by rewrite String.eqb_refl.
  - intros p Hp. pose proof (dijkstraMinTransfers_sound _ _ _ _ Hp) as Hpath.
    assert (hasNode graph source = true /\ hasNode graph target = true) as [Hs Ht].
    { revert Hp. unfold dijkstraMinTransfers.
      destruct (hasNode graph source); [|done].
      by destruct (hasNode graph target). }
    split; [done|]. split; [done|]. split; [done|]. intros Hends.
    destruct Hpath as (Hhd & _ & Hw). clear Hp.
    destruct p as [|a p]; [done|]. injection Hhd as ->.
    revert source Hs Hw. induction p as [|b p IH]; intros a Ha Hw.
    + by constructor.
    + destruct Hw as [Hab Hw]. constructor; [done|]. apply IH; [|done].
      unfold hasEdge in Hab. apply existsb_exists in Hab as [e [He Hc]].
      apply list_elem_of_In, Hends in He as [Hes Het].
      apply connects_iff in Hc as [[_ <-]|[<- _]]; done.
Qed.

(** ** computeMetrics: the averages are finite *)

(** A result without a path is one of the two sentinels. *)
Lemma computeShortestPath_sentinel (graph : Graph) (source target : string)
    (objective : Objective) :
  let r := computeShortestPath graph source target objective in
  (p_path r = None /\ p_distance r = PInf /\ p_transfers r = PInf
   /\ p_time r = PInf /\ p_cost r = PInf)
  \/ is_Some (p_path r).
Proof.
  unfold computeShortestPath.
  destruct (negb (hasNode graph source) || negb (hasNode graph target));
    [by left|].
  destruct (String.eqb source target); [right; by eexists|].
  destruct (match objective with
            | ObjTransfers => dijkstraMinTransfers graph source target
            | _ => bidirectional graph source target
            end) as [path|]; [|by left].
  destruct (walkPath graph path initWalk) as [acc|]; [right; by eexists|by left].
Qed.

(** X12.  For every graph, list of OD pairs and objective, a result of
    the bundle is flagged unreachable exactly when its time is
    [Infinity]; a result flagged reachable has a path; and a result
    without a path is flagged unreachable and has an infinite distance,
    time, cost and transfer count. *)
Theorem computeMetrics_reachable_flag (graph : Graph) (odPairs : list ODPair)
    (objective : Objective) :
  let m := computeMetrics graph odPairs objective in
  forall r, r ∈ results m ->
    (reachable r = false <-> p_time (res_path r) = PInf)
    /\ (reachable r = true -> is_Some (p_path (res_path r)))
    /\ (p_path (res_path r) = None ->
        reachable r = false
        /\ p_distance (res_path r) = PInf /\ p_time (res_path r) = PInf
        /\ p_cost (res_path r) = PInf /\ p_transfers (res_path r) = PInf).
Proof.
  unfold computeMetrics. rewrite metricsStep_fold.
  cbn [finalMetrics results initMetrics m_results app].
  intros r Hr. apply list_elem_of_fmap in Hr as [od [-> _]].
  unfold resultOf, infiniteTime. cbn [res_path reachable].
  set (result := computeShortestPath graph (od_source od) (od_target od) objective).
  assert (negb (isInfinity (p_time result)) = false <-> p_time result = PInf) as Hflag.
  { destruct (p_time result); simpl; split; done. }
  split; [done|].
  destruct (computeShortestPath_sentinel graph (od_source od) (od_target od) objective)
    as [(Hnone & Hd & Hk & Ht & Hc)|Hsome]; fold result in Hnone, Hd, Hk, Ht, Hc
    || fold result in Hsome.
  - split.
    + rewrite Ht. simpl. done.
    + intros _. split; [by apply Hflag|done].
  - split; [done|]. intros Hnone. rewrite Hnone in Hsome. by destruct Hsome.
Qed.

(** ** Comparing numbers *)

Lemma Qltb_lt (x y : Q) : Qltb x y = true <-> (x < y)%Q.
Proof.
  unfold Qltb. rewrite negb_true_iff. split.
  - apply Qle_bool_false.
  - intros H. apply not_true_iff_false. intros Hle. apply Qle_bool_iff in Hle. lra.
Qed.

Lemma Qltb_nlt (x y : Q) : Qltb x y = false <-> (y <= x)%Q.
Proof.
  unfold Qltb. rewrite negb_false_iff. apply Qle_bool_iff.
Qed.

Lemma gtb_trans (a b c : num) : gtb a b = true -> gtb b c = true -> gtb a c = true.
Proof.
  unfold gtb. destruct a as [x| | |], b as [y| | |], c as [z| | |]; simpl; try done.
  rewrite !Qltb_lt. lra.
Qed.

Lemma gtb_not_above (x b b' : num) :
  gtb x b = false -> gtb b' b = true -> gtb x b' = false.
Proof.
  unfold gtb. destruct x as [x| | |], b as [y| | |], b' as [z| | |]; simpl; try done.
  rewrite !Qltb_nlt, Qltb_lt. lra.
Qed.

(** ** greedyRecommendation: the best of a round *)

Section GreedyFacts.

Variable odPairs : list ODPair.
Variable objective : Objective.
Variable coefficients : Coefficients.
Variable baselineValue : num.

Local Abbreviation evaluate g :=
  (evaluateCandidate g odPairs objective coefficients baselineValue).
Local Abbreviation measure g c := (testValue g odPairs objective coefficients c).

Local Abbreviation roundInv :=
  (roundInvariant odPairs objective coefficients baselineValue).

Lemma testValue_value (g : Graph) (c : Candidate) (m : Metrics) (v : num) :
  measure g c = Some (m, v) -> v = objectiveValue objective m.
Proof.
  unfold testValue. destruct (addEdge _ _ _ _); [|done]. by intros [= <- <-].
Qed.

Lemma evaluateCandidate_invariant (g : Graph) (seen : list Candidate)
    (round : RoundBest) (c : Candidate) :
  roundInv g seen round -> roundInv g (seen ++ [c]) (evaluate g round c).
Proof.
  intros [Hbest Hmax]. unfold evaluateCandidate.
  destruct (measure g c) as [[m v]|] eqn:E.
  - pose proof (testValue_value _ _ _ _ E) as ->.
    destruct (gtb (sub baselineValue (objectiveValue objective m))
                  (bestImprovement round)) eqn:Egt.
    + split.
      * right. exists c, m. cbn [bestCandidate bestImprovement bestMetrics].
        split; [apply elem_of_app; right; by left|]. repeat (split; [done|]).
        destruct Hbest as [(_ & Hz & _)|(c0 & m0 & _ & _ & _ & _ & _ & Hpos)].
        -- by rewrite Hz in Egt.
        -- by eapply gtb_trans.
      * intros c' m' v' Hc' Hm'. cbn [bestImprovement].
        apply elem_of_app in Hc' as [Hc'|Hc'].
        -- eapply gtb_not_above; [by eapply Hmax|done].
        -- apply list_elem_of_singleton in Hc' as ->.
           rewrite E in Hm'. injection Hm' as <- <-.
           unfold gtb. destruct (sub baselineValue _) as [x| | |]; simpl; try done.
           apply Qltb_nlt. lra.
    + split.
      * destruct Hbest as [H|(c0 & m0 & Hin & H)]; [by left|right].
        exists c0, m0. split; [apply elem_of_app; by left|done].
      * intros c' m' v' Hc' Hm'. apply elem_of_app in Hc' as [Hc'|Hc'];
          [by eapply Hmax|].
        apply list_elem_of_singleton in Hc' as ->.
        rewrite E in Hm'. by injection Hm' as <- <-.
  - split.
    + destruct Hbest as [H|(c0 & m0 & Hin & H)]; [by left|right].
      exists c0, m0. split; [apply elem_of_app; by left|done].
    + intros c' m' v' Hc' Hm'. apply elem_of_app in Hc' as [Hc'|Hc'];
        [by eapply Hmax|].
      apply list_elem_of_singleton in Hc' as ->. congruence.
Qed.

Lemma evaluateRound_invariant (g : Graph) (pool : list Candidate) :
  roundInv g pool
    (evaluateRound g odPairs objective coefficients baselineValue pool).
Proof.
  unfold evaluateRound.
  assert (forall rest seen round, roundInv g seen round ->
            roundInv g (seen ++ rest) (fold_left (evaluate g) rest round)) as Hgen.
  { induction rest as [|c rest IH]; intros seen round H; simpl.
    - by rewrite app_nil_r.
    - rewrite (cons_middle c seen rest), app_assoc.
      by apply IH, evaluateCandidate_invariant. }
  apply (Hgen pool [] initRound). split; [by left|].
  intros c m v Hc. by apply elem_of_nil in Hc.
Qed.

(** X13.  A round of the greedy selection ends with the best of its pool.
    When it keeps no candidate, no candidate of the pool whose insertion
    succeeds gives a value strictly below the reference.  When it keeps
    one, that candidate is in the pool, its insertion succeeded, the
    improvement kept is the reference value minus the value measured with
    it, is strictly positive, and no candidate of the pool gives a
    strictly larger improvement. *)
Theorem evaluateRound_keeps_best (g : Graph) (pool : list Candidate) :
  let round := evaluateRound g odPairs objective coefficients baselineValue pool in
  (bestCandidate round = None ->
   forall c m v, c ∈ pool -> measure g c = Some (m, v) -> ltb v baselineValue = false)
  /\ (forall best, bestCandidate round = Some best ->
        exists c m, c ∈ pool /\ best = assign coefficients c
          /\ measure g c = Some (m, objectiveValue objective m)
          /\ bestMetrics round = Some m
          /\ bestImprovement round = sub baselineValue (objectiveValue objective m)
          /\ ltb (objectiveValue objective m) baselineValue = true)
  /\ (forall c m v, c ∈ pool -> measure g c = Some (m, v) ->
        gtb (sub baselineValue v) (bestImprovement round) = false).
Proof.
  destruct (evaluateRound_invariant g pool) as [Hbest Hmax]. cbn zeta.
  split; [|split; [|done]].
  - intros Hnone c m v Hc Hm.
    destruct Hbest as [(_ & Hz & _)|(c0 & m0 & _ & Hsome & _)]; [|congruence].
    specialize (Hmax c m v Hc Hm). by rewrite Hz, gtb_sub_zero in Hmax.
  - intros best Hsome.
    destruct Hbest as [(Hnone & _)|(c0 & m0 & Hin & Hc0 & Hm0 & Hmet & Himp & Hpos)];
      [congruence|].
    exists c0, m0. rewrite Hc0 in Hsome. injection Hsome as <-.
    repeat (split; [done|]). by rewrite Himp, gtb_sub_zero in Hpos.
Qed.

(** ** greedyRecommendation: the final graph *)

Local Abbreviation loop := (greedyLoop odPairs objective coefficients baselineValue).

Lemma greedyLoop_graph (failedGraph : Graph) (rounds : nat) (st : GreedyState) :
  graphInvariant objective coefficients baselineValue failedGraph st ->
  graphInvariant objective coefficients baselineValue failedGraph (loop rounds st).
Proof.
  revert st. induction rounds as [|rounds IH]; intros st Hinv; simpl; [done|].
  destruct (remainingCandidates st) as [|c0 cs] eqn:Epool; [done|].
  rewrite <- Epool.
  destruct (evaluateRound_invariant (workingGraph st) (remainingCandidates st))
    as [Hbest _].
  destruct (bestCandidate _) as [best|] eqn:Ebest; [|done].
  destruct (leb _ zero); [done|].
  destruct (addEdge _ _ _ _) as [g'|] eqn:Eadd; [|by apply IH].
  apply IH. destruct Hinv as (Hnodes & Hedges & Hrec).
  destruct Hbest as [(Hnone & _)|(c & m & Hin & Hc & Hm & Hmet & Himp & Hpos)];
    [congruence|].
  injection Hc as ->.
  revert Eadd. unfold addEdge.
  destruct (hasNode (workingGraph st) _) eqn:Ef; [|done].
  destruct (hasNode (workingGraph st) (c_to _)) eqn:Et; [|done]. simpl.
  destruct (hasEdge (workingGraph st) _ _) eqn:Ee; [done|]. intros [= <-].
  unfold graphInvariant. cbn [workingGraph selectedLinks g_nodes g_edges].
  split; [done|]. split.
  - rewrite Hedges, fmap_app, app_assoc. reflexivity.
  - intros r Hr. apply elem_of_app in Hr as [Hr|Hr]; [by apply Hrec|].
    apply list_elem_of_singleton in Hr as ->.
    unfold linkRecorded, linkOf. cbn [rec_link improvement metrics].
    rewrite assign_candidate in *.
    split; [done|]. split; [done|]. split; [by exists m|].
    unfold hasNode in *. rewrite <- Hnodes. split; [done|]. split; [done|].
    apply hasEdge_false. intros e He.
    apply (proj1 (hasEdge_false (workingGraph st) _ _) Ee).
    rewrite Hedges. apply elem_of_app. by left.
Qed.

End GreedyFacts.

(** X14.  The graph returned by [greedyRecommendation] has the nodes of
    the failed graph and its edges, followed by one edge per selected
    link, in the order of selection, with the mode, time and cost
    assigned to the link; the final metrics are those of that graph.
    Every selected link joins two nodes of the failed graph that the
    failed graph does not join, and is recorded with a strictly positive
    improvement, which is the reference value of the failed graph minus
    the objective value of the metrics recorded with it.  With a budget
    of 0 or no candidate, nothing is selected. *)
Theorem greedyRecommendation_final_graph (failedGraph : Graph)
    (candidates : list Candidate) (odPairs : list ODPair) (budget : nat)
    (objective : Objective) (timeOfDayCoefficients : option Coefficients) :
  let reference :=
    objectiveValue objective (computeMetrics failedGraph odPairs objective) in
  let out := greedyRecommendation failedGraph candidates odPairs budget objective
               timeOfDayCoefficients in
  g_nodes (finalGraph out) = g_nodes failedGraph
  /\ g_edges (finalGraph out)
     = g_edges failedGraph ++ (linkEdge objective <$> gr_selectedLinks out)
  /\ gr_finalMetrics out = computeMetrics (finalGraph out) odPairs objective
  /\ (forall r, r ∈ gr_selectedLinks out ->
        linkRecorded objective (default defaultCoefficients timeOfDayCoefficients)
          reference failedGraph r
        /\ hasEdge (finalGraph out) (c_from (linkOf r)) (c_to (linkOf r)) = true)
  /\ (budget = 0%nat \/ candidates = [] -> gr_selectedLinks out = []).
Proof.
  intros reference out.
  assert (graphInvariant objective (default defaultCoefficients timeOfDayCoefficients)
            reference failedGraph
            (greedyLoop odPairs objective
               (default defaultCoefficients timeOfDayCoefficients) reference budget
               (mkGreedyState [] failedGraph candidates))) as (Hn & He & Hrec).
  { apply greedyLoop_graph. split; [done|]. split.
    - simpl. by rewrite app_nil_r.
    - intros r Hr. by apply elem_of_nil in Hr. }
  assert (g_edges (finalGraph out)
          = g_edges failedGraph ++ (linkEdge objective <$> gr_selectedLinks out))
    as He' by exact He.
  split; [exact Hn|]. split; [exact He'|]. split; [done|]. split.
  - intros r Hr. split; [by apply Hrec|].
    unfold hasEdge. apply existsb_exists. exists (linkEdge objective r). split.
    + apply list_elem_of_In. rewrite He'.
      apply elem_of_app. right. apply list_elem_of_fmap. by exists r.
    + unfold linkEdge, connects. simpl. by rewrite !String.eqb_refl.
  - intros [-> | ->]; [done|]. unfold out, greedyRecommendation. cbn [gr_selectedLinks].
    by destruct budget.
Qed.

(** ** From the candidate generator to the recommender *)

Lemma ordPairs_elems {A} (R : A -> A -> Prop) (l : list A) (x y : A) :
  (forall a b, R a b -> R b a) ->
  ForallOrdPairs R l -> x ∈ l -> y ∈ l -> x <> y -> R x y.
Proof.
  intros Hsym. induction 1 as [|a l Ha Hl IH]; intros Hx Hy Hne.
  - by apply elem_of_nil in Hx.
  - rewrite Forall_forall in Ha.
    apply elem_of_cons in Hx as [->|Hx]; apply elem_of_cons in Hy as [->|Hy].
    + done.
    + by apply Ha.
    + by apply Hsym, Ha.
    + by apply IH.
Qed.

Lemma filter_shorter {A} (p : A -> bool) (l : list A) (x : A) :
  x ∈ l -> p x = false -> (List.length (List.filter p l) < List.length l)%nat.
Proof.
  induction l as [|y l IH]; intros Hx Hp; [by apply elem_of_nil in Hx|].
  simpl. apply elem_of_cons in Hx as [<-|Hx].
  - rewrite Hp. pose proof (filter_split_length p l) as H. lia.
  - specialize (IH Hx Hp). destruct (p y); simpl; lia.
Qed.

Lemma distinctPairs_sym (a b : Candidate) : distinctPairs a b -> distinctPairs b a.
Proof. intros H Hs. by apply H, samePair_sym. Qed.

Lemma greedyLoop_distinct (odPairs : list ODPair) (objective : Objective)
    (coefficients : Coefficients) (baselineValue : num)
    (initial : list Candidate) (rounds : nat) (st : GreedyState) :
  distinctInvariant initial st ->
  distinctInvariant initial
    (greedyLoop odPairs objective coefficients baselineValue rounds st).
Proof.
  revert st. induction rounds as [|rounds IH]; intros st Hinv; simpl; [done|].
  destruct (remainingCandidates st) as [|c0 cs] eqn:Epool; [done|].
  rewrite <- Epool.
  destruct (bestCandidate _) as [best|] eqn:Ebest; [|done].
  destruct (leb _ zero); [done|].
  destruct (addEdge _ _ _ _) as [g'|]; [|by apply IH].
  apply IH. destruct Hinv as (Hsel & Hcross & Hpool & Hlen).
  apply evaluateRound_best in Ebest.
  unfold distinctInvariant. cbn [selectedLinks remainingCandidates].
  assert (forall c, c ∈ removeSelected best (remainingCandidates st) ->
            c ∈ remainingCandidates st /\ c <> a_candidate best) as Hsub.
  { intros c Hc. apply removeSelected_sub in Hc as [Hc Hdiff].
    split; [done|]. intros ->. by apply Hdiff. }
  split; [|split; [|split]].
  - rewrite fmap_app. apply ordPairs_snoc; [done|].
    apply Forall_forall. intros c Hc. apply list_elem_of_fmap in Hc as [r [-> Hr]].
    by apply Hcross.
  - intros r c Hr Hc. destruct (Hsub c Hc) as [Hc' Hne].
    apply elem_of_app in Hr as [Hr|Hr]; [by apply Hcross|].
    apply list_elem_of_singleton in Hr as ->. unfold linkOf. simpl.
    apply (ordPairs_elems distinctPairs (remainingCandidates st));
      [apply distinctPairs_sym|done|done|done|congruence].
  - by apply ordPairs_filter.
  - rewrite length_app. simpl.
    assert (List.length (removeSelected best (remainingCandidates st))
            < List.length (remainingCandidates st))%nat; [|lia].
    apply (filter_shorter _ _ (a_candidate best)); [done|].
    by rewrite !String.eqb_refl.
Qed.

Lemma generateCandidates_ok (nodes : list Node) (originalGraph failedGraph : Graph)
    (scenarioResults : list ODResult) :
  let out := generateCandidates nodes originalGraph failedGraph scenarioResults in
  ForallOrdPairs distinctPairs out
  /\ (forall c, c ∈ out -> unconnected originalGraph failedGraph c)
  /\ (List.length out <= 30)%nat.
Proof.
  intros out.
  assert (candidatesOk originalGraph failedGraph
            (generatedCandidates nodes originalGraph failedGraph scenarioResults))
    as (_ & Hpairs & Hfree).
  { apply generatedCandidates_inv.
    - intros. by apply addCandidate_ok.
    - split; [|split]; simpl; [intros c Hc; by apply elem_of_nil in Hc
                              |constructor|intros c Hc; by apply elem_of_nil in Hc]. }
  split; [|split].
  - apply ordPairs_take, jsSort_distinct; [apply distinctPairs_sym|done].
  - intros c Hc. unfold out, generateCandidates in Hc.
    apply subseteq_take in Hc. rewrite jsSort_elem in Hc. by apply Hfree.
  - unfold out, generateCandidates. rewrite length_take. lia.
Qed.

(** X15.  When the candidates given to [greedyRecommendation] are those of
    [generateCandidates], as in [runScenario], at most [budget] and at
    most 30 links are selected; every selected link is one of the
    candidates and joins two nodes that neither the original nor the
    failed graph joins; and no two selected links join the same unordered
    pair of nodes. *)
Theorem recommendations_from_generated (nodes : list Node)
    (originalGraph failedGraph : Graph) (scenarioResults : list ODResult)
    (odPairs : list ODPair) (budget : nat) (objective : Objective)
    (timeOfDayCoefficients : option Coefficients) :
  let candidates :=
    generateCandidates nodes originalGraph failedGraph scenarioResults in
  let selected :=
    gr_selectedLinks (greedyRecommendation failedGraph candidates odPairs budget
                        objective timeOfDayCoefficients) in
  (List.length selected <= budget)%nat
  /\ (List.length selected <= 30)%nat
  /\ (forall r, r ∈ selected ->
        linkOf r ∈ candidates
        /\ hasEdge originalGraph (c_from (linkOf r)) (c_to (linkOf r)) = false
        /\ hasEdge failedGraph (c_from (linkOf r)) (c_to (linkOf r)) = false)
  /\ (forall i j ri rj, i <> j -> selected !! i = Some ri -> selected !! j = Some rj ->
        ~ samePair (linkOf ri) (linkOf rj)).
Proof.
  intros candidates selected.
  destruct (generateCandidates_ok nodes originalGraph failedGraph scenarioResults)
    as (Hpairs & Hfree & H30). fold candidates in Hpairs, Hfree, H30.
  set (coefficients := default defaultCoefficients timeOfDayCoefficients).
  set (reference := objectiveValue objective
                      (computeMetrics failedGraph odPairs objective)).
  set (start := mkGreedyState [] failedGraph candidates).
  assert (selected = selectedLinks
            (greedyLoop odPairs objective coefficients reference budget start))
    as Hsel by reflexivity.
  assert (distinctInvariant candidates
            (greedyLoop odPairs objective coefficients reference budget start))
    as (Hdist & _ & _ & Hlen).
  { apply greedyLoop_distinct. unfold distinctInvariant, start. simpl.
    split; [constructor|]. split; [intros r c Hr; by apply elem_of_nil in Hr|].
    split; [done|lia]. }
  assert (poolInvariant candidates
            (greedyLoop odPairs objective coefficients reference budget start))
    as (_ & Hfrom & _).
  { apply greedyLoop_pool. unfold poolInvariant, start. simpl.
    split; [|split]; [intros r c Hr; by apply elem_of_nil in Hr
                     |intros r Hr; by apply elem_of_nil in Hr|done]. }
  rewrite <- Hsel in Hdist, Hlen, Hfrom.
  split; [|split; [|split]].
  - rewrite Hsel. apply (greedyLoop_length odPairs objective coefficients reference
                           budget start).
  - lia.
  - intros r Hr. specialize (Hfrom r Hr). split; [done|]. by apply Hfree.
  - intros i j ri rj Hne Hi Hj.
    assert (forall i j a b, (i < j)%nat -> (linkOf <$> selected) !! i = Some a ->
              (linkOf <$> selected) !! j = Some b -> distinctPairs a b) as Hlt
      by apply (ordPairs_lookup distinctPairs _ Hdist).
    assert ((linkOf <$> selected) !! i = Some (linkOf ri)) as Hi'
      by (by rewrite list_lookup_fmap, Hi).
    assert ((linkOf <$> selected) !! j = Some (linkOf rj)) as Hj'
      by (by rewrite list_lookup_fmap, Hj).
    destruct (Nat.lt_total i j) as [Hij|[Hij|Hij]]; [|done|].
    + by apply (Hlt i j).
    + apply distinctPairs_sym. by apply (Hlt j i).
Qed.

(** ** Where the candidates come from *)

Section Sound.

Variable nodes : list Node.
Variable originalGraph failedGraph : Graph.
Variable scenarioResults : list ODResult.

Local Abbreviation sound st := (Forall (candidateSound nodes scenarioResults) (fst st)).
Local Abbreviation listedAs keep l := (Forall (fun n => n ∈ nodes /\ keep n = true) l).

Lemma filter_listed (keep : Node -> bool) : listedAs keep (List.filter keep nodes).
Proof.
  apply Forall_forall. intros n Hn.
  apply list_elem_of_In, List.filter_In in Hn as [Hn Hk].
  split; [by apply list_elem_of_In|done].
Qed.

Lemma addCandidate_sound (from to : string) (type : CandidateType) (priority : Z)
    (st : CandState) :
  proposed nodes scenarioResults from to type priority ->
  sound st ->
  sound (addCandidate nodes originalGraph failedGraph from to type priority st).
Proof.
  intros Hp Hst. unfold addCandidate. destruct st as [cs keys].
  destruct (_ || _); [done|]. destruct (_ || _); [done|].
  destruct (findNode nodes from) as [fromNode|] eqn:Ef; [|done].
  destruct (findNode nodes to) as [toNode|] eqn:Et; [|done].
  cbn [fst]. apply Forall_app. split; [done|].
  constructor; [|constructor]. split; [done|].
  exists fromNode, toNode. by repeat split.
Qed.

Lemma hubInner_sound (hubI : Node) (later : list Node) (st : CandState) :
  hubI ∈ nodes -> busHub hubI = true -> listedAs busHub later ->
  sound st -> sound (hubInner nodes originalGraph failedGraph hubI later st).
Proof.
  intros Hi Hhub. unfold hubInner. revert st.
  induction later as [|hubJ later IH]; intros st Hl Hst; simpl; [done|].
  apply Forall_cons in Hl as [[Hj Hhub'] Hl]. apply IH; [done|].
  destruct (withinKm _ _ _) eqn:Ekm; [|done].
  apply addCandidate_sound; [|done]. split; [done|].
  exists hubI, hubJ. unfold hubRule. by rewrite Hhub, Hhub', Ekm.
Qed.

Lemma hubNeighbors_sound (busHubs : list Node) (st : CandState) :
  listedAs busHub busHubs ->
  sound st -> sound (hubNeighbors nodes originalGraph failedGraph busHubs st).
Proof.
  revert st. induction busHubs as [|hubI later IH]; intros st Hl Hst; simpl; [done|].
  apply Forall_cons in Hl as [[Hi Hhub] Hl].
  apply IH; [done|]. by apply hubInner_sound.
Qed.

Lemma crossRail_sound (metroStations mmtsStations : list Node) (st : CandState) :
  listedAs (fun n => String.eqb (layer n) "metro") metroStations ->
  listedAs (fun n => String.eqb (layer n) "mmts") mmtsStations ->
  sound st ->
  sound (crossRail nodes originalGraph failedGraph metroStations mmtsStations st).
Proof.
  intros Hm Ht. unfold crossRail. revert st.
  induction metroStations as [|metro ms IH]; intros st Hst; simpl; [done|].
  apply Forall_cons in Hm as [[Hin Hmetro] Hm]. apply IH; [done|]. clear IH.
  revert st Hst.
  induction mmtsStations as [|mmts ts IH]; intros st Hst; simpl; [done|].
  apply Forall_cons in Ht as [[Hin' Hmmts] Ht]. apply IH; [done|].
  destruct (withinKm _ _ _) eqn:Ekm; [|done].
  apply addCandidate_sound; [|done]. split; [done|].
  exists metro, mmts. unfold railRule. by rewrite Hmetro, Hmmts, Ekm.
Qed.

Lemma topAffected_reachable (od : ODResult) :
  od ∈ topAffected scenarioResults -> od ∈ scenarioResults /\ reachable od = true.
Proof.
  unfold topAffected. intros Hod. apply subseteq_take in Hod.
  rewrite jsSort_elem in Hod.
  apply list_elem_of_In, List.filter_In in Hod as [Hod Hr].
  split; [by apply list_elem_of_In|done].
Qed.

Lemma odDriven_sound (st : CandState) :
  sound st -> sound (odDriven nodes originalGraph failedGraph scenarioResults st).
Proof.
  unfold odDriven.
  assert (Forall (fun od => od ∈ scenarioResults /\ reachable od = true)
            (topAffected scenarioResults)) as Htop
    by (apply Forall_forall; intros od; apply topAffected_reachable).
  revert Htop. generalize (topAffected scenarioResults). intros top. revert st.
  induction top as [|od top IH]; intros st Htop Hst; simpl; [done|].
  apply Forall_cons in Htop as [[Hod Hr] Htop]. apply IH; [done|].
  destruct (odProposal od) as [[first mid]|] eqn:Eod; [|done].
  apply addCandidate_sound; [|done]. split; [done|]. by exists od.
Qed.

Lemma expressInner_sound (hubI : Node) (later : list Node) (st : CandState) :
  hubI ∈ nodes -> majorHub hubI = true -> listedAs majorHub later ->
  sound st -> sound (expressInner nodes originalGraph failedGraph hubI later st).
Proof.
  intros Hi Hhub. revert st.
  induction later as [|hubJ later IH]; intros st Hl Hst; simpl; [done|].
  apply Forall_cons in Hl as [[Hj Hhub'] Hl].
  destruct (length st.1 <? 40)%nat; [|done]. apply IH; [done|].
  destruct (negb _) eqn:Eregion; simpl; [|done].
  destruct (withinKm _ _ _) eqn:Ekm; [|done].
  apply addCandidate_sound; [|done]. split; [done|].
  exists hubI, hubJ. unfold expressRule. by rewrite Hhub, Hhub', Eregion, Ekm.
Qed.

Lemma expressHubs_sound (majorHubs : list Node) (st : CandState) :
  listedAs majorHub majorHubs ->
  sound st -> sound (expressHubs nodes originalGraph failedGraph majorHubs st).
Proof.
  revert st. induction majorHubs as [|hubI later IH]; intros st Hl Hst; simpl; [done|].
  apply Forall_cons in Hl as [[Hi Hhub] Hl].
  destruct (length st.1 <? 40)%nat; [|done].
  apply IH; [done|]. by apply expressInner_sound.
Qed.

End Sound.

(** X16.  Every candidate that [generateCandidates] returns was proposed
    by the strategy its type names, with that strategy's priority
    (10, 8, 7 or 6): a hub neighbour joins two bus hubs 2 to 6 km apart,
    a cross-rail link a metro and an MMTS node 0.5 to 4 km apart, an
    express link two major hubs of different regions 3 to 15 km apart,
    and an OD-driven link the first and the middle node of the path of a
    reachable scenario result.  Both endpoints are ids of [nodes], and
    the names and the distance of the candidate are those of the first
    rows with these ids. *)
Theorem generateCandidates_sound (nodes : list Node)
    (originalGraph failedGraph : Graph) (scenarioResults : list ODResult)
    (c : Candidate) :
  c ∈ generateCandidates nodes originalGraph failedGraph scenarioResults ->
  candidateSound nodes scenarioResults c.
Proof.
  unfold generateCandidates. intros Hc. apply subseteq_take in Hc.
  rewrite jsSort_elem in Hc. revert c Hc. apply Forall_forall.
  unfold generatedCandidates.
  apply expressHubs_sound; [apply (filter_listed nodes majorHub)|].
  apply odDriven_sound.
  apply crossRail_sound; [apply filter_listed|apply filter_listed|].
  apply hubNeighbors_sound; [apply (filter_listed nodes busHub)|].
  constructor.
Qed.

(** ** The sample of journeys *)

Lemma randomIndex_bound (r : Q) (n : nat) :
  (0 <= r < 1)%Q -> (0 < n)%nat -> (randomIndex r n < n)%nat.
Proof.
  intros [H0 H1] Hn. unfold randomIndex.
  set (x := (r * inject_Z (Z.of_nat n))%Q).
  assert (0 < inject_Z (Z.of_nat n))%Q as Hpos
    by (rewrite <- (Zlt_Qlt 0); lia).
  assert (0 <= x)%Q as Hx0 by (unfold x; nra).
  assert (x < inject_Z (Z.of_nat n))%Q as Hx1 by (unfold x; nra).
  assert (0 <= Qfloor x)%Z as Hf0.
  { rewrite <- (Qfloor_Z 0). by apply Qfloor_resp_le. }
  assert (Qfloor x < Z.of_nat n)%Z as Hf1.
  { rewrite Zlt_Qlt. eapply Qle_lt_trans; [apply Qfloor_le|done]. }
  lia.
Qed.

Lemma filter_lookup_elem {A} (keep : A -> bool) (l : list A) (i : nat) (x : A) :
  List.filter keep l !! i = Some x -> x ∈ l /\ keep x = true.
Proof.
  intros H. apply list_elem_of_lookup_2 in H.
  apply list_elem_of_In, List.filter_In in H as [H Hk].
  split; [by apply list_elem_of_In|done].
Qed.

Lemma sampling_bounds (majorNodes : list Node) (sampleSize : nat) (st : SampleState) :
  sampling majorNodes sampleSize st = true ->
  (List.length (fst st) < sampleSize)%nat
  /\ (List.length (fst st) < List.length majorNodes * (List.length majorNodes - 1) / 2)%nat
  /\ (0 < List.length majorNodes)%nat.
Proof.
  unfold sampling. intros [H1 H2]%andb_true_iff.
  apply Nat.ltb_lt in H1, H2. split; [done|]. split; [done|].
  destruct (List.length majorNodes); [simpl in H2; lia|lia].
Qed.

Lemma sampleStep_ok (nodes : list Node) (sampleSize : nat) (draw : Q * Q)
    (st : SampleState) :
  unitDraw draw ->
  sampling (List.filter isMajorNode nodes) sampleSize st = true ->
  sampleOk nodes sampleSize st ->
  exists st', sampleStep (List.filter isMajorNode nodes) draw st = Some st'
              /\ sampleOk nodes sampleSize st'.
Proof.
  intros [Hi Hj] Hrun Hok. apply sampling_bounds in Hrun as (Hsize & Hpairs & Hn).
  unfold sampleStep. destruct st as [odPairs usedPairs]. cbn [fst snd] in *.
  set (majorNodes := List.filter isMajorNode nodes) in *.
  pose proof (randomIndex_bound _ _ Hi Hn) as Hi'.
  pose proof (randomIndex_bound _ _ Hj Hn) as Hj'.
  destruct (Nat.eqb_spec (randomIndex draw.1 (length majorNodes))
                         (randomIndex draw.2 (length majorNodes))) as [|Hne];
    [by eexists|].
  destruct (lookup_lt_is_Some_2 _ _ Hi') as [a Ha].
  destruct (lookup_lt_is_Some_2 _ _ Hj') as [b Hb].
  rewrite Ha, Hb.
  destruct (bool_decide (_ ∈ usedPairs)) eqn:Ekey; [by eexists|].
  destruct (bool_decide ((node_id b ++ "_" ++ node_id a)%string ∈ usedPairs)) eqn:Erev;
    [by eexists|].
  simpl. eexists. split; [done|].
  apply bool_decide_eq_false in Ekey, Erev.
  destruct Hok as (Hkeys & Hdist & Hfrom & Hlen). cbn [fst snd] in *.
  split; [|split; [|split]]; cbn [fst snd].
  - intros p Hp. apply elem_of_app in Hp as [Hp|Hp].
    + apply elem_of_union. right. by apply Hkeys.
    + apply list_elem_of_singleton in Hp as ->. apply elem_of_union. left.
      by apply elem_of_singleton.
  - apply ordPairs_snoc; [done|]. rewrite Forall_forall. intros p Hp.
    apply Hkeys in Hp. unfold sampleKey in Hp.
    intros [[Hs Ht]|[Hs Ht]]; simpl in Hs, Ht; rewrite Hs, Ht in Hp; done.
  - apply Forall_app. split; [done|]. constructor; [|constructor].
    destruct (filter_lookup_elem _ _ _ _ Ha) as [Hain Hamaj].
    destruct (filter_lookup_elem _ _ _ _ Hb) as [Hbin Hbmaj].
    by exists (randomIndex draw.1 (length majorNodes)),
              (randomIndex draw.2 (length majorNodes)), a, b.
  - rewrite length_app. simpl. unfold majorPairs. fold majorNodes. lia.
Qed.

Lemma sampleLoop_ok (nodes : list Node) (sampleSize : nat) (draws : list (Q * Q))
    (st : SampleState) :
  Forall unitDraw draws ->
  sampleOk nodes sampleSize st ->
  match sampleLoop (List.filter isMajorNode nodes) sampleSize draws st with
  | Sampled odPairs =>
      exists st', odPairs = fst st' /\ sampleOk nodes sampleSize st'
                  /\ sampling (List.filter isMajorNode nodes) sampleSize st' = false
  | Sampling st' =>
      sampleOk nodes sampleSize st'
      /\ sampling (List.filter isMajorNode nodes) sampleSize st' = true
  | SampleError => False
  end.
Proof.
  intros Hdraws. revert st.
  induction Hdraws as [|draw draws Hdraw Hdraws IH]; intros st Hok; simpl.
  - destruct (sampling _ _ st) eqn:Erun; [done|by exists st].
  - destruct (sampling _ _ st) eqn:Erun; [|by exists st].
    destruct (sampleStep_ok nodes sampleSize draw st Hdraw Erun Hok)
      as (st' & -> & Hok').
    by apply IH.
Qed.

(** X17.  Whatever values in [0, 1) [Math.random()] gives,
    [generateODSample] throws no error; when it returns, the sample has
    exactly [min(sampleSize, n (n - 1) / 2)] pairs for [n] major nodes;
    and the pairs it returns, or has collected while its loop still
    runs, join major nodes of [nodes] at two different positions, carry
    their names, and no two of them join the same unordered pair
    of ids. *)
Theorem generateODSample_sample (nodes : list Node) (sampleSize : nat)
    (draws : list (Q * Q)) :
  Forall unitDraw draws ->
  let distinct (odPairs : list ODPair) :=
    forall i j a b, i <> j -> odPairs !! i = Some a -> odPairs !! j = Some b ->
                    ~ sameJourney a b in
  match generateODSample nodes sampleSize draws with
  | Sampled odPairs =>
      List.length odPairs = Nat.min sampleSize (majorPairs nodes)
      /\ distinct odPairs /\ Forall (betweenMajor nodes) odPairs
  | Sampling (odPairs, _) =>
      (List.length odPairs < Nat.min sampleSize (majorPairs nodes))%nat
      /\ distinct odPairs /\ Forall (betweenMajor nodes) odPairs
  | SampleError => False
  end.
Proof.
  intros Hdraws distinct.
  assert (forall odPairs,
            ForallOrdPairs (fun a b => ~ sameJourney a b) odPairs -> distinct odPairs)
    as Hdistinct.
  { intros odPairs Hord i j a b Hne Hi Hj.
    destruct (Nat.lt_total i j) as [Hij|[Hij|Hij]]; [|done|].
    - by apply (ordPairs_lookup _ _ Hord i j).
    - intros Hsame. apply (ordPairs_lookup _ _ Hord j i b a Hij Hj Hi).
      destruct Hsame as [[Hs Ht]|[Hs Ht]]; [left|right]; by split. }
  assert (sampleOk nodes sampleSize ([], ∅)) as Hstart.
  { split; [|split; [|split]]; simpl;
      [intros p Hp; by apply elem_of_nil in Hp|constructor|constructor|lia]. }
  pose proof (sampleLoop_ok nodes sampleSize draws _ Hdraws Hstart) as Hloop.
  unfold generateODSample.
  destruct (sampleLoop _ _ _ _) as [odPairs|[odPairs usedPairs]|]; [| |done].
  - destruct Hloop as (st' & -> & (_ & Hord & Hfrom & Hlen) & Hstop).
    split; [|split]; [|by apply Hdistinct|done].
    unfold sampling in Hstop. apply andb_false_iff in Hstop.
    unfold majorPairs in *.
    destruct Hstop as [Hstop|Hstop]; apply Nat.ltb_ge in Hstop; lia.
  - destruct Hloop as ((_ & Hord & Hfrom & Hlen) & Hrun).
    apply sampling_bounds in Hrun as (Hsize & Hpairs & _). cbn [fst] in *.
    split; [|split]; [|by apply Hdistinct|done].
    unfold majorPairs. lia.
Qed.

(** *** The loop can always finish *)

Lemma positionPairs_elem (n i j : nat) :
  (i, j) ∈ positionPairs n <-> (i < j < n)%nat.
Proof.
  induction n as [|n IH]; simpl.
  - split; [intros H; by apply elem_of_nil in H|lia].
  - rewrite elem_of_app, IH, list_elem_of_fmap. split.
    + intros [H|[k [Hk Hin]]]; [lia|]. apply elem_of_seq in Hin.
      injection Hk as -> ->. lia.
    + intros [Hij Hj]. destruct (decide (j = n)) as [->|Hne]; [right|left; lia].
      exists i. split; [done|]. apply elem_of_seq. lia.
Qed.

Lemma positionPairs_NoDup (n : nat) : NoDup (positionPairs n).
Proof.
  induction n as [|n IH]; simpl; [constructor|].
  apply NoDup_app. split; [done|]. split.
  - intros [i j] Hin Hin'. apply positionPairs_elem in Hin.
    apply list_elem_of_fmap in Hin' as [k [Hk _]]. injection Hk as -> ->. lia.
  - apply NoDup_fmap_2_strong; [|apply NoDup_seq].
    intros x y _ _ H. by injection H.
Qed.

Lemma positionPairs_length (n : nat) :
  List.length (positionPairs n) = (n * (n - 1) / 2)%nat.
Proof.
  induction n as [|n IH]; simpl positionPairs; [done|].
  rewrite length_app, length_fmap, length_seq, IH.
  replace (S n * (S n - 1))%nat with (n * (n - 1) + n * 2)%nat by nia.
  by rewrite Nat.div_add.
Qed.

Lemma key_inj (a b c d : string) :
  underscoreFree a = true -> underscoreFree c = true ->
  (a ++ "_" ++ b)%string = (c ++ "_" ++ d)%string -> a = c /\ b = d.
Proof.
  revert c. induction a as [|x a IH]; intros [|y c] Ha Hc H; simpl in Ha, Hc;
    unfold String.append in H; fold String.append in H.
  - injection H as ->. done.
  - injection H as <- _. done.
  - injection H as -> _. done.
  - injection H as -> H. apply andb_true_iff in Ha as [_ Ha], Hc as [_ Hc].
    destruct (IH c Ha Hc H) as [-> ->]. done.
Qed.

Lemma pairKey_inj (ids : list string) (i j i' j' : nat) :
  NoDup ids -> Forall (fun s => underscoreFree s = true) ids ->
  (i < List.length ids)%nat -> (j < List.length ids)%nat ->
  (i' < List.length ids)%nat -> (j' < List.length ids)%nat ->
  pairKey ids (i, j) = pairKey ids (i', j') -> i = i' /\ j = j'.
Proof.
  intros Hnd Hfree Hi Hj Hi' Hj'. unfold pairKey. cbn [fst snd].
  destruct (lookup_lt_is_Some_2 _ _ Hi) as [a Ha].
  destruct (lookup_lt_is_Some_2 _ _ Hj) as [b Hb].
  destruct (lookup_lt_is_Some_2 _ _ Hi') as [c Hc].
  destruct (lookup_lt_is_Some_2 _ _ Hj') as [d Hd].
  rewrite Ha, Hb, Hc, Hd. simpl. intros H.
  rewrite Forall_forall in Hfree.
  apply key_inj in H as [-> ->];
    [|by eapply Hfree, list_elem_of_lookup_2..].
  split; by eapply NoDup_lookup.
Qed.

Lemma free_pair (ids : list string) (used : gset string) :
  NoDup ids -> Forall (fun s => underscoreFree s = true) ids ->
  (size used < List.length ids * (List.length ids - 1) / 2)%nat ->
  exists i j, (i < j < List.length ids)%nat
              /\ (pairKey ids (i, j) ∉ used) /\ (pairKey ids (j, i) ∉ used).
Proof.
  intros Hnd Hfree Hsize.
  destruct (decide (Forall (blocked ids used) (positionPairs (List.length ids))))
    as [Hall|Hsome].
  - exfalso. rewrite Forall_forall in Hall.
    assert (NoDup (blocker ids used <$> positionPairs (List.length ids))) as Hkeys.
    { apply NoDup_fmap_2_strong; [|apply positionPairs_NoDup].
      intros [i j] [i' j'] Hp Hp' Heq.
      apply positionPairs_elem in Hp, Hp'. unfold blocker in Heq. cbn [fst snd] in Heq.
      destruct (decide (pairKey ids (i, j) ∈ used)),
               (decide (pairKey ids (i', j') ∈ used));
        apply pairKey_inj in Heq as [? ?]; try done; try lia; f_equal; lia. }
    assert (list_to_set (blocker ids used <$> positionPairs (List.length ids))
              ⊆ used) as Hsub.
    { intros k Hk. apply elem_of_list_to_set, list_elem_of_fmap in Hk as [p [-> Hp]].
      unfold blocker. destruct (decide _) as [|Hno]; [done|].
      by destruct (Hall p Hp). }
    apply subseteq_size in Hsub.
    rewrite (size_list_to_set _ Hkeys), length_fmap, positionPairs_length in Hsub.
    lia.
  - apply not_Forall_Exists, Exists_exists in Hsome as [[i j] [Hp Hfreep]];
      [|intros p; unfold blocked; apply _].
    apply positionPairs_elem in Hp. exists i, j. split; [done|].
    unfold compose, blocked in Hfreep. cbn [fst snd] in Hfreep. tauto.
Qed.

Lemma pos_of_nat (n : nat) : (0 < n)%nat -> Z.pos (Pos.of_nat n) = Z.of_nat n.
Proof. intros Hn. rewrite <- positive_nat_Z, Nat2Pos.id; lia. Qed.

Lemma drawOf_unit (n i : nat) : (i < n)%nat -> (0 <= drawOf n i < 1)%Q.
Proof.
  intros Hi. unfold drawOf, Qle, Qlt. simpl. rewrite pos_of_nat by lia. lia.
Qed.

Lemma randomIndex_drawOf (n i : nat) : (i < n)%nat -> randomIndex (drawOf n i) n = i.
Proof.
  intros Hi. unfold randomIndex.
  assert (drawOf n i * inject_Z (Z.of_nat n) == inject_Z (Z.of_nat i))%Q as ->.
  { unfold drawOf, Qeq, Qmult, inject_Z. simpl.
    rewrite Pos2Z.inj_mul, pos_of_nat by lia. lia. }
  rewrite Qfloor_Z. lia.
Qed.

Lemma sampleStep_size (majorNodes : list Node) (draw : Q * Q) (st st' : SampleState) :
  sampleStep majorNodes draw st = Some st' ->
  (size (snd st) <= List.length (fst st))%nat ->
  (size (snd st') <= List.length (fst st'))%nat.
Proof.
  unfold sampleStep. destruct st as [odPairs usedPairs]. cbn [fst snd].
  destruct (_ =? _)%nat; [by intros [= <-]|].
  destruct (majorNodes !! _) as [a|]; [|done].
  destruct (majorNodes !! _) as [b|]; [|done].
  destruct (bool_decide (_ ∈ usedPairs)) eqn:Ekey; simpl; [by intros [= <-]|].
  apply bool_decide_eq_false in Ekey.
  destruct (bool_decide ((node_id b ++ "_" ++ node_id a)%string ∈ usedPairs)); simpl;
    [by intros [= <-]|].
  intros [= <-] Hsize. cbn [fst snd].
  rewrite size_union, size_singleton, length_app by (by apply disjoint_singleton_l).
  simpl. lia.
Qed.

Lemma sampleLoop_size (majorNodes : list Node) (sampleSize : nat)
    (draws : list (Q * Q)) (st st' : SampleState) :
  sampleLoop majorNodes sampleSize draws st = Sampling st' ->
  (size (snd st) <= List.length (fst st))%nat ->
  (size (snd st') <= List.length (fst st'))%nat.
Proof.
  revert st. induction draws as [|draw draws IH]; intros st; simpl.
  - destruct (sampling _ _ _); [by intros [= <-]|done].
  - destruct (sampling _ _ _); [|done].
    destruct (sampleStep _ _ _) as [st1|] eqn:Estep; [|done].
    intros Hrun Hsize. apply (IH st1 Hrun). by eapply sampleStep_size.
Qed.

Lemma sampleLoop_app (majorNodes : list Node) (sampleSize : nat)
    (draws more : list (Q * Q)) (st : SampleState) :
  sampleLoop majorNodes sampleSize (draws ++ more) st
  = match sampleLoop majorNodes sampleSize draws st with
    | Sampling st' => sampleLoop majorNodes sampleSize more st'
    | outcome => outcome
    end.
Proof.
  revert st. induction draws as [|draw draws IH]; intros st; simpl.
  - destruct (sampling _ _ st) eqn:Erun; [done|].
    destruct more; simpl; by rewrite Erun.
  - destruct (sampling _ _ st); [|done].
    destruct (sampleStep _ _ _) as [st1|]; [apply IH|done].
Qed.

Lemma sampleStep_free (majorNodes : list Node) (i j : nat) (st : SampleState) :
  (i < j < List.length majorNodes)%nat ->
  pairKey (node_id <$> majorNodes) (i, j) ∉ snd st ->
  pairKey (node_id <$> majorNodes) (j, i) ∉ snd st ->
  exists st',
    sampleStep majorNodes
      (drawOf (List.length majorNodes) i, drawOf (List.length majorNodes) j) st
    = Some st'
    /\ List.length (fst st') = S (List.length (fst st)).
Proof.
  intros Hij Hkey Hrev. unfold sampleStep. destruct st as [odPairs usedPairs].
  cbn [fst snd] in *. rewrite !randomIndex_drawOf by lia.
  destruct (Nat.eqb_spec i j) as [|_]; [lia|].
  destruct (lookup_lt_is_Some_2 majorNodes i) as [a Ha]; [lia|].
  destruct (lookup_lt_is_Some_2 majorNodes j) as [b Hb]; [lia|].
  unfold pairKey in Hkey, Hrev. cbn [fst snd] in Hkey, Hrev.
  rewrite !list_lookup_fmap, Ha, Hb in Hkey, Hrev. simpl in Hkey, Hrev.
  rewrite Ha, Hb.
  rewrite (bool_decide_eq_false_2 _ Hkey), (bool_decide_eq_false_2 _ Hrev). simpl.
  eexists. split; [done|]. cbn [fst]. rewrite length_app. simpl. lia.
Qed.

Lemma sampleLoop_finish (majorNodes : list Node) (sampleSize : nat) :
  NoDup (node_id <$> majorNodes) ->
  Forall (fun s => underscoreFree s = true) (node_id <$> majorNodes) ->
  forall (k : nat) (st : SampleState),
    (sampleSize - List.length (fst st) <= k)%nat ->
    (size (snd st) <= List.length (fst st))%nat ->
    exists more odPairs,
      Forall unitDraw more
      /\ sampleLoop majorNodes sampleSize more st = Sampled odPairs.
Proof.
  intros Hnd Hfree. induction k as [|k IH]; intros st Hk Hsize.
  - exists [], (fst st). split; [constructor|]. simpl.
    destruct (sampling _ _ st) eqn:Erun; [|done].
    apply sampling_bounds in Erun. lia.
  - destruct (sampling majorNodes sampleSize st) eqn:Erun;
      [|exists [], (fst st); split; [constructor|]; simpl; by rewrite Erun].
    pose proof Erun as (Hlt & Hpairs & Hn)%sampling_bounds.
    destruct (free_pair (node_id <$> majorNodes) (snd st) Hnd Hfree)
      as (i & j & Hij & Hkey & Hrev); [rewrite length_fmap; lia|].
    rewrite length_fmap in Hij.
    destruct (sampleStep_free majorNodes i j st Hij Hkey Hrev) as (st' & Hstep & Hlen).
    destruct (IH st') as (more & odPairs & Hmore & Hrest);
      [lia|apply (sampleStep_size _ _ _ _ Hstep Hsize)|].
    exists ((drawOf (length majorNodes) i, drawOf (length majorNodes) j) :: more),
           odPairs.
    split; [|simpl; by rewrite Erun, Hstep].
    constructor; [|done]. split; simpl; apply drawOf_unit; lia.
Qed.

(** X18.  When the ids of the major nodes are pairwise different and
    contain no underscore, [generateODSample] can return from every point
    of its loop: whatever values [Math.random()] has given so far, there
    are further values in [0, 1) after which the call returns a sample. *)
Theorem generateODSample_can_return (nodes : list Node) (sampleSize : nat)
    (draws : list (Q * Q)) :
  plainIds nodes ->
  Forall unitDraw draws ->
  exists more odPairs,
    Forall unitDraw more
    /\ generateODSample nodes sampleSize (draws ++ more) = Sampled odPairs.
Proof.
  intros [Hnd Hfree] Hdraws. unfold generateODSample.
  assert (sampleOk nodes sampleSize ([], ∅)) as Hstart.
  { split; [|split; [|split]]; simpl;
      [intros p Hp; by apply elem_of_nil in Hp|constructor|constructor|lia]. }
  pose proof (sampleLoop_ok nodes sampleSize draws _ Hdraws Hstart) as Hloop.
  destruct (sampleLoop _ _ draws _) as [odPairs|st|] eqn:Erun; [| |done].
  - exists [], odPairs. split; [constructor|]. by rewrite sampleLoop_app, Erun.
  - assert (size (snd st) <= List.length (fst st))%nat as Hsize.
    { apply (sampleLoop_size _ _ _ _ _ Erun). cbn [fst snd]. by rewrite size_empty. }
    destruct (sampleLoop_finish _ sampleSize Hnd Hfree
                (sampleSize - List.length (fst st)) st) as (more & odPairs & Hmore & Hrest);
      [lia|done|].
    exists more, odPairs. split; [done|]. by rewrite sampleLoop_app, Erun.
Qed.

(** ** dijkstraMinTransfers finds the target when it can be reached *)

Lemma keysApart_spec (g : Graph) (source n n' : string) (m m' : option string) :
  keysApart g source = true ->
  n ∈ searchNodes g source -> n' ∈ searchNodes g source ->
  m ∈ searchModes g -> m' ∈ searchModes g ->
  stateKey n m = stateKey n' m' -> n = n'.
Proof.
  unfold keysApart. intros Hall Hn Hn' Hm Hm' Hkey.
  rewrite forallb_forall in Hall. apply list_elem_of_In, Hall in Hn.
  rewrite forallb_forall in Hn. apply list_elem_of_In, Hn in Hn'.
  rewrite forallb_forall in Hn'. apply list_elem_of_In, Hn' in Hm.
  rewrite forallb_forall in Hm. apply list_elem_of_In, Hm in Hm'.
  rewrite Hkey, String.eqb_refl in Hm'. by apply eqb_true.
Qed.

Lemma hasEdge_incident (g : Graph) (a b : string) :
  hasEdge g a b = true -> exists attrs, (b, attrs) ∈ incident g a.
Proof.
  unfold hasEdge, incident. intros H.
  apply existsb_exists in H as [e [He Hc]]. exists (e_attrs e).
  apply list_elem_of_In, in_flat_map. exists e. split; [done|].
  apply connects_iff in Hc as [[Hs Ht]|[Hs Ht]].
  - rewrite Hs, String.eqb_refl, Ht. by left.
  - destruct (String.eqb (e_source e) a) eqn:E.
    + apply eqb_true in E. rewrite Ht. left. congruence.
    + rewrite Ht, String.eqb_refl, Hs. by left.
Qed.

Lemma relax_spec (current : QEntry) (best : gmap string (nat * Q))
    (queue : list QEntry) (nb : string) (attrs : EdgeAttrs) :
  let out := relax current (best, queue) (nb, attrs) in
  (forall u, is_Some (best !! u) -> is_Some (fst out !! u))
  /\ is_Some (fst out !! nb)
  /\ (forall u, is_Some (fst out !! u) ->
        is_Some (best !! u) \/ exists e, e ∈ snd out /\ q_node e = u)
  /\ (forall e, e ∈ queue -> e ∈ snd out).
Proof.
  unfold relax. cbv zeta.
  match goal with |- context [if ?c then _ else _] => destruct c eqn:Ebetter end;
    cbn [fst snd].
  - split; [|split; [|split]].
    + intros u Hu. destruct (decide (nb = u)) as [->|Hne];
        [by rewrite lookup_insert_eq|by rewrite lookup_insert_ne].
    + by rewrite lookup_insert_eq.
    + intros u Hu. destruct (decide (nb = u)) as [->|Hne].
      * right. eexists. split; [apply elem_of_app; right; by left|done].
      * rewrite lookup_insert_ne in Hu by done. by left.
    + intros e He. apply elem_of_app. by left.
  - split; [done|]. split; [|split; [by left|done]].
    destruct (best !! nb) as [[? ?]|]; [done|discriminate].
Qed.

Lemma relax_fold_spec (current : QEntry) (nbs : list (string * EdgeAttrs))
    (best : gmap string (nat * Q)) (queue : list QEntry) :
  let out := fold_left (relax current) nbs (best, queue) in
  (forall u, is_Some (best !! u) -> is_Some (fst out !! u))
  /\ (forall nb attrs, (nb, attrs) ∈ nbs -> is_Some (fst out !! nb))
  /\ (forall u, is_Some (fst out !! u) ->
        is_Some (best !! u) \/ exists e, e ∈ snd out /\ q_node e = u)
  /\ (forall e, e ∈ queue -> e ∈ snd out).
Proof.
  revert best queue. induction nbs as [|[nb attrs] nbs IH]; intros best queue;
    cbn [fold_left].
  - cbn [fst snd]. split; [done|]. split; [|split; [by left|done]].
    intros nb attrs H. by apply elem_of_nil in H.
  - pose proof (relax_spec current best queue nb attrs) as (Hmono & Hset & Hnew & Hq).
    destruct (relax current (best, queue) (nb, attrs)) as [best1 queue1].
    cbn [fst snd] in *.
    destruct (IH best1 queue1) as (Hmono' & Hset' & Hnew' & Hq').
    split; [|split; [|split]].
    + intros u Hu. by apply Hmono', Hmono.
    + intros nb' attrs' Hin. apply elem_of_cons in Hin as [[= -> ->]|Hin];
        [by apply Hmono'|by eapply Hset'].
    + intros u Hu. destruct (Hnew' u Hu) as [Hu1|Hu1]; [|by right].
      destruct (Hnew u Hu1) as [Hu0|(e & He & Hnode)]; [by left|].
      right. exists e. split; [by apply Hq'|done].
    + intros e He. by apply Hq', Hq.
Qed.

Lemma relax_fold_universe (g : Graph) (source : string) (current : QEntry)
    (best : gmap string (nat * Q)) (queue : list QEntry) :
  Forall (fun e => q_node e ∈ searchNodes g source /\ q_prevMode e ∈ searchModes g)
    queue ->
  Forall (fun e => q_node e ∈ searchNodes g source /\ q_prevMode e ∈ searchModes g)
    (snd (fold_left (relax current) (incident g (q_node current)) (best, queue))).
Proof.
  intros Hq. apply relax_fold; [done|].
  intros nb attrs transfers time Hin. cbn [q_node q_prevMode].
  apply incident_edge in Hin as (e & He & <- & Hnb). split.
  - right. apply list_elem_of_In, in_flat_map. exists e.
    split; [by apply list_elem_of_In|]. destruct Hnb as [-> | ->]; simpl; [by left|right; by left].
  - right. apply list_elem_of_fmap. by exists e.
Qed.

(** The loop does not give up while the target can be reached. *)
Lemma dijkstraLoop_complete (g : Graph) (source target : string) (p : list string) :
  keysApart g source = true ->
  pathBetween g source target p ->
  forall (fuel : nat) (queue : list QEntry) (visited : gset string)
         (best : gmap string (nat * Q)) (expanded : gset string),
    searchInvariant g source target expanded queue visited best ->
    dijkstraLoop fuel g target queue visited best <> Some None.
Proof.
  intros Hkeys Hpath.
  induction fuel as [|fuel IH]; intros queue visited best expanded Hinv; simpl; [done|].
  destruct Hinv as (Hsrc & Hnbs & Hbest & Htarget & Hvis & Hq).
  destruct (jsSort compareEntries queue) as [|current rest] eqn:Esort.
  - (* the queue is empty: every node on the path is expanded *)
    intros _. apply (f_equal List.length) in Esort. rewrite jsSort_length in Esort.
    destruct queue; [|done].
    assert (forall u, is_Some (best !! u) -> u ∈ expanded) as Hall.
    { intros u Hu. destruct (Hbest u Hu) as [|(e & He & _)]; [done|].
      by apply elem_of_nil in He. }
    destruct Hpath as (Hhead & Hlast & Hwalk).
    assert (forall q a, isWalk g (a :: q) -> a ∈ expanded ->
              forall t, last (a :: q) = Some t -> t ∈ expanded) as Hclosed.
    { clear -Hall Hnbs. induction q as [|b q IHq]; intros a Hw Ha t Ht.
      - injection Ht as <-. done.
      - destruct Hw as [Hab Hw]. apply (IHq b Hw); [|done].
        apply hasEdge_incident in Hab as [attrs Hin]. by eapply Hall, Hnbs. }
    destruct p as [|a q]; [done|]. injection Hhead as ->.
    apply Htarget, (Hclosed q source Hwalk); [by apply Hall|done].
  - assert (forall e, e ∈ queue <-> e = current \/ e ∈ rest) as Hperm.
    { intros e. rewrite <- (jsSort_elem compareEntries queue e), Esort.
      apply elem_of_cons. }
    assert (Forall (fun e => q_node e ∈ searchNodes g source
                             /\ q_prevMode e ∈ searchModes g) (current :: rest))
      as Hsorted by (rewrite <- Esort; by rewrite jsSort_perm).
    apply Forall_cons in Hsorted as [[Hnode Hmode] Hrest].
    destruct (String.eqb (q_node current) target) eqn:Etarget; [done|].
    apply eqb_false in Etarget.
    destruct (bool_decide _) eqn:Evis.
    + apply bool_decide_eq_true in Evis.
      apply (IH rest visited best expanded).
      destruct (Hvis _ Evis) as (v & m & Hv & Hvn & Hm & Hkey).
      apply (keysApart_spec g source _ _ _ _ Hkeys Hnode Hvn Hmode Hm) in Hkey.
      split; [done|]. split; [done|]. split; [|done].
      intros u Hu. destruct (Hbest u Hu) as [|(e & He & Hnode')]; [by left|].
      apply Hperm in He as [->|He]; [left; congruence|right; by exists e].
    + pose proof (relax_fold_spec current (incident g (q_node current)) best rest)
        as (Hmono & Hset & Hnew & Hkeep).
      pose proof (relax_fold_universe g source current best rest Hrest) as Hq'.
      destruct (fold_left _ _ _) as [best' queue'] eqn:Efold. cbn [fst snd] in *.
      apply (IH queue' _ best' ({[q_node current]} ∪ expanded)).
      split; [by apply Hmono|]. split; [|split; [|split; [|split]]].
      * intros v u attrs Hv Hin. apply elem_of_union in Hv as [Hv|Hv].
        -- apply elem_of_singleton in Hv as ->. by eapply Hset.
        -- by eapply Hmono, Hnbs.
      * intros u Hu. destruct (Hnew u Hu) as [Hu0|]; [|by right].
        destruct (Hbest u Hu0) as [|(e & He & Hnode')];
          [left; apply elem_of_union; by right|].
        apply Hperm in He as [->|He].
        -- left. apply elem_of_union. left. by apply elem_of_singleton.
        -- right. exists e. split; [by apply Hkeep|done].
      * intros Hin. apply elem_of_union in Hin as [Hin|Hin]; [|done].
        apply elem_of_singleton in Hin. by apply Etarget.
      * intros key Hkey. apply elem_of_union in Hkey as [Hkey|Hkey].
        -- apply elem_of_singleton in Hkey as ->.
           exists (q_node current), (q_prevMode current).
           split; [apply elem_of_union; left; by apply elem_of_singleton|done].
        -- destruct (Hvis _ Hkey) as (v & m & Hv & Hrest').
           exists v, m. split; [apply elem_of_union; by right|done].
      * done.
Qed.

Lemma dijkstraMinTransfers_finds (g : Graph) (source target : string)
    (p : list string) :
  hasNode g source = true -> hasNode g target = true ->
  keysApart g source = true ->
  pathBetween g source target p ->
  is_Some (dijkstraMinTransfers g source target).
Proof.
  intros Hs Ht Hkeys Hpath.
  unfold dijkstraMinTransfers. rewrite Hs, Ht. cbn [negb orb].
  destruct (String.eqb source target); [by eexists|].
  destruct (dijkstraMinTransfers_terminates g source target) as [result Hrun].
  unfold initialEntry in Hrun. rewrite Hrun.
  destruct result as [q|]; [by exists q|]. exfalso.
  apply (dijkstraLoop_complete g source target p Hkeys Hpath _ _ _ _ ∅) in Hrun; [done|].
  split; [by rewrite lookup_singleton_eq|]. split; [|split; [|split; [|split]]].
  - intros v u attrs Hv. by apply elem_of_empty in Hv.
  - intros u Hu. right. exists (mkQEntry source 0 0 None [source]).
    split; [by left|]. simpl.
    destruct (decide (source = u)) as [|Hne]; [done|].
    rewrite lookup_singleton_ne in Hu by done. by destruct Hu.
  - apply not_elem_of_empty.
  - intros key Hkey. by apply elem_of_empty in Hkey.
  - constructor; [|done]. split; simpl; by left.
Qed.

(** X19.  When no two nodes share a state key, [dijkstraMinTransfers]
    returns a path whenever the graph has one: for two nodes of the graph
    joined by some path, the search returns a path of the graph between
    them (not [null]). *)
Theorem dijkstraMinTransfers_complete (g : Graph) (source target : string)
    (p : list string) :
  hasNode g source = true -> hasNode g target = true ->
  keysApart g source = true ->
  pathBetween g source target p ->
  exists q, dijkstraMinTransfers g source target = Some q
            /\ pathBetween g source target q.
Proof.
  intros Hs Ht Hkeys Hpath.
  destruct (dijkstraMinTransfers_finds g source target p Hs Ht Hkeys Hpath)
    as [q Hq].
  exists q. split; [exact Hq|].
  apply dijkstraMinTransfers_sound in Hq as (Hhead & Hlast & Hwalk).
  by repeat split.
Qed.

(** ** Reachability under the 'transfers' objective *)

Lemma hasEdge_getEdgeAttributes (g : Graph) (a b : string) :
  hasEdge g a b = true -> is_Some (getEdgeAttributes g a b).
Proof.
  unfold hasEdge, getEdgeAttributes. intros H.
  destruct (List.find (connects a b) (g_edges g)) as [e|] eqn:E; [by eexists|].
  apply existsb_exists in H as [e [He Hc]].
  by rewrite (find_none _ _ E e He) in Hc.
Qed.

Lemma walk_nodes (g : Graph) (p : list string) (a : string) :
  endpointsExist g -> isWalk g (a :: p) -> hasNode g a = true ->
  Forall (fun n => hasNode g n = true) (a :: p).
Proof.
  intros Hends. revert a. induction p as [|b p IH]; intros a Hw Ha.
  - by constructor.
  - destruct Hw as [Hab Hw]. constructor; [done|]. apply IH; [done|].
    unfold hasEdge in Hab. apply existsb_exists in Hab as [e [He Hc]].
    apply list_elem_of_In, Hends in He as [Hes Het].
    apply connects_iff in Hc as [[_ <-]|[<- _]]; done.
Qed.

Lemma walkPath_total (g : Graph) (p : list string) (acc : WalkAcc) :
  isWalk g p -> Forall (fun n => hasNode g n = true) p ->
  is_Some (walkPath g p acc).
Proof.
  revert acc. induction p as [|a p IH]; intros acc Hw Hn; [by eexists|].
  destruct p as [|b p]; [by eexists|].
  rewrite walkPath_cons. destruct Hw as [Hab Hw].
  apply Forall_cons in Hn as [Ha Hn]. pose proof Hn as [Hb _]%Forall_cons.
  destruct (hasEdge_getEdgeAttributes g a b Hab) as [edge ->].
  unfold getNodeAttributes. apply hasNode_true in Ha as [fromNode ->].
  apply hasNode_true in Hb as [toNode ->]. by apply IH.
Qed.

(** X20.  Under the 'transfers' objective, in a graph whose edges all
    join nodes and in which no two nodes share a state key,
    [computeShortestPath] finds a path exactly when there is one: the
    result has a path if and only if both endpoints are nodes of the
    graph and some path of the graph joins them; otherwise it has no path
    and its time is [Infinity]. *)
Theorem computeShortestPath_transfers_reachable (g : Graph) (source target : string) :
  endpointsExist g ->
  keysApart g source = true ->
  let r := computeShortestPath g source target ObjTransfers in
  let joined := hasNode g source = true /\ hasNode g target = true
                /\ exists p, pathBetween g source target p in
  (is_Some (p_path r) <-> joined)
  /\ (~ joined -> p_path r = None /\ p_time r = PInf).
Proof.
  intros Hends Hkeys r joined.
  assert (is_Some (p_path r) <-> joined) as Hpath.
  { unfold r, joined, computeShortestPath.
    destruct (hasNode g source) eqn:Hs; [|split; [by intros [? ?]|by intros [? _]]].
    destruct (hasNode g target) eqn:Ht;
      [|split; [by intros [? ?]|by intros (_ & ? & _)]].
    cbn [negb orb].
    destruct (String.eqb source target) eqn:Esame.
    { apply eqb_true in Esame as <-. split; [|by eexists].
      intros _. repeat split. by exists [source]. }
    split.
    - destruct (dijkstraMinTransfers g source target) as [q|] eqn:Hq;
        [|by intros [? ?]].
      intros _. repeat split. exists q. by apply dijkstraMinTransfers_sound.
    - intros (_ & _ & p & Hp).
      destruct (dijkstraMinTransfers_finds g source target p Hs Ht Hkeys Hp) as [q Hq].
      rewrite Hq. apply dijkstraMinTransfers_sound in Hq as (Hhead & _ & Hwalk).
      destruct q as [|a q]; [done|]. injection Hhead as ->.
      destruct (walkPath_total g (source :: q) initWalk Hwalk) as [acc ->];
        [by apply walk_nodes|by eexists]. }
  split; [done|]. intros Hnot.
  destruct (computeShortestPath_sentinel g source target ObjTransfers)
    as [(Hnone & _ & _ & Ht & _)|Hsome]; [done|].
  exfalso. by apply Hnot, Hpath.
Qed.

(** X21.  In a graph whose edges all join nodes, [computeShortestPath]
    never ends in its error branch: for two different nodes of the graph
    and every objective, the path of the result is exactly what the
    search returned, the library search for 'time' and 'cost' and the
    transfer search for 'transfers'. *)
Theorem computeShortestPath_returns_search (g : Graph) (source target : string)
    (objective : Objective) :
  endpointsExist g ->
  hasNode g source = true -> hasNode g target = true -> source <> target ->
  p_path (computeShortestPath g source target objective)
  = match objective with
    | ObjTransfers => dijkstraMinTransfers g source target
    | _ => bidirectional g source target
    end.
Proof using bidirectional_sound.
  intros Hends Hs Ht Hne. unfold computeShortestPath. rewrite Hs, Ht. cbn [negb orb].
  apply eqb_false in Hne. rewrite Hne.
  assert (forall q, pathBetween g source target q ->
                    is_Some (walkPath g q initWalk)) as Hwalk.
  { intros q (Hhead & _ & Hw). destruct q as [|a q]; [done|]. injection Hhead as ->.
    apply walkPath_total; [done|by apply walk_nodes]. }
  destruct objective.
  - destruct (bidirectional g source target) as [q|] eqn:Hq; [|done].
    by destruct (Hwalk q (bidirectional_sound _ _ _ _ Hq)) as [acc ->].
  - destruct (bidirectional g source target) as [q|] eqn:Hq; [|done].
    by destruct (Hwalk q (bidirectional_sound _ _ _ _ Hq)) as [acc ->].
  - destruct (dijkstraMinTransfers g source target) as [q|] eqn:Hq; [|done].
    by destruct (Hwalk q (dijkstraMinTransfers_sound _ _ _ _ Hq)) as [acc ->].
Qed.

End Engine.

(** ** The properties on concrete inputs *)

Lemma applyFailure_never_mutates_witness :
  transferHeap !! 1%positive = Some transferGraph
  /\ exists failed h',
       applyFailure 1%positive NodeFailure ["B"] transferHeap = Some (failed, h')
       /\ h' !! 1%positive = Some transferGraph
       /\ failed <> 1%positive.
Proof.
  split; [reflexivity|].
  destruct (applyFailure_never_mutates transferHeap 1%positive transferGraph
              NodeFailure ["B"]) as (failed & h' & Hrun & Hkept & _ & Hne & _);
    [reflexivity|].
  exists failed, h'. split; [exact Hrun|]. split; [exact Hkept|exact Hne].
Defined.

Lemma applyFailure_edge_first_two_tokens_witness :
  stationHeap !! 1%positive = Some stationGraph
  /\ exists failed h' G',
       applyFailure 1%positive EdgeFailure ["Ameerpet_Metro_Miyapur_Metro"] stationHeap
       = Some (failed, h')
       /\ h' !! failed = Some G'
       /\ g_edges G' = g_edges stationGraph
       /\ hasEdge G' "Ameerpet_Metro" "Miyapur_Metro" = true.
Proof.
  split; [reflexivity|].
  destruct (applyFailure_edge_first_two_tokens stationHeap 1%positive stationGraph
              ["Ameerpet_Metro_Miyapur_Metro"])
    as (failed & h' & G' & Hrun & Hcopy & _ & Hedges & _); [reflexivity|].
  exists failed, h', G'. split; [exact Hrun|]. split; [exact Hcopy|].
  assert (g_edges G' = g_edges stationGraph) as He
    by (rewrite Hedges; reflexivity).
  split; [exact He|]. unfold hasEdge. rewrite He. reflexivity.
Defined.

Lemma buildGraph_base_cost_witness :
  buildGraph transferNodes transferRows ObjTransfers None None = Some transferGraph
  /\ metroEdge ∈ g_edges transferGraph
  /\ exists fare, baseCost (e_attrs metroEdge) = Some fare /\ fare = 10%Q.
Proof.
  split; [reflexivity|].
  assert (metroEdge ∈ g_edges transferGraph) as Hin
    by (apply list_elem_of_In; right; left; reflexivity).
  split; [exact Hin|].
  destruct (buildGraph_base_cost transferNodes transferRows ObjTransfers None None
              transferGraph metroEdge eq_refl Hin)
    as (row & fare & _ & _ & _ & _ & _ & _ & Hbase & _).
  exists fare. split; [exact Hbase|].
  simpl in Hbase. injection Hbase as <-. reflexivity.
Defined.

(** C5, as stated, fails in two ways.  With a Metro-to-Metro route
    context an 'mmts' edge that is not a transfer edge, of base cost 10,
    gets the adjusted cost 14: the other fixed-rail mode is penalised.
    And what makes a route context a Metro one is the suffix "_Metro" of
    the two identifiers, not the layer of the nodes: between two metro
    stations whose identifiers lack the suffix a bus edge of base cost 5
    keeps the cost 5, and between two bus stops whose identifiers have
    the suffix the same bus edge gets the cost 7. *)
Lemma metro_preference_as_stated_fails :
  (buildGraph railNodes railRows ObjCost None metroContext = Some railGraph
   /\ g_edges railGraph = [mmtsEdge]
   /\ isRail (transportMode (e_attrs mmtsEdge)) = true
   /\ intra_or_inter (e_attrs mmtsEdge) = Some "intra"
   /\ baseCost (e_attrs mmtsEdge) = Some 10%Q
   /\ (cost (e_attrs mmtsEdge) == 14)%Q
   /\ ~ (cost (e_attrs mmtsEdge) == 10)%Q)
  /\ (buildGraph suffixNodes suffixRows ObjCost None stationContext
      = Some stationRouteGraph
      /\ layer <$> getNodeAttributes stationRouteGraph "M1" = Some "metro"
      /\ layer <$> getNodeAttributes stationRouteGraph "M2" = Some "metro"
      /\ exists attrs,
           getEdgeAttributes stationRouteGraph "M1" "M2" = Some attrs
           /\ transportMode attrs = "bus"
           /\ isRail (transportMode attrs) = false
           /\ intra_or_inter attrs = Some "intra"
           /\ baseCost attrs = Some 5%Q
           /\ (cost attrs == 5)%Q
           /\ ~ (cost attrs == 7)%Q)
  /\ (buildGraph suffixNodes suffixRows ObjCost None stopContext
      = Some stopRouteGraph
      /\ layer <$> getNodeAttributes stopRouteGraph "Depot_Metro" = Some "bus"
      /\ layer <$> getNodeAttributes stopRouteGraph "Stand_Metro" = Some "bus"
      /\ exists attrs,
           getEdgeAttributes stopRouteGraph "Depot_Metro" "Stand_Metro" = Some attrs
           /\ transportMode attrs = "bus"
           /\ baseCost attrs = Some 5%Q
           /\ (cost attrs == 7)%Q
           /\ ~ (cost attrs == 5)%Q).
Proof.
  split; [|split].
  - repeat split; try reflexivity. intros H. vm_compute in H. discriminate H.
  - repeat (split; [reflexivity|]). eexists. split; [reflexivity|].
    repeat (split; [reflexivity|]). intros H. vm_compute in H. discriminate H.
  - repeat (split; [reflexivity|]). eexists. split; [reflexivity|].
    repeat (split; [reflexivity|]). intros H. vm_compute in H. discriminate H.
Qed.

Lemma buildGraph_metro_preference_witness :
  endsWith "Ameerpet_Metro" "_Metro" = true
  /\ endsWith "Miyapur_Metro" "_Metro" = true
  /\ buildGraph railNodes railRows ObjCost None metroContext = Some railGraph
  /\ mmtsEdge ∈ g_edges railGraph
  /\ exists unpenalised,
       unpenalised = 10%Q /\ cost (e_attrs mmtsEdge) = (unpenalised * (14 # 10))%Q.
Proof.
  assert (mmtsEdge ∈ g_edges railGraph) as Hin
    by (apply list_elem_of_In; left; reflexivity).
  repeat (split; [reflexivity|]). split; [exact Hin|].
  destruct (buildGraph_metro_preference railNodes railRows ObjCost None
              "Ameerpet_Metro" "Miyapur_Metro" railGraph mmtsEdge
              eq_refl eq_refl eq_refl Hin)
    as (row & base & unpenalised & _ & _ & _ & _ & _ & Hbase & Hunp & Hpen & _).
  exists unpenalised. split.
  - simpl in Hbase. injection Hbase as <-. rewrite Hunp. reflexivity.
  - apply Hpen; discriminate.
Defined.

(** C8, as stated, fails: with [source == target] missing from the
    graph the result is the unreachable sentinel, not the trivial path. *)
Lemma equal_endpoints_missing_unreachable :
  computeShortestPath dijkstraMinTransfers emptyGraph "A" "A" ObjTime
  = mkPathResult None None PInf PInf PInf PInf
  /\ ~ (forall bidirectional graph source objective,
          computeShortestPath bidirectional graph source source objective
          = mkPathResult (Some [source]) None (Fin 0) (Fin 0) (Fin 0) (Fin 0)).
Proof.
  split; [reflexivity|].
  intros H. specialize (H dijkstraMinTransfers emptyGraph "A" ObjTime).
  discriminate H.
Qed.

Lemma computeShortestPath_edge_cases_witness :
  (forall g s t p, dijkstraMinTransfers g s t = Some p -> pathBetween g s t p)
  /\ hasNode transferGraph "S" = true
  /\ computeShortestPath dijkstraMinTransfers transferGraph "S" "S" ObjTime
     = mkPathResult (Some ["S"]) None (Fin 0) (Fin 0) (Fin 0) (Fin 0)
  /\ computeShortestPath dijkstraMinTransfers transferGraph "S" "Z" ObjTime
     = mkPathResult None None PInf PInf PInf PInf.
Proof.
  split; [exact dijkstraMinTransfers_sound|]. split; [reflexivity|].
  destruct (computeShortestPath_edge_cases dijkstraMinTransfers
              dijkstraMinTransfers_sound transferGraph "S" "Z" ObjTime)
    as (Hsame & Hmissing & _).
  split; [apply Hsame; reflexivity|apply Hmissing; right; reflexivity].
Defined.

(** The stable insertion sort is such a sort, and [topAffected] is
    [topAffectedWith] for it. *)
Lemma topAffected_jsSort (scenarioResults : list ODResult) :
  topAffected scenarioResults = topAffectedWith (@jsSort) scenarioResults.
Proof. reflexivity. Qed.

Lemma insertSorted_map {A B} (f : A -> B) (compare : B -> B -> num) (x : A) (l : list A) :
  insertSorted compare (f x) (f <$> l)
  = f <$> insertSorted (fun x y => compare (f x) (f y)) x l.
Proof.
  induction l as [|y l IH]; simpl; [done|].
  destruct (keepsOrder (compare (f x) (f y))); simpl; [done|].
  f_equal. exact IH.
Qed.

Lemma jsSort_map {A B} (f : A -> B) (compare : B -> B -> num) (l : list A) :
  jsSort compare (f <$> l) = f <$> jsSort (fun x y => compare (f x) (f y)) l.
Proof.
  induction l as [|x l IH]; [done|].
  change (insertSorted compare (f x) (jsSort compare (f <$> l))
          = f <$> insertSorted (fun x y => compare (f x) (f y)) x
                    (jsSort (fun x y => compare (f x) (f y)) l)).
  rewrite IH. apply insertSorted_map.
Qed.

Lemma Qle_bool_sign (q : Q) :
  Qle_bool q 0 = match (q ?= 0)%Q with Gt => false | _ => true end.
Proof.
  unfold Qle_bool, Qcompare. simpl. rewrite Z.mul_1_r.
  unfold Z.leb. by destruct (Qnum q ?= 0)%Z.
Qed.

Lemma keepsOrder_sign (v w : num) : signOf v = signOf w -> keepsOrder v = keepsOrder w.
Proof.
  destruct v as [x| | |], w as [y| | |]; simpl; rewrite ?Qle_bool_sign; intros H;
    first [rewrite H | rewrite <- H | idtac]; done.
Qed.

Lemma jsSort_sign {A} (compare compare' : A -> A -> num) (l : list A) :
  (forall x y, signOf (compare x y) = signOf (compare' x y)) ->
  jsSort compare l = jsSort compare' l.
Proof.
  intros Hsign. induction l as [|x l IH]; simpl; [done|].
  rewrite IH. generalize (jsSort compare' l). intros sorted.
  induction sorted as [|y sorted IHs]; simpl; [done|].
  rewrite (keepsOrder_sign _ _ (Hsign x y)). by rewrite IHs.
Qed.

Lemma od_driven_any_sort_witness :
  exists longest : nat,
    affectedAt longest longest ∈ (affectedAt longest <$> positions)
    /\ p_time (res_path (affectedAt longest longest)) = Fin 15
    /\ affectedAt longest longest
       ∉ topAffectedWith (@jsSort) (affectedAt longest <$> positions).
Proof.
  destruct (od_driven_any_sort (@jsSort) (@jsSort_perm) (@jsSort_map) (@jsSort_sign))
    as (longest & _ & Hin & Htime & _ & Hout).
  exists longest. split; [exact Hin|]. split; [exact Htime|exact Hout].
Defined.

Lemma calculateMetroFare_monotone_witness :
  (2 <= 12)%Q /\ (calculateMetroFare 2 <= calculateMetroFare 12)%Q.
Proof.
  assert (2 <= 12)%Q as Hle by (unfold Qle; simpl; lia).
  split; [exact Hle|].
  destruct (calculateMetroFare_monotone 2 12 Hle) as (Hfare & _). exact Hfare.
Defined.

Lemma buildGraph_wellFormed_witness :
  buildGraph transferNodes transferRows ObjTransfers None None = Some transferGraph
  /\ wellFormed transferGraph.
Proof.
  split; [reflexivity|].
  destruct (buildGraph_wellFormed transferNodes transferRows ObjTransfers None None
              transferGraph eq_refl) as (Hwf & _).
  exact Hwf.
Defined.

Lemma buildGraph_first_row_wins_witness :
  buildGraph transferNodes transferRows ObjTransfers None None = Some transferGraph
  /\ getEdgeAttributes transferGraph "A" "S"
     = Some (edgeAttributes ObjTransfers defaultCoefficients false
               (plainRow "S" "A" "bus" 1 5)).
Proof.
  split; [reflexivity|].
  rewrite (buildGraph_first_row_wins transferNodes transferRows ObjTransfers None None
             transferGraph "A" "S" eq_refl).
  reflexivity.
Defined.

Lemma buildGraph_time_and_weight_witness :
  buildGraph transferNodes transferRows ObjTransfers None None = Some transferGraph
  /\ metroEdge ∈ g_edges transferGraph
  /\ exists row, row ∈ transferRows
                 /\ baseTime (e_attrs metroEdge) = Some (time_min row)
                 /\ weight (e_attrs metroEdge)
                    = (time_min row * (1 # 100)
                       + (if isInter (row_intra_or_inter row) then 10000 else 0))%Q.
Proof.
  split; [reflexivity|].
  assert (metroEdge ∈ g_edges transferGraph) as Hin
    by (apply list_elem_of_In; right; left; reflexivity).
  split; [exact Hin|].
  destruct (buildGraph_time_and_weight transferNodes transferRows ObjTransfers None None
              transferGraph metroEdge eq_refl Hin)
    as (row & Hrow & _ & _ & Hbase & _ & _ & _ & _ & Hweight).
  exists row. split; [exact Hrow|]. split; [exact Hbase|exact Hweight].
Defined.

Lemma applyFailure_node_witness :
  transferHeap !! 1%positive = Some transferGraph
  /\ exists failed h' G',
       applyFailure 1%positive NodeFailure ["B"] transferHeap = Some (failed, h')
       /\ h' !! failed = Some G'
       /\ hasNode G' "B" = false
       /\ g_nodes G' !! "A" = g_nodes transferGraph !! "A".
Proof.
  split; [reflexivity|].
  destruct (applyFailure_node transferHeap 1%positive transferGraph ["B"] eq_refl)
    as (failed & h' & G' & Hrun & Hcopy & Hgone & Hkept & _).
  exists failed, h', G'. split; [exact Hrun|]. split; [exact Hcopy|]. split.
  - apply Hgone. apply list_elem_of_In. left. reflexivity.
  - apply Hkept. intros Hin. apply list_elem_of_In in Hin.
    destruct Hin as [Heq|[]]. discriminate Heq.
Defined.

Lemma applyFailure_layer_witness :
  transferHeap !! 1%positive = Some transferGraph
  /\ exists failed h' G',
       applyFailure 1%positive LayerFailure ["metro"] transferHeap = Some (failed, h')
       /\ h' !! failed = Some G'
       /\ g_edges G' = [].
Proof.
  split; [reflexivity|].
  destruct (applyFailure_layer transferHeap 1%positive transferGraph ["metro"] eq_refl)
    as (failed & h' & G' & Hrun & Hcopy & _ & Hedges).
  exists failed, h', G'. split; [exact Hrun|]. split; [exact Hcopy|].
  rewrite Hedges. reflexivity.
Defined.

Lemma applyFailure_subgraph_witness :
  transferHeap !! 1%positive = Some transferGraph
  /\ wellFormed transferGraph
  /\ exists failed h' G',
       applyFailure 1%positive EdgeFailure ["S_A"] transferHeap = Some (failed, h')
       /\ h' !! failed = Some G'
       /\ subgraph G' transferGraph
       /\ wellFormed G'.
Proof.
  assert (wellFormed transferGraph) as Hwf.
  { split.
    - intros e He. apply list_elem_of_In in He.
      destruct He as [<-|[<-|[<-|[<-|[]]]]]; split; reflexivity.
    - repeat constructor. }
  split; [reflexivity|]. split; [exact Hwf|].
  exact (applyFailure_subgraph transferHeap 1%positive transferGraph EdgeFailure ["S_A"]
           eq_refl Hwf).
Defined.

Lemma edge_key_round_trip_witness :
  underscoreFree "S" = true /\ underscoreFree "A" = true
  /\ transferHeap !! 1%positive = Some transferGraph
  /\ edgeOptionValue (plainRow "S" "A" "bus" 1 5) = "S_A"
  /\ exists failed h' G',
       applyFailure 1%positive EdgeFailure ["S_A"] transferHeap = Some (failed, h')
       /\ h' !! failed = Some G'
       /\ hasEdge G' "A" "S" = false.
Proof.
  repeat (split; [reflexivity|]).
  destruct (edge_key_round_trip transferHeap 1%positive transferGraph
              (plainRow "S" "A" "bus" 1 5) eq_refl eq_refl eq_refl)
    as (_ & failed & h' & G' & Hrun & Hcopy & _ & _ & Hgone & _).
  exists failed, h', G'. split; [exact Hrun|]. split; [exact Hcopy|exact Hgone].
Defined.

Lemma generateCandidates_sound_witness :
  hubLink ∈ generateCandidates gridDistance hubNodes emptyGraph emptyGraph []
  /\ proposed gridDistance hubNodes [] "H1" "H2" hub_neighbor 10.
Proof.
  assert (hubLink ∈ generateCandidates gridDistance hubNodes emptyGraph emptyGraph [])
    as Hin by (apply list_elem_of_In; left; reflexivity).
  split; [exact Hin|].
  destruct (generateCandidates_sound gridDistance hubNodes emptyGraph emptyGraph []
              hubLink Hin) as (Hproposed & _).
  exact Hproposed.
Defined.

Lemma generateODSample_sample_witness :
  Forall unitDraw sampleDraws
  /\ generateODSample stationNodes 2 sampleDraws = Sampled stationSample
  /\ List.length stationSample = Nat.min 2 (majorPairs stationNodes).
Proof.
  assert (Forall unitDraw sampleDraws) as Hdraws
    by (repeat constructor; unfold Qle, Qlt; simpl; lia).
  split; [exact Hdraws|]. split; [reflexivity|].
  pose proof (generateODSample_sample stationNodes 2 sampleDraws Hdraws) as H.
  destruct H as (Hlen & _). exact Hlen.
Defined.

Lemma generateODSample_can_return_witness :
  plainIds stationNodes
  /\ exists more odPairs,
       Forall unitDraw more
       /\ generateODSample stationNodes 3 (sampleDraws ++ more) = Sampled odPairs.
Proof.
  assert (plainIds stationNodes) as Hids.
  { split; [|repeat constructor].
    apply (bool_decide_unpack _). vm_compute. exact I. }
  assert (Forall unitDraw sampleDraws) as Hdraws
    by (repeat constructor; unfold Qle, Qlt; simpl; lia).
  split; [exact Hids|].
  exact (generateODSample_can_return stationNodes 3 sampleDraws Hids Hdraws).
Defined.

Lemma dijkstraMinTransfers_complete_witness :
  hasNode transferGraph "S" = true /\ hasNode transferGraph "T" = true
  /\ keysApart transferGraph "S" = true
  /\ pathBetween transferGraph "S" "T" ["S"; "B"; "A"; "T"]
  /\ exists q, dijkstraMinTransfers transferGraph "S" "T" = Some q
               /\ pathBetween transferGraph "S" "T" q.
Proof.
  assert (pathBetween transferGraph "S" "T" ["S"; "B"; "A"; "T"]) as Hpath
    by (repeat split; reflexivity).
  assert (keysApart transferGraph "S" = true) as Hkeys by (vm_compute; reflexivity).
  split; [reflexivity|]. split; [reflexivity|]. split; [exact Hkeys|].
  split; [exact Hpath|].
  exact (dijkstraMinTransfers_complete transferGraph "S" "T" ["S"; "B"; "A"; "T"]
           eq_refl eq_refl Hkeys Hpath).
Defined.

Lemma computeShortestPath_transfers_reachable_witness :
  endpointsExist transferGraph
  /\ keysApart transferGraph "S" = true
  /\ pathBetween transferGraph "S" "T" ["S"; "A"; "T"]
  /\ is_Some (p_path (computeShortestPath dijkstraMinTransfers transferGraph "S" "T"
                        ObjTransfers)).
Proof.
  assert (endpointsExist transferGraph) as Hends.
  { intros e He. apply list_elem_of_In in He.
    destruct He as [<-|[<-|[<-|[<-|[]]]]]; split; reflexivity. }
  assert (keysApart transferGraph "S" = true) as Hkeys by (vm_compute; reflexivity).
  assert (pathBetween transferGraph "S" "T" ["S"; "A"; "T"]) as Hpath
    by (repeat split; reflexivity).
  split; [exact Hends|]. split; [exact Hkeys|]. split; [exact Hpath|].
  destruct (computeShortestPath_transfers_reachable dijkstraMinTransfers transferGraph
              "S" "T" Hends Hkeys) as (Hfound & _).
  apply Hfound. split; [reflexivity|]. split; [reflexivity|].
  exists ["S"; "A"; "T"]. exact Hpath.
Defined.

Lemma computeShortestPath_returns_search_witness :
  endpointsExist transferGraph
  /\ hasNode transferGraph "S" = true /\ hasNode transferGraph "T" = true
  /\ "S" <> "T"
  /\ p_path (computeShortestPath dijkstraMinTransfers transferGraph "S" "T" ObjTime)
     = dijkstraMinTransfers transferGraph "S" "T".
Proof.
  assert (endpointsExist transferGraph) as Hends.
  { intros e He. apply list_elem_of_In in He.
    destruct He as [<-|[<-|[<-|[<-|[]]]]]; split; reflexivity. }
  assert ("S" <> "T") as Hne by discriminate.
  split; [exact Hends|]. split; [reflexivity|]. split; [reflexivity|].
  split; [exact Hne|].
  exact (computeShortestPath_returns_search dijkstraMinTransfers
           dijkstraMinTransfers_sound transferGraph "S" "T" ObjTime
           Hends eq_refl eq_refl Hne).
Defined.

Lemma computeMetrics_reachable_flag_witness :
  exists r,
    r ∈ results (computeMetrics dijkstraMinTransfers transferGraph
                   [mkODPair "S" "T" None None; mkODPair "S" "Z" None None]
                   ObjTransfers)
    /\ res_target r = "Z"
    /\ reachable r = false
    /\ p_time (res_path r) = PInf.
Proof.
  exists (mkODResult "S" "Z" "S" "Z" unreachableResult false).
  assert (mkODResult "S" "Z" "S" "Z" unreachableResult false
          ∈ results (computeMetrics dijkstraMinTransfers transferGraph
                       [mkODPair "S" "T" None None; mkODPair "S" "Z" None None]
                       ObjTransfers)) as Hin
    by (apply list_elem_of_In; vm_compute; right; left; reflexivity).
  split; [exact Hin|]. split; [reflexivity|].
  destruct (computeMetrics_reachable_flag dijkstraMinTransfers transferGraph
              [mkODPair "S" "T" None None; mkODPair "S" "Z" None None]
              ObjTransfers _ Hin) as (_ & _ & Hnone).
  destruct (Hnone eq_refl) as (Hflag & _ & Htime & _).
  split; [exact Hflag|exact Htime].
Defined.
